(** * The query planning core of proton's matching subsystem (query.cpp)

    A shallow embedding of [proton::matching::Query] and of the free
    functions of its anonymous namespace: [inject], [addLocationNode],
    [asRankOrAndNot] and [lastConsequtiveRankOrAndNot].

    Conventions of the embedding.
    - A [std::unique_ptr] that may be null is an [option].
    - Trees are owned exclusively (every [Node::UP] and [Blueprint::UP] is
      moved, never shared), so a tree is a value of an inductive type.  A
      raw pointer that aliases into a tree, as the result of
      [lastConsequtiveRankOrAndNot] does, is a path from the root.
    - The raw pointer [_white_list_provider] outlives the moves of the
      object it points at: it is held as the place where that object lives
      now, so that what is read through it is the object as it is at the
      time of the read, and nothing once the object is destroyed.
    - Undefined behaviour of the C++ code (reading the first child of an
      intermediate node that has no children, dereferencing a null tree, a
      failed assertion) is the result [None] of the computation.
    - Every pass query.cpp runs over a tree, and every warning it logs, is
      recorded in a trace of [Event]s, so that "which passes ran, and in
      which order" can be stated. Debug logging is left out. *)

From Stdlib Require Import List String Ascii ZArith Bool Arith Lia Sorted.
Import ListNotations.

Set Implicit Arguments.
Set Warnings "-register-all".

(** ** Query trees (search::query::Node) *)

(** The intermediate node classes. [inject] tells [And], [Rank] and [AndNot]
    apart by [dynamic_cast]; the others all take its last branch. *)
Inductive NodeKind : Type :=
| And | AndNot | Rank | Or | Near | ONear | Phrase | Equiv | SameElement | WeightedSet.

(** A query tree over term payloads [T]. query.cpp never looks inside a term,
    so the payload of the terms the tree creator builds is left abstract. The
    location term is the one term query.cpp builds itself, with the four
    constructor arguments of [ProtonLocationTerm(loc, view, id, weight)]. *)
Inductive Node (T : Type) : Type :=
| Term (d : T)
| ProtonLocationTerm (loc view : string) (id : Z) (weight : Z)
| Intermediate (k : NodeKind) (children : list (Node T)).

Arguments Term {T} d.
Arguments ProtonLocationTerm {T} loc view id weight.
Arguments Intermediate {T} k children.

(** [ProtonAnd] is the [And] of [ProtonNodeTypes]: a fresh conjunction
    without children, a subclass of [search::query::And]. *)
Definition ProtonAnd {T} : Node T := Intermediate And [].

(** [Intermediate::append]: the child goes last. *)
Definition append {T} (n child : Node T) : option (Node T) :=
  match n with
  | Intermediate k cs => Some (Intermediate k (cs ++ [child]))
  | _ => None
  end.

(** [Intermediate::prepend]: the child goes first. *)
Definition prepend {T} (n child : Node T) : option (Node T) :=
  match n with
  | Intermediate k cs => Some (Intermediate k (child :: cs))
  | _ => None
  end.

(** [Intermediate::stealFirst]: the first child is taken out of the node;
    the result is the stolen child and the node that is left. There is no
    first child to steal from an empty child vector. *)
Definition stealFirst {T} (n : Node T) : option (Node T * Node T) :=
  match n with
  | Intermediate k (c :: cs) => Some (c, Intermediate k cs)
  | _ => None
  end.

(** The three [dynamic_cast] tests of [inject]. *)
Definition isAnd {T} (n : Node T) : bool :=
  match n with Intermediate And _ => true | _ => false end.

Definition isRankKind (k : NodeKind) : bool :=
  match k with Rank => true | _ => false end.

Definition isAndNotKind (k : NodeKind) : bool :=
  match k with AndNot => true | _ => false end.

Definition isRank {T} (n : Node T) : bool :=
  match n with Intermediate k _ => isRankKind k | _ => false end.

Definition isAndNot {T} (n : Node T) : bool :=
  match n with Intermediate k _ => isAndNotKind k | _ => false end.

(** [inject(query, to_inject)], query.cpp lines 46-60. The recursion follows
    the first child of a [Rank] or [AndNot] root, as the source does through
    [root.prepend(inject(root.stealFirst(), ...))]; [inject_as_written] below
    states the body with [stealFirst], [prepend] and [append]. *)
Fixpoint inject {T} (query to_inject : Node T) : option (Node T) :=
  match query with
  | Intermediate k cs =>
      if isAnd query then
        (* my_and->append(std::move(to_inject)) *)
        Some (Intermediate k (cs ++ [to_inject]))
      else if isRankKind k || isAndNotKind k then
        match cs with
        | [] => None                       (* stealFirst on no children *)
        | first :: rest =>
            match inject first to_inject with
            | Some injected => Some (Intermediate k (injected :: rest))
            | None => None
            end
        end
      else
        Some (Intermediate And [query; to_inject])
  | _ =>
      (* new_root = ProtonAnd; append(query); append(to_inject) *)
      Some (Intermediate And [query; to_inject])
  end.

(** The trees on which [inject] stays within defined behaviour: every
    [Rank] or [AndNot] met on the way down the first children has a first
    child. *)
Fixpoint injectable {T} (query : Node T) : bool :=
  match query with
  | Intermediate Rank cs | Intermediate AndNot cs =>
      match cs with
      | [] => false
      | first :: _ => injectable first
      end
  | _ => true
  end.

(** The number of term leaves of a tree; a location term is a term leaf. *)
Fixpoint termCount {T} (n : Node T) : nat :=
  match n with
  | Term _ => 1
  | ProtonLocationTerm _ _ _ _ => 1
  | Intermediate _ cs => list_sum (map termCount cs)
  end.

(** ** Strings (vespalib::string) *)

(** [s.find(c)]: the position of the first occurrence of [c], or [npos]. *)
Fixpoint find (c : ascii) (s : string) : option nat :=
  match s with
  | EmptyString => None
  | String a s' => if Ascii.eqb a c then Some 0 else option_map S (find c s')
  end.

(** [s.substr(pos, n)]. *)
Definition substr (s : string) (pos n : nat) : string := substring pos n s.

(** [s.substr(pos)]: the rest of the string from [pos] on. *)
Definition substr_from (s : string) (pos : nat) : string :=
  substring pos (String.length s - pos) s.

(** [s.empty()]. *)
Definition empty (s : string) : bool :=
  match s with EmptyString => true | _ => false end.

(** [s.c_str()] as a [%s] conversion reads it: the characters before the
    first NUL. *)
Fixpoint c_str (s : string) : string :=
  match s with
  | EmptyString => EmptyString
  | String c s' => if Ascii.eqb c zero then EmptyString else String c (c_str s')
  end.

(** ** Location descriptors *)

(** [search::fef::Location], the descriptor the ranking framework reads:
    the attribute view, the position, the x aspect and the valid flag. *)
Record Location : Type := mkLocation {
  getAttribute : string;
  getXPosition : Z;
  getYPosition : Z;
  getXAspect : Z;
  isValid : bool
}.

Definition setAttribute (v : string) (l : Location) : Location :=
  mkLocation v (getXPosition l) (getYPosition l) (getXAspect l) (isValid l).
Definition setXPosition (x : Z) (l : Location) : Location :=
  mkLocation (getAttribute l) x (getYPosition l) (getXAspect l) (isValid l).
Definition setYPosition (y : Z) (l : Location) : Location :=
  mkLocation (getAttribute l) (getXPosition l) y (getXAspect l) (isValid l).
Definition setXAspect (a : Z) (l : Location) : Location :=
  mkLocation (getAttribute l) (getXPosition l) (getYPosition l) a (isValid l).
Definition setValid (b : bool) (l : Location) : Location :=
  mkLocation (getAttribute l) (getXPosition l) (getYPosition l) (getXAspect l) b.

(** What [addLocationNode] reads from a successfully parsed
    [search::common::Location]. *)
Record LocationSpec : Type := mkLocationSpec {
  getX : Z;
  getY : Z;
  specXAspect : Z;
  getRankOnDistance : bool;
  getPruneOnDistance : bool
}.

(** ** Blueprints (search::queryeval::Blueprint) *)

Inductive BlueprintKind : Type :=
| AndBlueprint | AndNotBlueprint | RankBlueprint | OrBlueprint
| NearBlueprint | WeightedSetBlueprint.

(** A blueprint tree over leaf payloads [L]: what a leaf is bound to is not
    the business of query.cpp. *)
Inductive Blueprint (L : Type) : Type :=
| LeafBlueprint (l : L)
| IntermediateBlueprint (k : BlueprintKind) (children : list (Blueprint L)).

Arguments LeafBlueprint {L} l.
Arguments IntermediateBlueprint {L} k children.

(** A pointer into a blueprint tree: the child indices from the root. *)
Definition BlueprintPtr : Type := list nat.

(** The node a pointer points at. *)
Fixpoint deref {L} (p : BlueprintPtr) (b : Blueprint L) : option (Blueprint L) :=
  match p with
  | [] => Some b
  | i :: p' =>
      match b with
      | IntermediateBlueprint _ cs =>
          match nth_error cs i with
          | Some c => deref p' c
          | None => None
          end
      | LeafBlueprint _ => None
      end
  end.

(** [list[i] = x] on a child vector. *)
Fixpoint set_nth {A} (i : nat) (x : A) (l : list A) : list A :=
  match i, l with
  | _, [] => []
  | O, _ :: l' => x :: l'
  | S i', a :: l' => a :: set_nth i' x l'
  end.

(** In-place mutation through a pointer: the node at [p] is replaced by what
    [f] makes of it, and [f]'s other result is handed back. *)
Fixpoint mutate {L R} (p : BlueprintPtr)
         (f : Blueprint L -> option (R * Blueprint L))
         (b : Blueprint L) : option (R * Blueprint L) :=
  match p with
  | [] => f b
  | i :: p' =>
      match b with
      | IntermediateBlueprint k cs =>
          match nth_error cs i with
          | Some c =>
              match mutate p' f c with
              | Some (r, c') => Some (r, IntermediateBlueprint k (set_nth i c' cs))
              | None => None
              end
          | None => None
          end
      | LeafBlueprint _ => None
      end
  end.

Definition isRankOrAndNotKind (k : BlueprintKind) : bool :=
  match k with
  | RankBlueprint | AndNotBlueprint => true
  | _ => false
  end.

(** [asRankOrAndNot(blueprint)], lines 96-103: the two [dynamic_cast]s. The
    result is the same pointer or null, hence a boolean here. *)
Definition asRankOrAndNot {L} (blueprint : Blueprint L) : bool :=
  match blueprint with
  | IntermediateBlueprint k _ => isRankOrAndNotKind k
  | LeafBlueprint _ => false
  end.

(** [IntermediateBlueprint::getChild(n)]. *)
Definition getChild {L} (b : Blueprint L) (n : nat) : option (Blueprint L) :=
  match b with
  | IntermediateBlueprint _ cs => nth_error cs n
  | LeafBlueprint _ => None
  end.

(** The loop of [lastConsequtiveRankOrAndNot], lines 109-112, entered with
    the candidate [curr] = [asRankOrAndNot(node)], where [node] sits at
    [here] in the tree. *)
Fixpoint lastConsequtiveRankOrAndNot_loop {L}
         (prev : option BlueprintPtr) (here : BlueprintPtr) (node : Blueprint L)
  : option (option BlueprintPtr) :=
  match node with
  | IntermediateBlueprint k cs =>
      if isRankOrAndNotKind k then
        (* curr != nullptr: prev = curr; curr = asRankOrAndNot(&curr->getChild(0)) *)
        match cs with
        | [] => None
        | first :: _ =>
            lastConsequtiveRankOrAndNot_loop (Some here) (here ++ [0]) first
        end
      else Some prev
  | LeafBlueprint _ => Some prev
  end.

(** [lastConsequtiveRankOrAndNot(blueprint)], lines 105-114: a pointer to the
    last node of the chain, or null. *)
Definition lastConsequtiveRankOrAndNot {L} (blueprint : Blueprint L)
  : option (option BlueprintPtr) :=
  lastConsequtiveRankOrAndNot_loop None [] blueprint.

(** [IntermediateBlueprint::removeChild(n)]: the child is taken out and
    handed to the caller. *)
Definition removeChild {L} (n : nat) (b : Blueprint L)
  : option (Blueprint L * Blueprint L) :=
  match b with
  | IntermediateBlueprint k cs =>
      match nth_error cs n with
      | Some c => Some (c, IntermediateBlueprint k (firstn n cs ++ skipn (S n) cs))
      | None => None
      end
  | LeafBlueprint _ => None
  end.

(** [IntermediateBlueprint::insertChild(n, child)]. *)
Definition insertChild {L} (n : nat) (child : Blueprint L) (b : Blueprint L)
  : option (unit * Blueprint L) :=
  match b with
  | IntermediateBlueprint k cs =>
      if n <=? List.length cs
      then Some (tt, IntermediateBlueprint k (firstn n cs ++ child :: skipn n cs))
      else None
  | LeafBlueprint _ => None
  end.

(** [IntermediateBlueprint::addChild(child)]: the child goes last. *)
Definition addChild {L} (child : Blueprint L) (b : Blueprint L) : Blueprint L :=
  match b with
  | IntermediateBlueprint k cs => IntermediateBlueprint k (cs ++ [child])
  | LeafBlueprint l => LeafBlueprint l
  end.

(** The white-list branch of [Query::reserveHandles], lines 172-184: the
    blueprint the query holds once the white list is merged in. *)
Definition mergeWhiteList {L} (_blueprint _whiteListBlueprint : Blueprint L)
  : option (Blueprint L) :=
  let andBlueprint := IntermediateBlueprint AndBlueprint [] in
  match lastConsequtiveRankOrAndNot _blueprint with
  | None => None
  | Some (Some rankOrAndNot) =>
      match mutate rankOrAndNot (removeChild 0) _blueprint with
      | Some (removed, _blueprint1) =>
          let andBlueprint :=
            addChild _whiteListBlueprint (addChild removed andBlueprint) in
          option_map snd
            (mutate rankOrAndNot (insertChild 0 andBlueprint) _blueprint1)
      | None => None
      end
  | Some None =>
      Some (addChild _whiteListBlueprint (addChild _blueprint andBlueprint))
  end.

(** Where that branch leaves the white-list object in the tree the query
    holds afterwards: it is the second child of the new [And], which is the
    first child of the node [lastConsequtiveRankOrAndNot] found, or the root
    when it found none. *)
Definition whiteListPlace {L} (_blueprint : Blueprint L) : option BlueprintPtr :=
  match lastConsequtiveRankOrAndNot _blueprint with
  | None => None
  | Some (Some rankOrAndNot) => Some (rankOrAndNot ++ [0; 1])
  | Some None => Some [1]
  end.

(** ** The collaborators of query.cpp *)

(** What query.cpp calls and does not define: the tree creator over the
    stack dump, the visitors run over the query tree, the location parser,
    the blueprint builder and the blueprint's own virtual methods. They are
    the operations of this interface; query.cpp is embedded over any
    implementation of it. *)
Class Collaborators (T L : Type) : Type := {
  ViewResolver : Type;
  IIndexEnvironment : Type;
  IRequestContext : Type;
  ISearchContext : Type;
  MatchDataLayout : Type;
  BitVector : Type;
  GlobalFilter : Type;
  HitEstimate : Type;
  (** [QueryTreeCreator<ProtonNodeTypes>::create] over the stack dump
      iterator of [stack]; null when no tree can be made of it. *)
  QueryTreeCreator_create : string -> option (Node T);
  (** [_query_tree->accept(prefixSameElementSubIndexes)]. *)
  SameElementModifier_visit : Node T -> Node T;
  (** [PositionDataType::getZCurveFieldName]. *)
  getZCurveFieldName : string -> string;
  (** [search::common::Location::parse]: the parsed specification, or the
      text [getParseError] gives. *)
  Location_parse : string -> string + LocationSpec;
  (** [UnpackingIteratorsOptimizer::optimize(root, has_white_list,
      split_unpacking_iterators, delay_unpacking_iterators)]. *)
  UnpackingIteratorsOptimizer_optimize : Node T -> bool -> bool -> bool -> Node T;
  (** [_query_tree->accept(resolve_visitor)]. *)
  ResolveViewVisitor_visit : ViewResolver -> IIndexEnvironment -> Node T -> Node T;
  (** [_query_tree->accept(reserve_visitor)], which writes to the layout. *)
  MatchDataReserveVisitor_visit : MatchDataLayout -> Node T -> Node T * MatchDataLayout;
  (** [BlueprintBuilder::build(requestContext, *_query_tree, context)]. *)
  BlueprintBuilder_build : IRequestContext -> Node T -> ISearchContext -> Blueprint L;
  getDocIdLimit : ISearchContext -> nat;
  (** [Blueprint::setDocIdLimit]. *)
  setDocIdLimit : nat -> Blueprint L -> Blueprint L;
  (** Where [Blueprint::setDocIdLimit], called on a tree, leaves the object
      that was at a place of the tree: nowhere when it destroys it. *)
  setDocIdLimit_moves : nat -> Blueprint L -> BlueprintPtr -> option BlueprintPtr;
  (** [dynamic_cast<WhiteListProvider *>]: is the blueprint a provider. *)
  isWhiteListProvider : Blueprint L -> bool;
  (** [WhiteListProvider::get_white_list_filter]. *)
  get_white_list_filter : Blueprint L -> option BitVector;
  (** [Blueprint::optimize]. *)
  Blueprint_optimize : Blueprint L -> Blueprint L;
  (** Where [Blueprint::optimize] leaves the object that was at a place of
      the tree it is given: nowhere when it destroys it. *)
  Blueprint_optimize_moves : Blueprint L -> BlueprintPtr -> option BlueprintPtr;
  (** [getState().want_global_filter()]. *)
  want_global_filter : Blueprint L -> bool;
  (** [GlobalFilter::create]. *)
  GlobalFilter_create : option BitVector -> GlobalFilter;
  (** [Blueprint::set_global_filter]. *)
  set_global_filter : GlobalFilter -> Blueprint L -> Blueprint L;
  (** Where [Blueprint::set_global_filter], called on a tree, leaves the
      object that was at a place of the tree. *)
  set_global_filter_moves :
    GlobalFilter -> Blueprint L -> BlueprintPtr -> option BlueprintPtr;
  (** [getState().estimate()]. *)
  Blueprint_estimate : Blueprint L -> HitEstimate
}.

(** ** Effects: state, undefined behaviour and the trace of calls *)

(** What leaves query.cpp, in the order it happens. *)
Inductive Event : Type :=
| LogWarning (message : string)
| CreateQueryTree
| SameElementModify
| InjectLocationTerm
| UnpackingOptimize (has_white_list split_unpacking_iterators delay_unpacking_iterators : bool)
| ResolveViews
| ReserveMatchData
| BuildBlueprint
| SetDocIdLimit (limit : nat)
| OptimizeBlueprint
| SetGlobalFilter (from_white_list_provider : bool).

(** A computation over a state [S]: no result when the C++ code leaves
    defined behaviour, otherwise a value, the new state and the trace. *)
Definition Eff (S A : Type) : Type := S -> option (A * S * list Event).

Definition ret {S A} (a : A) : Eff S A := fun s => Some (a, s, []).

Definition bind {S A B} (m : Eff S A) (f : A -> Eff S B) : Eff S B :=
  fun s =>
    match m s with
    | Some (a, s1, tr1) =>
        match f a s1 with
        | Some (b, s2, tr2) => Some (b, s2, tr1 ++ tr2)
        | None => None
        end
    | None => None
    end.

Definition emit {S} (e : Event) : Eff S unit := fun s => Some (tt, s, [e]).

Definition gets {S A} (f : S -> A) : Eff S A := fun s => Some (f s, s, []).

Definition modify {S} (f : S -> S) : Eff S unit := fun s => Some (tt, f s, []).

(** Dereferencing a pointer that may be null. *)
Definition nonnull {S A} (o : option A) : Eff S A :=
  fun s => match o with Some a => Some (a, s, []) | None => None end.

Declare Scope eff_scope.
Delimit Scope eff_scope with eff.
Notation "x <- m ;; k" := (bind m (fun x => k))
  (at level 61, m at next level, right associativity) : eff_scope.
Notation "m ;; k" := (bind m (fun _ => k))
  (at level 61, right associativity) : eff_scope.

(** The trace of a run, the state it ends in and the value it returns. *)
Definition trace_of {S A} (r : option (A * S * list Event)) : list Event :=
  match r with Some (_, _, tr) => tr | None => [] end.

Definition state_of {S A} (r : option (A * S * list Event)) : option S :=
  match r with Some (_, s, _) => Some s | None => None end.

Definition value_of {S A} (r : option (A * S * list Event)) : option A :=
  match r with Some (a, _, _) => Some a | None => None end.

(** ** The Query object *)

(** A [WhiteListProvider *] that is not null, held as the place where the
    object it points at lives: the object [_whiteListBlueprint] owns, an
    object of the tree [_blueprint] owns, or no object any more. Moving a
    [std::unique_ptr] leaves the object where it is in memory, so the C++
    pointer keeps its value through all of this; the place is what tells
    what a read through it finds. *)
Inductive WhiteListProviderPtr : Type :=
| in_whiteListBlueprint
| in_blueprint (place : BlueprintPtr)
| destroyed.

(** The data members of [proton::matching::Query]. *)
Record Query (T L : Type) : Type := mkQuery {
  _query_tree : option (Node T);
  _blueprint : option (Blueprint L);
  _location : Location;
  _whiteListBlueprint : option (Blueprint L);
  _white_list_provider : option WhiteListProviderPtr
}.

Arguments mkQuery {T L}.

Definition set_query_tree {T L} (v : option (Node T)) (q : Query T L) :=
  mkQuery v (_blueprint q) (_location q) (_whiteListBlueprint q) (_white_list_provider q).
Definition set_blueprint {T L} (v : option (Blueprint L)) (q : Query T L) :=
  mkQuery (_query_tree q) v (_location q) (_whiteListBlueprint q) (_white_list_provider q).
Definition set_location {T L} (v : Location) (q : Query T L) :=
  mkQuery (_query_tree q) (_blueprint q) v (_whiteListBlueprint q) (_white_list_provider q).
Definition set_whiteListBlueprint {T L} (v : option (Blueprint L)) (q : Query T L) :=
  mkQuery (_query_tree q) (_blueprint q) (_location q) v (_white_list_provider q).
Definition set_white_list_provider {T L} (v : option WhiteListProviderPtr)
           (q : Query T L) :=
  mkQuery (_query_tree q) (_blueprint q) (_location q) (_whiteListBlueprint q) v.

(** The object a pointer points at, as it is in the query now. There is
    none to read when the object is destroyed. *)
Definition pointee {T L} (q : Query T L) (ptr : WhiteListProviderPtr)
  : option (Blueprint L) :=
  match ptr with
  | in_whiteListBlueprint => _whiteListBlueprint q
  | in_blueprint place =>
      match _blueprint q with
      | Some blueprint => deref place blueprint
      | None => None
      end
  | destroyed => None
  end.

(** What becomes of a pointer when the objects of the blueprint tree are
    moved about, [moves] telling where each one goes. *)
Definition moved_by (moves : BlueprintPtr -> option BlueprintPtr)
           (ptr : WhiteListProviderPtr) : WhiteListProviderPtr :=
  match ptr with
  | in_blueprint place =>
      match moves place with
      | Some place' => in_blueprint place'
      | None => destroyed
      end
  | in_whiteListBlueprint => in_whiteListBlueprint
  | destroyed => destroyed
  end.

(** The objects of the blueprint tree are moved about: the provider pointer
    follows the object it points at. *)
Definition blueprint_objects_moved {T L}
           (moves : BlueprintPtr -> option BlueprintPtr) (q : Query T L) :=
  set_white_list_provider (option_map (moved_by moves) (_white_list_provider q)) q.

(** The tree [_blueprint] owned is destroyed, with all its objects. *)
Definition blueprint_objects_destroyed {T L} (q : Query T L) :=
  blueprint_objects_moved (fun _ => None) q.

(** What [reserveHandles] makes of a pointer when it merges the white list:
    the object of the old tree it pointed at is destroyed; the white list it
    pointed at is at [place] of the merged tree, and then where the setting
    of the doc id limit leaves it. *)
Definition pointer_after_merge (place : BlueprintPtr)
           (moves : BlueprintPtr -> option BlueprintPtr)
           (ptr : WhiteListProviderPtr) : WhiteListProviderPtr :=
  match ptr with
  | in_whiteListBlueprint => moved_by moves (in_blueprint place)
  | in_blueprint _ => destroyed
  | destroyed => destroyed
  end.

(** The object [_whiteListBlueprint] owned becomes the object at [place] of
    the blueprint tree. *)
Definition white_list_moved_to {T L} (place : BlueprintPtr) (q : Query T L) :=
  set_white_list_provider
    (option_map (fun ptr => match ptr with
                            | in_whiteListBlueprint => in_blueprint place
                            | in_blueprint place' => in_blueprint place'
                            | destroyed => destroyed
                            end)
                (_white_list_provider q)) q.

(** A pointer to a location descriptor, as the vectors of
    [extractLocations] hold them: the address of the [_location] member of
    the query at hand, or the address of a descriptor that lives elsewhere. *)
Inductive LocationPtr : Type :=
| addr_location
| addr_elsewhere (address : nat).

(** Reading through such a pointer, as far as the query can tell. *)
Definition deref_location {T L} (q : Query T L) (p : LocationPtr)
  : option Location :=
  match p with
  | addr_location => Some (_location q)
  | addr_elsewhere _ => None
  end.

(** Modelled from the spec: the default constructor of
    [search::fef::Location], whose class is not part of these sources. The
    data model has the descriptor "populated at most once per query" and not
    valid before that: a fresh descriptor names no attribute, has zero
    coordinates and is not valid. *)
Definition Location_default : Location :=
  mkLocation EmptyString 0 0 0 false.

(** [Query::Query() = default]: null trees, a fresh location descriptor. *)
Definition Query_new {T L} : Query T L :=
  mkQuery None None Location_default None None.

Section QueryMethods.

Context {T L : Type} {C : Collaborators T L}.

Local Open Scope eff_scope.

(** The two warnings of [addLocationNode], lines 69 and 77, with their
    arguments filled in: [location_str.c_str()] and the text of
    [getParseError()] go through [%s]. *)
Definition warn_no_attribute (location_str : string) : Event :=
  LogWarning
    ("Location string lacks attribute vector specification. loc='"
       ++ c_str location_str ++ "'")%string.

Definition warn_parse_error (location_str error : string) : Event :=
  LogWarning
    ("Location parse error (location: '" ++ c_str location_str ++ "'): "
       ++ c_str error)%string.

(** [query_tree = inject(std::move(query_tree), ...)] on the first component
    of the state. *)
Definition inject_into_tree (to_inject : Node T) : Eff (Node T * Location) unit :=
  fun s =>
    match inject (fst s) to_inject with
    | Some t => Some (tt, (t, snd s), [InjectLocationTerm])
    | None => None
    end.

(** A setter called on [fef_location]. *)
Definition on_location (f : Location -> Location) : Eff (Node T * Location) unit :=
  modify (fun s => (fst s, f (snd s))).

(** [addLocationNode(location_str, query_tree, fef_location)], lines 62-94,
    over the two objects it takes by reference. *)
Definition addLocationNode (location_str : string) : Eff (Node T * Location) unit :=
  if empty location_str then ret tt
  else
    match find ":"%char location_str with
    | None => emit (warn_no_attribute location_str)
    | Some pos =>
        let view := getZCurveFieldName (substr location_str 0 pos) in
        let loc := substr_from location_str (pos + 1) in
        match Location_parse loc with
        | inl error => emit (warn_parse_error location_str error)
        | inr locationSpec =>
            let id := (-1)%Z in
            let weight := 100%Z in
            if getRankOnDistance locationSpec then
              inject_into_tree (ProtonLocationTerm loc view id weight) ;;
              on_location (setAttribute view) ;;
              on_location (setXPosition (getX locationSpec)) ;;
              on_location (setYPosition (getY locationSpec)) ;;
              on_location (setXAspect (specXAspect locationSpec)) ;;
              on_location (setValid true)
            else if getPruneOnDistance locationSpec then
              inject_into_tree (ProtonLocationTerm loc view id weight)
            else ret tt
        end
    end.

(** Running a computation on [_query_tree] and [_location], the two members
    [buildTree] passes by reference. *)
Definition on_tree_and_location (m : Eff (Node T * Location) unit)
  : Eff (Query T L) unit :=
  fun q =>
    match _query_tree q with
    | None => None
    | Some t =>
        match m (t, _location q) with
        | Some (_, (t', l'), tr) =>
            Some (tt, set_location l' (set_query_tree (Some t') q), tr)
        | None => None
        end
    end.

(** A visitor or rewrite applied to the tree in [_query_tree]. *)
Definition on_tree (e : Event) (f : Node T -> Node T) : Eff (Query T L) unit :=
  t <- (q <- gets (@_query_tree T L) ;; nonnull q) ;;
  emit e ;;
  modify (set_query_tree (Some (f t))).

Definition isSome {A} (o : option A) : bool :=
  match o with Some _ => true | None => false end.

(** [Query::buildTree], lines 121-141. *)
Definition buildTree (stack location : string)
           (resolver : ViewResolver) (indexEnv : IIndexEnvironment)
           (split_unpacking_iterators delay_unpacking_iterators : bool)
  : Eff (Query T L) bool :=
  emit CreateQueryTree ;;
  modify (set_query_tree (QueryTreeCreator_create stack)) ;;
  tree <- gets (@_query_tree T L) ;;
  if isSome tree then
    on_tree SameElementModify SameElementModifier_visit ;;
    on_tree_and_location (addLocationNode location) ;;
    has_white_list <- gets (fun q => isSome (_whiteListBlueprint q)) ;;
    on_tree (UnpackingOptimize has_white_list
               split_unpacking_iterators delay_unpacking_iterators)
            (fun t => UnpackingIteratorsOptimizer_optimize t has_white_list
                        split_unpacking_iterators delay_unpacking_iterators) ;;
    on_tree ResolveViews (ResolveViewVisitor_visit resolver indexEnv) ;;
    ret true
  else
    ret false.

(** [Query::extractLocations], lines 149-154, over the vector it is given. *)
Definition extractLocations (locations : list LocationPtr)
  : Eff (Query T L) (list LocationPtr) :=
  let locations := @nil LocationPtr in            (* locations.clear() *)
  let locations := locations ++ [addr_location] in (* push_back(&_location) *)
  ret locations.

(** [Query::setWhiteListBlueprint], lines 156-161. *)
Definition setWhiteListBlueprint (whiteListBlueprint : option (Blueprint L))
  : Eff (Query T L) unit :=
  modify (set_whiteListBlueprint whiteListBlueprint) ;;
  wl <- gets (@_whiteListBlueprint T L) ;;
  modify (set_white_list_provider
            (match wl with
             | Some b =>
                 if isWhiteListProvider b then Some in_whiteListBlueprint else None
             | None => None
             end)).

(** [Query::reserveHandles], lines 163-188. The layout is taken by reference
    and written to, so it is the value returned here. The assignment of line
    169 destroys the tree [_blueprint] held, [std::move(_whiteListBlueprint)]
    of lines 177 and 182 makes the white-list object a node of the new tree,
    and [setDocIdLimit] of line 185 works on that tree in place: the three
    steps on the objects say what this does to the object
    [_white_list_provider] points at. *)
Definition reserveHandles (requestContext : IRequestContext)
           (context : ISearchContext) (mdl : MatchDataLayout)
  : Eff (Query T L) MatchDataLayout :=
  tree <- (q <- gets (@_query_tree T L) ;; nonnull q) ;;
  emit ReserveMatchData ;;
  let reserved := MatchDataReserveVisitor_visit mdl tree in
  modify (set_query_tree (Some (fst reserved))) ;;
  emit BuildBlueprint ;;
  modify (set_blueprint
            (Some (BlueprintBuilder_build requestContext (fst reserved) context))) ;;
  modify (@blueprint_objects_destroyed T L) ;;
  wl <- gets (@_whiteListBlueprint T L) ;;
  match wl with
  | Some whiteList =>
      blueprint <- (b <- gets (@_blueprint T L) ;; nonnull b) ;;
      merged <- nonnull (mergeWhiteList blueprint whiteList) ;;
      place <- nonnull (whiteListPlace blueprint) ;;
      modify (set_whiteListBlueprint None) ;;
      modify (white_list_moved_to place) ;;
      emit (SetDocIdLimit (getDocIdLimit context)) ;;
      modify (set_blueprint (Some (setDocIdLimit (getDocIdLimit context) merged))) ;;
      modify (blueprint_objects_moved
                (setDocIdLimit_moves (getDocIdLimit context) merged))
  | None => ret tt
  end ;;
  ret (snd reserved).

(** [_white_list_provider ? _white_list_provider->get_white_list_filter()
    : search::BitVector::UP()], lines 196-198: the filter is asked of the
    object the pointer points at, as that object is now. *)
Definition white_list_of_provider : Eff (Query T L) (option BitVector) :=
  provider <- gets (@_white_list_provider T L) ;;
  match provider with
  | Some ptr =>
      object <- (o <- gets (fun q => pointee q ptr) ;; nonnull o) ;;
      ret (get_white_list_filter object)
  | None => ret None
  end.

(** [Query::optimize], lines 190-205. [Blueprint::optimize] is given the
    tree and hands back the tree it made of it, and [set_global_filter] works
    on the tree in place: after each of them the objects of the tree are
    where it left them. *)
Definition optimize : Eff (Query T L) unit :=
  blueprint <- (b <- gets (@_blueprint T L) ;; nonnull b) ;;
  emit OptimizeBlueprint ;;
  modify (set_blueprint (Some (Blueprint_optimize blueprint))) ;;
  modify (blueprint_objects_moved (Blueprint_optimize_moves blueprint)) ;;
  blueprint <- (b <- gets (@_blueprint T L) ;; nonnull b) ;;
  if want_global_filter blueprint then
    provider <- gets (@_white_list_provider T L) ;;
    white_list <- white_list_of_provider ;;
    let global_filter := GlobalFilter_create white_list in
    emit (SetGlobalFilter (isSome provider)) ;;
    modify (set_blueprint (Some (set_global_filter global_filter blueprint))) ;;
    modify (blueprint_objects_moved
              (set_global_filter_moves global_filter blueprint)) ;;
    blueprint <- (b <- gets (@_blueprint T L) ;; nonnull b) ;;
    emit OptimizeBlueprint ;;
    modify (set_blueprint (Some (Blueprint_optimize blueprint))) ;;
    modify (blueprint_objects_moved (Blueprint_optimize_moves blueprint))
  else ret tt.

(** [Query::estimate], lines 219-223. *)
Definition estimate (q : Query T L) : option HitEstimate :=
  option_map Blueprint_estimate (_blueprint q).

End QueryMethods.

(** ** What the statements below are about *)

(** The length of the chain of consecutive [Rank]/[AndNot] blueprints that
    starts at a node and runs down the first children; there is none when
    the chain ends in a [Rank]/[AndNot] without children. *)
Fixpoint chain_length {L} (node : Blueprint L) : option nat :=
  match node with
  | IntermediateBlueprint k cs =>
      if isRankOrAndNotKind k then
        match cs with
        | [] => None
        | first :: _ => option_map S (chain_length first)
        end
      else Some 0
  | LeafBlueprint _ => Some 0
  end.


(** How often [Blueprint::optimize] ran in a trace. *)
Fixpoint optimize_runs (tr : list Event) : nat :=
  match tr with
  | [] => 0
  | OptimizeBlueprint :: tr' => S (optimize_runs tr')
  | _ :: tr' => optimize_runs tr'
  end.

Section Statements.

Context {T L : Type} {C : Collaborators T L}.

(** The location strings the injector turns down: the empty one, one
    without a [':'], and one whose specification does not parse. *)
Inductive rejected (location_str : string) : list Event -> Prop :=
| rejected_empty :
    location_str = EmptyString ->
    rejected location_str []
| rejected_no_separator :
    location_str <> EmptyString ->
    ~ In ":"%char (list_ascii_of_string location_str) ->
    rejected location_str [warn_no_attribute location_str]
| rejected_parse_error pos error :
    find ":"%char location_str = Some pos ->
    Location_parse (substr_from location_str (pos + 1)) = inl error ->
    rejected location_str [warn_parse_error location_str error].

(** What the injector makes of a location string: the parsed
    specification, when there is one. *)
Definition location_request (location : string) : option LocationSpec :=
  if empty location then None
  else
    match find ":"%char location with
    | None => None
    | Some pos =>
        match Location_parse (substr_from location (pos + 1)) with
        | inr locationSpec => Some locationSpec
        | inl _ => None
        end
    end.

(** The location string asks for ranking on distance. *)
Definition ranks_on_distance (location : string) : bool :=
  match location_request location with
  | Some locationSpec => getRankOnDistance locationSpec
  | None => false
  end.

(** The location string makes the injector add a location term: it asks for
    ranking on distance or for pruning on distance. *)
Definition injects_location_term (location : string) : bool :=
  match location_request location with
  | Some locationSpec =>
      getRankOnDistance locationSpec || getPruneOnDistance locationSpec
  | None => false
  end.

(** The passes [buildTree] calls outside query.cpp keep the number of term
    leaves. *)
Definition passes_keep_terms : Prop :=
  (forall t, termCount (SameElementModifier_visit t) = termCount t) /\
  (forall t has_white_list split delay,
     termCount (UnpackingIteratorsOptimizer_optimize t has_white_list split delay)
     = termCount t) /\
  (forall resolver indexEnv t,
     termCount (ResolveViewVisitor_visit resolver indexEnv t) = termCount t).

(** The term-count postcondition of [buildTree] at one input, with
    [one_more] telling for which location strings one term more than the
    expression's is expected. *)
Definition term_count_postcondition (one_more : string -> bool)
           (stack location : string)
           (resolver : ViewResolver) (indexEnv : IIndexEnvironment)
           (split delay : bool) (q : Query T L) : Prop :=
  forall tree,
    QueryTreeCreator_create stack = Some tree ->
    injectable (SameElementModifier_visit tree) = true ->
    exists q' tr built,
      buildTree stack location resolver indexEnv split delay q =
      Some (true, q', tr) /\
      _query_tree q' = Some built /\
      termCount built = termCount tree + (if one_more location then 1 else 0).

Local Open Scope eff_scope.

(** The caller supplies the white list, then builds the tree. *)
Definition supplied_before (whiteList : Blueprint L) (stack location : string)
           (resolver : ViewResolver) (indexEnv : IIndexEnvironment)
           (split delay : bool) : Eff (Query T L) bool :=
  setWhiteListBlueprint (Some whiteList) ;;
  buildTree stack location resolver indexEnv split delay.

(** The caller builds the tree, then supplies the white list. *)
Definition supplied_after (whiteList : Blueprint L) (stack location : string)
           (resolver : ViewResolver) (indexEnv : IIndexEnvironment)
           (split delay : bool) : Eff (Query T L) bool :=
  result <- buildTree stack location resolver indexEnv split delay ;;
  setWhiteListBlueprint (Some whiteList) ;;
  ret result.

(** The query tree, with its annotations, a run leaves in the query. *)
Definition tree_after {A} (m : Eff (Query T L) A) (q : Query T L)
  : option (option (Node T)) :=
  option_map (@_query_tree T L) (state_of (m q)).

(** The unpacking annotation does not depend on when the white list is
    supplied, at one input. *)
Definition unpacking_independent_of_supply_time
           (whiteList : Blueprint L) (stack location : string)
           (resolver : ViewResolver) (indexEnv : IIndexEnvironment)
           (split delay : bool) (q : Query T L) : Prop :=
  tree_after (supplied_before whiteList stack location resolver indexEnv split delay) q
  = tree_after (supplied_after whiteList stack location resolver indexEnv split delay) q.

End Statements.

(** ** The blueprint optimizer, from the spec *)

(** Modelled from the spec: the state of a leaf blueprint. The sources hold
    no blueprint class; the data model gives every blueprint node a
    hit-count estimate and a "wants global filter" flag, the leaf's estimate
    coming from what the leaf is bound to. *)
Record LeafState : Type := mkLeafState {
  est_hits : nat;
  wants_global_filter : bool
}.

Definition min_list (l : list nat) : nat :=
  match l with
  | [] => 0
  | e :: l' => fold_left Nat.min l' e
  end.

(** Modelled from the spec: the hit-count estimate of a blueprint, which
    [Blueprint::getState] is not here to give. "And: min of children; Or:
    union bound; AndNot: first child's estimate; Rank: first child's estimate
    only". The spec has no rule for the other two operators: Near is taken
    as a conjunction and WeightedSet as a disjunction; an operator without
    children has estimate 0. *)
Fixpoint spec_estimate (b : Blueprint LeafState) : nat :=
  match b with
  | LeafBlueprint l => est_hits l
  | IntermediateBlueprint k cs =>
      let estimates := map spec_estimate cs in
      match k with
      | AndBlueprint | NearBlueprint => min_list estimates
      | OrBlueprint | WeightedSetBlueprint => list_sum estimates
      | AndNotBlueprint | RankBlueprint => hd 0 estimates
      end
  end.

(** Modelled from the spec: whether a tree wants a global filter: "if any
    blueprint node reports that it requires knowledge of the full
    eligible-document set". *)
Fixpoint spec_want_global_filter (b : Blueprint LeafState) : bool :=
  match b with
  | LeafBlueprint l => wants_global_filter l
  | IntermediateBlueprint _ cs => existsb spec_want_global_filter cs
  end.

(** Stable insertion sort by a boolean order. *)
Fixpoint insert_by {A} (le : A -> A -> bool) (x : A) (l : list A) : list A :=
  match l with
  | [] => [x]
  | y :: l' => if le x y then x :: l else y :: insert_by le x l'
  end.

Fixpoint sort_by {A} (le : A -> A -> bool) (l : list A) : list A :=
  match l with
  | [] => []
  | x :: l' => insert_by le x (sort_by le l')
  end.

Definition cheaper_first (a b : Blueprint LeafState) : bool :=
  spec_estimate a <=? spec_estimate b.

Definition larger_first (a b : Blueprint LeafState) : bool :=
  spec_estimate b <=? spec_estimate a.

(** Modelled from the spec: [Blueprint::optimize], which is not part of
    these sources: "a cost-based, possibly order-changing rewrite of the
    blueprint tree (e.g., operand reordering to put cheaper/more selective
    children first for And, lazy evaluation ordering for Or) ... given
    current hit estimates". The children are optimized first; the children
    of an And are then put in the order of their estimates, cheapest first,
    those of an Or with the largest estimate first, so that the children
    that add least are reached last; children with equal estimates keep
    their order, and the other operators keep the order of their
    children. *)
Fixpoint spec_optimize (b : Blueprint LeafState) : Blueprint LeafState :=
  match b with
  | LeafBlueprint l => LeafBlueprint l
  | IntermediateBlueprint k cs =>
      let optimized := map spec_optimize cs in
      match k with
      | AndBlueprint => IntermediateBlueprint k (sort_by cheaper_first optimized)
      | OrBlueprint => IntermediateBlueprint k (sort_by larger_first optimized)
      | _ => IntermediateBlueprint k optimized
      end
  end.

(** The elements of a list with their positions. *)
Definition numbered {A} (l : list A) : list (nat * A) :=
  combine (seq 0 (List.length l)) l.

(** An order on elements, on numbered elements. *)
Definition by_element {A} (le : A -> A -> bool) (a b : nat * A) : bool :=
  le (snd a) (snd b).

(** The position of the first [i] in a list of numbers. *)
Fixpoint position_of (i : nat) (l : list nat) : option nat :=
  match l with
  | [] => None
  | j :: l' => if j =? i then Some 0 else option_map S (position_of i l')
  end.

(** The position [sort_by le] gives the element that was at position [i]. *)
Definition sorted_position {A} (le : A -> A -> bool) (l : list A) (i : nat)
  : option nat :=
  position_of i (map fst (sort_by (by_element le) (numbered l))).

(** Modelled from the spec: the position [spec_optimize] gives the child
    that was at [i] of a node of kind [k], among the optimized children: the
    one the sort gives it under an And or an Or, its own under the other
    operators. *)
Definition spec_child_position (k : BlueprintKind)
           (optimized : list (Blueprint LeafState)) (i : nat) : option nat :=
  match k with
  | AndBlueprint => sorted_position cheaper_first optimized i
  | OrBlueprint => sorted_position larger_first optimized i
  | _ => Some i
  end.

(** Modelled from the spec: where [spec_optimize] leaves the node that was
    at a place of the tree. It destroys no node: a node follows its parent
    and takes the position its parent gives it. A place where the tree has
    no node leads nowhere. *)
Fixpoint spec_optimize_moves_from (place : BlueprintPtr) (b : Blueprint LeafState)
  : option BlueprintPtr :=
  match place with
  | [] => Some []
  | i :: place' =>
      match b with
      | LeafBlueprint _ => None
      | IntermediateBlueprint k cs =>
          match nth_error cs i with
          | None => None
          | Some c =>
              match spec_child_position k (map spec_optimize cs) i,
                    spec_optimize_moves_from place' c with
              | Some j, Some place'' => Some (j :: place'')
              | _, _ => None
              end
          end
      end
  end.

(** The same, with the arguments in the order of the collaborators. *)
Definition spec_optimize_moves (b : Blueprint LeafState) (place : BlueprintPtr)
  : option BlueprintPtr :=
  spec_optimize_moves_from place b.

(** The collaborators [C] with the blueprint operations of the spec in the
    place of its own. *)
Definition with_spec_blueprints {T} (C : Collaborators T LeafState)
  : Collaborators T LeafState := {|
  ViewResolver := @ViewResolver _ _ C;
  IIndexEnvironment := @IIndexEnvironment _ _ C;
  IRequestContext := @IRequestContext _ _ C;
  ISearchContext := @ISearchContext _ _ C;
  MatchDataLayout := @MatchDataLayout _ _ C;
  BitVector := @BitVector _ _ C;
  GlobalFilter := @GlobalFilter _ _ C;
  HitEstimate := nat;
  QueryTreeCreator_create := @QueryTreeCreator_create _ _ C;
  SameElementModifier_visit := @SameElementModifier_visit _ _ C;
  getZCurveFieldName := @getZCurveFieldName _ _ C;
  Location_parse := @Location_parse _ _ C;
  UnpackingIteratorsOptimizer_optimize := @UnpackingIteratorsOptimizer_optimize _ _ C;
  ResolveViewVisitor_visit := @ResolveViewVisitor_visit _ _ C;
  MatchDataReserveVisitor_visit := @MatchDataReserveVisitor_visit _ _ C;
  BlueprintBuilder_build := @BlueprintBuilder_build _ _ C;
  getDocIdLimit := @getDocIdLimit _ _ C;
  setDocIdLimit := @setDocIdLimit _ _ C;
  setDocIdLimit_moves := @setDocIdLimit_moves _ _ C;
  isWhiteListProvider := @isWhiteListProvider _ _ C;
  get_white_list_filter := @get_white_list_filter _ _ C;
  Blueprint_optimize := spec_optimize;
  Blueprint_optimize_moves := spec_optimize_moves;
  want_global_filter := spec_want_global_filter;
  GlobalFilter_create := @GlobalFilter_create _ _ C;
  set_global_filter := @set_global_filter _ _ C;
  set_global_filter_moves := @set_global_filter_moves _ _ C;
  Blueprint_estimate := spec_estimate
|}.

(** Two elements are in the order of [le]. *)
Definition ordered {A} (le : A -> A -> bool) (a b : A) : Prop := le a b = true.

(** ** A small implementation of the collaborators

    Concrete collaborators on which the embedding can be run: terms carry
    their unpacking annotation, blueprint leaves the state the spec gives
    them. *)

(** The posting-unpacking strategies a term can be annotated with. *)
Inductive UnpackMode : Type := Eager | Lazy | Split.

(** A location specification in the illustrative syntax
    [<dimensions>,<x>,<y>,<mode>] of decimal fields: mode 0 ranks on
    distance, mode 1 only prunes on distance, mode 2 does neither. *)
Definition digit (c : ascii) : option nat :=
  let n := nat_of_ascii c in
  if (48 <=? n) && (n <=? 57) then Some (n - 48) else None.

Fixpoint parse_fields (s : string) (cur : option nat) (acc : list nat)
  : option (list nat) :=
  match s with
  | EmptyString =>
      match cur with
      | Some n => Some (rev (n :: acc))
      | None => None
      end
  | String c s' =>
      if Ascii.eqb c ","%char then
        match cur with
        | Some n => parse_fields s' None (n :: acc)
        | None => None
        end
      else
        match digit c with
        | Some d =>
            parse_fields s'
              (Some (10 * match cur with Some n => n | None => 0 end + d)) acc
        | None => None
        end
  end.

Definition demo_parse (loc : string) : string + LocationSpec :=
  match parse_fields loc None [] with
  | Some [_; x; y; mode] =>
      match mode with
      | 0 => inr (mkLocationSpec (Z.of_nat x) (Z.of_nat y) 0 true true)
      | 1 => inr (mkLocationSpec (Z.of_nat x) (Z.of_nat y) 0 false true)
      | 2 => inr (mkLocationSpec (Z.of_nat x) (Z.of_nat y) 0 false false)
      | _ => inl "unknown mode"%string
      end
  | _ => inl "expected four decimal fields"%string
  end.

(** A tree creator over one-letter stacks: a term, a rank over two terms, a
    rank without children; nothing can be made of any other stack. *)
Definition demo_create (stack : string) : option (Node UnpackMode) :=
  if String.eqb stack "T" then Some (Term Eager)
  else if String.eqb stack "R" then
    Some (Intermediate Rank [Term Eager; Term Eager])
  else if String.eqb stack "E" then Some (Intermediate Rank [])
  else None.

(** Modelled from the spec: the unpacking-mode optimizer, which is not part
    of these sources, "annotates term nodes with a posting-unpacking strategy
    (eager / lazy / split) based on configuration and whether a visibility
    filter is present". The policy below is one that does so: eager when
    neither flag is set, otherwise split under a visibility filter and lazy
    without one. *)
Definition unpack_mode (has_white_list split delay : bool) : UnpackMode :=
  if split || delay then (if has_white_list then Split else Lazy) else Eager.

Fixpoint annotate (m : UnpackMode) (n : Node UnpackMode) : Node UnpackMode :=
  match n with
  | Term _ => Term m
  | ProtonLocationTerm loc view id weight => ProtonLocationTerm loc view id weight
  | Intermediate k cs => Intermediate k (map (annotate m) cs)
  end.

Definition demo_unpacking_optimize (root : Node UnpackMode)
           (has_white_list split delay : bool) : Node UnpackMode :=
  annotate (unpack_mode has_white_list split delay) root.

Definition demo : Collaborators UnpackMode LeafState := {|
  ViewResolver := unit;
  IIndexEnvironment := unit;
  IRequestContext := unit;
  ISearchContext := nat;
  MatchDataLayout := nat;
  BitVector := list bool;
  GlobalFilter := list bool;
  HitEstimate := nat;
  QueryTreeCreator_create := demo_create;
  SameElementModifier_visit := fun t => t;
  getZCurveFieldName := fun name => (name ++ "_zcurve")%string;
  Location_parse := demo_parse;
  UnpackingIteratorsOptimizer_optimize := demo_unpacking_optimize;
  ResolveViewVisitor_visit := fun _ _ t => t;
  MatchDataReserveVisitor_visit := fun mdl t => (t, mdl + termCount t);
  BlueprintBuilder_build :=
    fun _ t _ => LeafBlueprint (mkLeafState (termCount t) false);
  getDocIdLimit := fun limit => limit;
  setDocIdLimit := fun _ b => b;
  setDocIdLimit_moves := fun _ _ place => Some place;
  isWhiteListProvider := fun _ => true;
  get_white_list_filter := fun _ => Some [true];
  Blueprint_optimize := fun b => b;
  Blueprint_optimize_moves := fun _ place => Some place;
  want_global_filter := fun _ => false;
  GlobalFilter_create := fun w => match w with Some v => v | None => [] end;
  set_global_filter := fun _ b => b;
  set_global_filter_moves := fun _ _ place => Some place;
  Blueprint_estimate := fun _ => 0
|}.

(** A query whose blueprint has a leaf that wants a global filter, and whose
    white list, a provider, was merged in as the second child of the root. *)
Definition filter_wanting_query : Query UnpackMode LeafState :=
  mkQuery None
          (Some (IntermediateBlueprint AndBlueprint
                   [LeafBlueprint (mkLeafState 5 true);
                    LeafBlueprint (mkLeafState 3 false)]))
          Location_default None
          (Some (in_blueprint [1])).

(** A query whose blueprint is an Or over an And, no leaf wanting a filter. *)
Definition plain_query : Query UnpackMode LeafState :=
  mkQuery None
          (Some (IntermediateBlueprint OrBlueprint
                   [LeafBlueprint (mkLeafState 2 false);
                    IntermediateBlueprint AndBlueprint
                      [LeafBlueprint (mkLeafState 7 false);
                       LeafBlueprint (mkLeafState 4 false)];
                    LeafBlueprint (mkLeafState 9 false)]))
          Location_default None None.

(** ** More of query.cpp: what the statements further down are about *)

(** The node on the matching side of a query tree: the one [inject] stops
    at, reached from the root down the first children of the [Rank] and
    [AndNot] nodes. *)
Fixpoint matching_side {T} (n : Node T) : option (Node T) :=
  match n with
  | Intermediate k cs =>
      if isRankKind k || isAndNotKind k then
        match cs with
        | [] => None
        | first :: _ => matching_side first
        end
      else Some n
  | _ => Some n
  end.

(** The leaves of a blueprint tree, left to right. *)
Fixpoint leaves {L} (b : Blueprint L) : list L :=
  match b with
  | LeafBlueprint l => [l]
  | IntermediateBlueprint _ cs => flat_map leaves cs
  end.

Section Callers.

Context {T L : Type} {C : Collaborators T L}.

Local Open Scope eff_scope.

(** A call of one of the public methods of [Query] embedded above. *)
Inductive Call : Type :=
| call_buildTree (stack location : string)
                 (resolver : ViewResolver) (indexEnv : IIndexEnvironment)
                 (split_unpacking_iterators delay_unpacking_iterators : bool)
| call_extractLocations (locations : list LocationPtr)
| call_setWhiteListBlueprint (whiteListBlueprint : option (Blueprint L))
| call_reserveHandles (requestContext : IRequestContext)
                      (context : ISearchContext) (mdl : MatchDataLayout)
| call_optimize.

Definition run_call (c : Call) : Eff (Query T L) unit :=
  match c with
  | call_buildTree stack location resolver indexEnv split delay =>
      buildTree stack location resolver indexEnv split delay ;; ret tt
  | call_extractLocations locations =>
      extractLocations locations ;; ret tt
  | call_setWhiteListBlueprint whiteListBlueprint =>
      setWhiteListBlueprint whiteListBlueprint
  | call_reserveHandles requestContext context mdl =>
      reserveHandles requestContext context mdl ;; ret tt
  | call_optimize => optimize
  end.

(** A caller's sequence of calls on one query, in order. *)
Fixpoint run_calls (cs : list Call) : Eff (Query T L) unit :=
  match cs with
  | [] => ret tt
  | c :: cs' => run_call c ;; run_calls cs'
  end.

(** The planning of one request, in the order of the pipeline: the white
    list is supplied, the tree is built, and when that succeeded the handles
    are reserved and the blueprint is optimized. The result tells whether a
    plan was made. *)
Definition plan (whiteList : Blueprint L) (stack location : string)
           (resolver : ViewResolver) (indexEnv : IIndexEnvironment)
           (split delay : bool)
           (requestContext : IRequestContext) (context : ISearchContext)
           (mdl : MatchDataLayout) : Eff (Query T L) bool :=
  setWhiteListBlueprint (Some whiteList) ;;
  built <- buildTree stack location resolver indexEnv split delay ;;
  if built then
    reserveHandles requestContext context mdl ;;
    optimize ;;
    ret true
  else ret false.

(** The white-list members of a query agree: while the query holds a white
    list, the provider pointer points at that blueprint when it is a provider
    and is null when it is not; and while the query holds none, the provider
    pointer does not point at what [_whiteListBlueprint] owns. *)
Definition white_list_members_agree (q : Query T L) : Prop :=
  (forall w, _whiteListBlueprint q = Some w ->
             _white_list_provider q =
             if isWhiteListProvider w then Some in_whiteListBlueprint else None) /\
  (_whiteListBlueprint q = None ->
   _white_list_provider q <> Some in_whiteListBlueprint).

End Callers.

(** In a trace, every [b] comes after some [a]. *)
Definition precedes (a b : Event) (tr : list Event) : Prop :=
  forall pre post, tr = pre ++ b :: post -> In a pre.

(** The collaborators [C] with a blueprint builder that makes one leaf, with
    as many hits as the tree has terms, which wants a global filter. *)
Definition with_filter_wanting_leaf {T} (C : Collaborators T LeafState)
  : Collaborators T LeafState := {|
  ViewResolver := @ViewResolver _ _ C;
  IIndexEnvironment := @IIndexEnvironment _ _ C;
  IRequestContext := @IRequestContext _ _ C;
  ISearchContext := @ISearchContext _ _ C;
  MatchDataLayout := @MatchDataLayout _ _ C;
  BitVector := @BitVector _ _ C;
  GlobalFilter := @GlobalFilter _ _ C;
  HitEstimate := @HitEstimate _ _ C;
  QueryTreeCreator_create := @QueryTreeCreator_create _ _ C;
  SameElementModifier_visit := @SameElementModifier_visit _ _ C;
  getZCurveFieldName := @getZCurveFieldName _ _ C;
  Location_parse := @Location_parse _ _ C;
  UnpackingIteratorsOptimizer_optimize := @UnpackingIteratorsOptimizer_optimize _ _ C;
  ResolveViewVisitor_visit := @ResolveViewVisitor_visit _ _ C;
  MatchDataReserveVisitor_visit := @MatchDataReserveVisitor_visit _ _ C;
  BlueprintBuilder_build :=
    fun _ t _ => LeafBlueprint (mkLeafState (termCount t) true);
  getDocIdLimit := @getDocIdLimit _ _ C;
  setDocIdLimit := @setDocIdLimit _ _ C;
  setDocIdLimit_moves := @setDocIdLimit_moves _ _ C;
  isWhiteListProvider := @isWhiteListProvider _ _ C;
  get_white_list_filter := @get_white_list_filter _ _ C;
  Blueprint_optimize := @Blueprint_optimize _ _ C;
  Blueprint_optimize_moves := @Blueprint_optimize_moves _ _ C;
  want_global_filter := @want_global_filter _ _ C;
  GlobalFilter_create := @GlobalFilter_create _ _ C;
  set_global_filter := @set_global_filter _ _ C;
  set_global_filter_moves := @set_global_filter_moves _ _ C;
  Blueprint_estimate := @Blueprint_estimate _ _ C
|}.

(** The small implementation with the blueprint operations of the spec and
    leaves that want a global filter. *)
Definition demo_filtering : Collaborators UnpackMode LeafState :=
  with_filter_wanting_leaf (with_spec_blueprints demo).

(** The calls of one request on it, up to the reserving of the handles,
    with a white list cheaper than the term. *)
Definition demo_filtering_calls : list (Call (C := demo_filtering)) :=
  [call_setWhiteListBlueprint (C := demo_filtering)
     (Some (LeafBlueprint (mkLeafState 0 false)));
   call_buildTree (C := demo_filtering) "T" "" tt tt false false;
   call_reserveHandles (C := demo_filtering) tt 100 0].

(** The calls of one request on the small implementation: the white list
    is supplied, the tree is built, the locations are read, the handles are
    reserved and the blueprint is optimized. *)
Definition demo_calls : list (Call (C := demo)) :=
  [call_setWhiteListBlueprint (C := demo)
     (Some (LeafBlueprint (mkLeafState 8 false)));
   call_buildTree (C := demo) "R" "view1:2,100,10,0" tt tt true false;
   call_extractLocations (C := demo) [];
   call_reserveHandles (C := demo) tt 100 0;
   call_optimize (C := demo)].

(** * The store-only document sub database (storeonlydocsubdb.cpp)

    The part of [proton::StoreOnlyDocSubDB] that keeps the flushed serial
    numbers and the flush targets. The objects the sub database shares with
    others through [std::shared_ptr] (the document meta store, the summary
    manager, the flush targets) live in a [World] and are held by address, so
    that what a getter reads is what the object says when the getter is
    called. A null pointer is [None], and dereferencing one is the result
    [None] of the call. *)

(** [search::SerialNum], a 64-bit counter that is only copied and compared. *)
Definition SerialNum : Type := N.

(** What the sub database reads from a [DocumentMetaStore]. *)
Record DocumentMetaStoreState : Type := mkDocumentMetaStoreState {
  isLoaded : bool;
  getLastSyncToken : SerialNum;      (* getStatus().getLastSyncToken() *)
  getNumUsedLids : N
}.

(** The flush targets: those a summary manager hands out, the one the sub
    database makes for its meta store, and the wrapper of [getFlushTargets]
    around a target that may be null. *)
Inductive FlushTarget : Type :=
| SummaryFlushTarget (id : nat)
| DocumentMetaStoreFlushTarget (dms : nat) (baseDir : string)
| ThreadedFlushTarget (target : option FlushTarget) (subName : string).

(** What the sub database reads from a [SummaryManager]. *)
Record SummaryManagerState : Type := mkSummaryManagerState {
  lastSyncToken : SerialNum;         (* getBackingStore().lastSyncToken() *)
  summaryFlushTargets : list (option FlushTarget)
}.

(** The shared objects, by address, as they are at one moment. *)
Record World : Type := mkWorld {
  documentMetaStore : nat -> DocumentMetaStoreState;
  summaryManager : nat -> SummaryManagerState;
  getFlushedSerialNum : FlushTarget -> SerialNum
}.

(** [LidReuseDelayer] and [CommitTimeTracker], as far as the sub database
    sets them. *)
Record LidReuseDelayer : Type := mkLidReuseDelayer {
  delayer_dms : nat;
  immediateCommit : option bool        (* unset until setImmediateCommit *)
}.

Record CommitTimeTracker : Type := mkCommitTimeTracker {
  visibilityDelay : Z;
  replayDone : option bool             (* unset until setReplayDone *)
}.

(** The results of the initializer tasks that [setup] is given: pointers to
    the meta store and the summary manager, and the visibility delay of the
    lid reuse delayer configuration. *)
Record DocumentSubDbInitializerResult : Type := mkInitializerResult {
  result_documentMetaStore : option nat;
  result_summaryManager : option nat;
  result_visibilityDelay : Z
}.

(** The data members of [StoreOnlyDocSubDB] that the methods below read or
    write. [_bucketDBHandlerInitializer] is a reference to an object of the
    owner; the calls of its [addDocumentMetaStore] are kept in order. *)
Record StoreOnlyDocSubDB : Type := mkStoreOnlyDocSubDB {
  _subName : string;
  _baseDir : string;
  _bucketDBHandlerInitializer : list (nat * SerialNum);
  _metaStoreCtx : option nat;
  _flushedDocumentMetaStoreSerialNum : SerialNum;
  _flushedDocumentStoreSerialNum : SerialNum;
  _dms : option nat;
  _iSummaryMgr : option nat;
  _rSummaryMgr : option nat;
  _summaryAdapter : option nat;
  _dmsFlushTarget : option FlushTarget;
  _lidReuseDelayer : option LidReuseDelayer;
  _commitTimeTracker : CommitTimeTracker
}.

(** [fastos::TimeStamp] counts nanoseconds; [TimeStamp::Seconds]. *)
Definition TimeStamp_Seconds (s : Z) : Z := (s * 1000000000)%Z.

(** The constructor, lines 291-324: the serial numbers start at 0, the
    pointers null, the commit time tracker with a delay of 3600 seconds. *)
Definition StoreOnlyDocSubDB_new (subName baseDir : string) : StoreOnlyDocSubDB :=
  mkStoreOnlyDocSubDB subName baseDir [] None 0%N 0%N None None None None None
                      None (mkCommitTimeTracker (TimeStamp_Seconds 3600) None).

(** [getNumDocs], lines 336-344. *)
Definition getNumDocs (w : World) (s : StoreOnlyDocSubDB) : N :=
  match _metaStoreCtx s with
  | Some dms => getNumUsedLids (documentMetaStore w dms)
  | None => 0%N
  end.

(** [getNumActiveDocs], lines 346-350. *)
Definition getNumActiveDocs (s : StoreOnlyDocSubDB) : N := 0%N.

(** [getOldestFlushedSerial], lines 375-381. *)
Definition getOldestFlushedSerial (w : World) (s : StoreOnlyDocSubDB)
  : option SerialNum :=
  match _iSummaryMgr s, _dmsFlushTarget s with
  | Some summary, Some target =>
      let lowest := lastSyncToken (summaryManager w summary) in
      Some (N.min lowest (getFlushedSerialNum w target))
  | _, _ => None
  end.

(** [getNewestFlushedSerial], lines 384-390. *)
Definition getNewestFlushedSerial (w : World) (s : StoreOnlyDocSubDB)
  : option SerialNum :=
  match _iSummaryMgr s, _dmsFlushTarget s with
  | Some summary, Some target =>
      let highest := lastSyncToken (summaryManager w summary) in
      Some (N.max highest (getFlushedSerialNum w target))
  | _, _ => None
  end.

(** [setupSummaryManager], lines 409-417. *)
Definition setupSummaryManager (w : World) (summaryManager_ : option nat)
           (s : StoreOnlyDocSubDB) : option StoreOnlyDocSubDB :=
  let _rSummaryMgr' := summaryManager_ in
  let _iSummaryMgr' := _rSummaryMgr' in
  match _iSummaryMgr' with
  | Some summary =>
      Some (mkStoreOnlyDocSubDB
              (_subName s) (_baseDir s) (_bucketDBHandlerInitializer s)
              (_metaStoreCtx s) (_flushedDocumentMetaStoreSerialNum s)
              (lastSyncToken (summaryManager w summary))
              (_dms s) _iSummaryMgr' _rSummaryMgr' _rSummaryMgr'
              (_dmsFlushTarget s) (_lidReuseDelayer s) (_commitTimeTracker s))
  | None => None
  end.

(** [setupDocumentMetaStore], lines 449-471. Of the arguments of the new
    [DocumentMetaStoreFlushTarget] the meta store and the directory are
    kept. *)
Definition setupDocumentMetaStore (w : World) (dmsResult : option nat)
           (s : StoreOnlyDocSubDB) : option StoreOnlyDocSubDB :=
  let baseDir := (_baseDir s ++ "/documentmetastore")%string in
  match dmsResult with
  | Some dms =>
      let flushed :=
        if isLoaded (documentMetaStore w dms)
        then getLastSyncToken (documentMetaStore w dms)
        else _flushedDocumentMetaStoreSerialNum s in
      Some (mkStoreOnlyDocSubDB
              (_subName s) (_baseDir s)
              (_bucketDBHandlerInitializer s ++ [(dms, flushed)])
              (Some dms) flushed (_flushedDocumentStoreSerialNum s)
              (Some dms) (_iSummaryMgr s) (_rSummaryMgr s) (_summaryAdapter s)
              (Some (DocumentMetaStoreFlushTarget dms baseDir))
              (_lidReuseDelayer s) (_commitTimeTracker s))
  | None => None
  end.

(** [updateLidReuseDelayer(const LidReuseDelayerConfig &)], lines 601-612,
    on the visibility delay of the configuration. *)
Definition updateLidReuseDelayer (config_visibilityDelay : Z)
           (s : StoreOnlyDocSubDB) : option StoreOnlyDocSubDB :=
  let immediate := (config_visibilityDelay =? 0)%Z in
  match _lidReuseDelayer s with
  | Some delayer =>
      Some (mkStoreOnlyDocSubDB
              (_subName s) (_baseDir s) (_bucketDBHandlerInitializer s)
              (_metaStoreCtx s) (_flushedDocumentMetaStoreSerialNum s)
              (_flushedDocumentStoreSerialNum s)
              (_dms s) (_iSummaryMgr s) (_rSummaryMgr s) (_summaryAdapter s)
              (_dmsFlushTarget s)
              (Some (mkLidReuseDelayer (delayer_dms delayer) (Some immediate)))
              (mkCommitTimeTracker config_visibilityDelay
                                   (replayDone (_commitTimeTracker s))))
  | None => None
  end.

(** [setup], lines 509-516. *)
Definition setup (w : World) (initResult : DocumentSubDbInitializerResult)
           (s : StoreOnlyDocSubDB) : option StoreOnlyDocSubDB :=
  match setupDocumentMetaStore w (result_documentMetaStore initResult) s with
  | Some s1 =>
      match setupSummaryManager w (result_summaryManager initResult) s1 with
      | Some s2 =>
          match _dms s2 with
          | Some dms =>
              let s3 :=
                mkStoreOnlyDocSubDB
                  (_subName s2) (_baseDir s2) (_bucketDBHandlerInitializer s2)
                  (_metaStoreCtx s2) (_flushedDocumentMetaStoreSerialNum s2)
                  (_flushedDocumentStoreSerialNum s2)
                  (_dms s2) (_iSummaryMgr s2) (_rSummaryMgr s2)
                  (_summaryAdapter s2) (_dmsFlushTarget s2)
                  (Some (mkLidReuseDelayer dms None))
                  (_commitTimeTracker s2) in
              updateLidReuseDelayer (result_visibilityDelay initResult) s3
          | None => None
          end
      | None => None
      end
  | None => None
  end.

(** [getFlushTargetsInternal], lines 531-537. *)
Definition getFlushTargetsInternal (w : World) (s : StoreOnlyDocSubDB)
  : option (list (option FlushTarget)) :=
  match _rSummaryMgr s with
  | Some summary =>
      let ret := summaryFlushTargets (summaryManager w summary) in
      Some (ret ++ [_dmsFlushTarget s])
  | None => None
  end.

(** [getFlushTargets], lines 518-529: the loop appends one wrapper per
    internal target. *)
Definition getFlushTargets (w : World) (s : StoreOnlyDocSubDB)
  : option (list (option FlushTarget)) :=
  match getFlushTargetsInternal w s with
  | Some targets =>
      Some (fold_left
              (fun ret target =>
                 ret ++ [Some (ThreadedFlushTarget target (_subName s))])
              targets [])
  | None => None
  end.

(** [getFeedViewPersistentParams], lines 550-561: the two flushed serial
    numbers the feed view is given. *)
Definition getFeedViewPersistentParams (s : StoreOnlyDocSubDB)
  : SerialNum * SerialNum :=
  let flushedDMSSN := _flushedDocumentMetaStoreSerialNum s in
  let flushedDSSN := _flushedDocumentStoreSerialNum s in
  (flushedDMSSN, flushedDSSN).

(** * Aggregators (eval/aggr.h)

    The class templates of namespace [vespalib::eval::aggr], over the
    operations they use of their value type [T]. *)

(** What the templates use of [T]: the value of the literal [0.0], [+],
    [*], the division of a [T] by a count, the conversion of a count to [T],
    and [<], which [std::max] and [std::min] are made of. *)
Class Numeric (T : Type) : Type := {
  zero : T;
  add : T -> T -> T;
  mul : T -> T -> T;
  div_count : T -> N -> T;
  of_count : N -> T;
  less : T -> T -> bool
}.

(** [++_cnt] on a [size_t]. *)
Definition increment (cnt : N) : N := ((cnt + 1) mod 2 ^ 64)%N.

(** [std::max(a, b)] and [std::min(a, b)]. *)
Definition std_max {T} `{Numeric T} (a b : T) : T := if less a b then b else a.
Definition std_min {T} `{Numeric T} (a b : T) : T := if less b a then b else a.

(** An aggregator class: its state when constructed and its three member
    functions. *)
Record AggregatorClass (T S : Type) : Type := mkAggregatorClass {
  constructed : S;
  first : T -> S -> S;
  next : T -> S -> S;
  result : S -> T
}.

Arguments mkAggregatorClass {T S}.

Section AggregatorClasses.

Context {T : Type} `{Numeric T}.

(** [template <typename T> class Avg], aggr.h lines 59-73, state [(_sum, _cnt)]. *)
Definition Avg : AggregatorClass T (T * N) :=
  mkAggregatorClass
    (zero, 1%N)
    (fun value _ => (value, 1%N))
    (fun value s => (add (fst s) value, increment (snd s)))
    (fun s => div_count (fst s) (snd s)).

(** [class Count], state [_cnt]. *)
Definition Count : AggregatorClass T N :=
  mkAggregatorClass
    0%N
    (fun _ _ => 1%N)
    (fun _ cnt => increment cnt)
    (fun cnt => of_count cnt).

(** [class Prod], state [_prod]. *)
Definition Prod : AggregatorClass T T :=
  mkAggregatorClass
    zero
    (fun value _ => value)
    (fun value prod => mul prod value)
    (fun prod => prod).

(** [class Sum], state [_sum]. *)
Definition Sum : AggregatorClass T T :=
  mkAggregatorClass
    zero
    (fun value _ => value)
    (fun value sum => add sum value)
    (fun sum => sum).

(** [class Max], state [_max]. *)
Definition Max : AggregatorClass T T :=
  mkAggregatorClass
    zero
    (fun value _ => value)
    (fun value max => std_max max value)
    (fun max => max).

(** [class Min], state [_min]. *)
Definition Min : AggregatorClass T T :=
  mkAggregatorClass
    zero
    (fun value _ => value)
    (fun value min => std_min min value)
    (fun min => min).

(** Aggregating one group of values, as the comment of the [Aggregator]
    interface has it: [first] once, [next] for each further value, then
    [result]. The aggregator may have been used before. *)
Definition aggregate {S} (a : AggregatorClass T S) (used : S)
           (value : T) (values : list T) : T :=
  result a (fold_left (fun s v => next a v s) values (first a value used)).

End AggregatorClasses.

(** The integers as a value type. *)
Definition Numeric_Z : Numeric Z := {|
  zero := 0%Z;
  add := Z.add;
  mul := Z.mul;
  div_count := fun a n => (a / Z.of_N n)%Z;
  of_count := Z.of_N;
  less := Z.ltb
|}.

(** A world with one meta store and one summary manager. *)
Definition demo_world : World :=
  mkWorld (fun _ => mkDocumentMetaStoreState true 17%N 5%N)
          (fun _ => mkSummaryManagerState 12%N
                      [Some (SummaryFlushTarget 0); Some (SummaryFlushTarget 1)])
          (fun target =>
             match target with
             | DocumentMetaStoreFlushTarget _ _ => 17%N
             | _ => 12%N
             end).

(** * Properties *)

(** ** Tree injection *)

Section InjectFacts.

Context {T : Type}.

(** Induction along the first children of a query tree. *)
Lemma Node_first_child_ind (P : Node T -> Prop) :
  (forall d, P (Term d)) ->
  (forall loc view id weight, P (ProtonLocationTerm loc view id weight)) ->
  (forall k, P (Intermediate k [])) ->
  (forall k first rest, P first -> P (Intermediate k (first :: rest))) ->
  forall n, P n.
Proof.
  intros Hterm Hloc Hnil Hcons.
  fix IH 1.
  intros [d | loc view id weight | k [| first rest]].
  - apply Hterm.
  - apply Hloc.
  - apply Hnil.
  - apply Hcons, IH.
Qed.

(** The body of [inject] as the source writes it, with [append],
    [stealFirst] and [prepend]. *)
Lemma inject_as_written (query to_inject : Node T) :
  inject query to_inject =
  if isAnd query then append query to_inject
  else if isRank query || isAndNot query then
    match stealFirst query with
    | Some (first, root) =>
        match inject first to_inject with
        | Some injected => prepend root injected
        | None => None
        end
    | None => None
    end
  else
    match append ProtonAnd query with
    | Some new_root => append new_root to_inject
    | None => None
    end.
Proof.
  destruct query as [d | loc view id weight | k [| first rest]];
    try reflexivity; destruct k; simpl; try reflexivity;
    destruct (inject first to_inject); reflexivity.
Qed.

Lemma inject_defined_iff (query to_inject : Node T) :
  injectable query = true <-> exists result, inject query to_inject = Some result.
Proof.
  induction query as [d | loc view id weight | k | k first rest IH]
    using Node_first_child_ind.
  - simpl; split; eauto.
  - simpl; split; eauto.
  - destruct k; simpl; split; eauto;
      first [ discriminate | intros [r Hr]; discriminate ].
  - destruct k; simpl; try (split; eauto; fail);
      rewrite IH; split; intros [r Hr].
    + rewrite Hr; eauto.
    + destruct (inject first to_inject); [eauto | discriminate].
    + rewrite Hr; eauto.
    + destruct (inject first to_inject); [eauto | discriminate].
Qed.

(** C2. The tree-injection algorithm: into an [And] root the node is
    appended as one more child of that root; into a [Rank] or [AndNot] root
    the injection goes into the first child only and its result is put back
    as the first child, the other children staying as they are; any other
    root becomes the first child of a new [And] whose second child is the
    node. Injection is defined on every tree whose chain of [Rank]/[AndNot]
    first children never reaches a node without children. *)
Theorem inject_algorithm (query to_inject : Node T) :
  (forall cs, query = Intermediate And cs ->
     inject query to_inject = Some (Intermediate And (cs ++ [to_inject]))) /\
  (forall k first rest,
     k = Rank \/ k = AndNot ->
     query = Intermediate k (first :: rest) ->
     inject query to_inject =
     option_map (fun injected => Intermediate k (injected :: rest))
                (inject first to_inject)) /\
  (isAnd query = false -> isRank query = false -> isAndNot query = false ->
     inject query to_inject = Some (Intermediate And [query; to_inject])) /\
  (injectable query = true <->
   exists result, inject query to_inject = Some result).
Proof.
  repeat split.
  - intros cs ->. reflexivity.
  - intros k first rest [-> | ->] ->; simpl;
      destruct (inject first to_inject); reflexivity.
  - intros Hand Hrank Handnot.
    destruct query as [d | loc view id weight | k cs]; try reflexivity.
    destruct k; simpl in *; try discriminate; reflexivity.
  - apply inject_defined_iff.
  - apply inject_defined_iff.
Qed.

(** Injection adds the term leaves of the injected node and keeps all the
    others. *)
Lemma termCount_inject (query to_inject result : Node T) :
  inject query to_inject = Some result ->
  termCount result = termCount query + termCount to_inject.
Proof.
  revert result.
  induction query as [d | loc view id weight | k | k first rest IH]
    using Node_first_child_ind; intros result H.
  - inversion H; subst; simpl; lia.
  - inversion H; subst; simpl; lia.
  - destruct k; simpl in H; inversion H; subst; simpl; lia.
  - destruct k; simpl in H;
      try (inversion H; subst; simpl; lia);
      try (destruct (inject first to_inject) as [injected |] eqn:E;
           [ inversion H; subst; simpl; rewrite (IH injected eq_refl); lia
           | discriminate ]).
    inversion H; subst. simpl.
    rewrite map_app, list_sum_app. simpl. lia.
Qed.

End InjectFacts.

(** ** White-list merge *)

Section BlueprintFacts.

Context {L : Type}.

(** Induction along the first children of a blueprint tree. *)
Lemma Blueprint_first_child_ind (P : Blueprint L -> Prop) :
  (forall l, P (LeafBlueprint l)) ->
  (forall k, P (IntermediateBlueprint k [])) ->
  (forall k first rest, P first -> P (IntermediateBlueprint k (first :: rest))) ->
  forall b, P b.
Proof.
  intros Hleaf Hnil Hcons.
  fix IH 1.
  intros [l | k [| first rest]].
  - apply Hleaf.
  - apply Hnil.
  - apply Hcons, IH.
Qed.

Lemma chain_length_zero (node : Blueprint L) :
  chain_length node = Some 0 <-> asRankOrAndNot node = false.
Proof.
  destruct node as [l | k [| first rest]]; simpl.
  - split; reflexivity.
  - destruct (isRankOrAndNotKind k); split; congruence.
  - destruct (isRankOrAndNotKind k); [| split; congruence].
    destruct (chain_length first); simpl; split; congruence.
Qed.

(** What the loop computes: the pointer it entered with when the node is no
    [Rank]/[AndNot], otherwise the pointer to the last node of the chain. *)
Lemma lastConsequtiveRankOrAndNot_loop_spec (node : Blueprint L) :
  forall prev here,
    lastConsequtiveRankOrAndNot_loop prev here node =
    match chain_length node with
    | None => None
    | Some 0 => Some prev
    | Some (S n) => Some (Some (here ++ repeat 0 n))
    end.
Proof.
  induction node as [l | k | k first rest IH] using Blueprint_first_child_ind;
    intros prev here; simpl.
  - reflexivity.
  - destruct (isRankOrAndNotKind k); reflexivity.
  - destruct (isRankOrAndNotKind k); [| reflexivity].
    rewrite IH.
    destruct (chain_length first) as [[| n] |]; simpl.
    + rewrite app_nil_r. reflexivity.
    + rewrite <- app_assoc. reflexivity.
    + reflexivity.
Qed.

Lemma lastConsequtiveRankOrAndNot_spec (blueprint : Blueprint L) :
  lastConsequtiveRankOrAndNot blueprint =
  match chain_length blueprint with
  | None => None
  | Some 0 => Some None
  | Some (S n) => Some (Some (repeat 0 n))
  end.
Proof.
  unfold lastConsequtiveRankOrAndNot.
  rewrite lastConsequtiveRankOrAndNot_loop_spec. reflexivity.
Qed.

(** The merge, one level at a time: a root that is no [Rank]/[AndNot] is
    wrapped; a [Rank]/[AndNot] root whose first child is none gets that child
    wrapped; otherwise the merge is that of the first child. *)
Lemma mergeWhiteList_step (blueprint whiteList : Blueprint L) :
  mergeWhiteList blueprint whiteList =
  if asRankOrAndNot blueprint then
    match blueprint with
    | IntermediateBlueprint k (first :: rest) =>
        if asRankOrAndNot first then
          option_map (fun merged => IntermediateBlueprint k (merged :: rest))
                     (mergeWhiteList first whiteList)
        else
          Some (IntermediateBlueprint k
                  (IntermediateBlueprint AndBlueprint [first; whiteList] :: rest))
    | _ => None
    end
  else Some (IntermediateBlueprint AndBlueprint [blueprint; whiteList]).
Proof.
  unfold mergeWhiteList.
  rewrite lastConsequtiveRankOrAndNot_spec.
  destruct blueprint as [l | k [| first rest]]; simpl.
  - reflexivity.
  - destruct (isRankOrAndNotKind k); reflexivity.
  - destruct (isRankOrAndNotKind k); [| reflexivity].
    rewrite lastConsequtiveRankOrAndNot_spec.
    destruct (chain_length first) as [[| n] |] eqn:Hchain; simpl.
    + apply chain_length_zero in Hchain. rewrite Hchain. reflexivity.
    + assert (Hfirst : asRankOrAndNot first = true).
      { destruct (asRankOrAndNot first) eqn:E; [reflexivity |].
        apply chain_length_zero in E. congruence. }
      rewrite Hfirst.
      destruct (mutate (repeat 0 n) (removeChild 0) first)
        as [[removed first1] |]; simpl; [| reflexivity].
      destruct (mutate (repeat 0 n) _ first1) as [[u first2] |];
        reflexivity.
    + destruct (asRankOrAndNot first) eqn:E; [reflexivity |].
      apply chain_length_zero in E. congruence.
Qed.








(** The place of the merged white list, one level at a time. *)
Lemma whiteListPlace_step (blueprint : Blueprint L) :
  whiteListPlace blueprint =
  if asRankOrAndNot blueprint then
    match blueprint with
    | IntermediateBlueprint k (first :: rest) =>
        if asRankOrAndNot first then option_map (cons 0) (whiteListPlace first)
        else Some [0; 1]
    | _ => None
    end
  else Some [1].
Proof.
  unfold whiteListPlace.
  rewrite lastConsequtiveRankOrAndNot_spec.
  destruct blueprint as [l | k [| first rest]]; simpl.
  - reflexivity.
  - destruct (isRankOrAndNotKind k); reflexivity.
  - destruct (isRankOrAndNotKind k); [| reflexivity].
    rewrite lastConsequtiveRankOrAndNot_spec.
    destruct (chain_length first) as [[| n] |] eqn:Hchain; simpl.
    + apply chain_length_zero in Hchain. rewrite Hchain. reflexivity.
    + destruct (asRankOrAndNot first) eqn:E; [reflexivity |].
      apply chain_length_zero in E. congruence.
    + destruct (asRankOrAndNot first) eqn:E; [reflexivity |].
      apply chain_length_zero in E. congruence.
Qed.

(** The merge puts the white list where [whiteListPlace] says, and is
    defined exactly when that place is. *)
Lemma mergeWhiteList_place (whiteList : Blueprint L) :
  forall blueprint,
    match mergeWhiteList blueprint whiteList, whiteListPlace blueprint with
    | Some merged, Some place => deref place merged = Some whiteList
    | None, None => True
    | _, _ => False
    end.
Proof.
  induction blueprint as [l | k | k first rest IH]
    using Blueprint_first_child_ind;
    rewrite mergeWhiteList_step, whiteListPlace_step.
  - reflexivity.
  - simpl. destruct (isRankOrAndNotKind k); [exact I | reflexivity].
  - destruct (asRankOrAndNot (IntermediateBlueprint k (first :: rest)));
      [| reflexivity].
    destruct (asRankOrAndNot first); [| reflexivity].
    destruct (mergeWhiteList first whiteList) as [merged |],
             (whiteListPlace first) as [place |]; simpl; exact IH.
Qed.

End BlueprintFacts.

Section WhiteListMerge.

Context {T L : Type} {C : Collaborators T L}.


(** [reserveHandles] on a query that holds a tree and a white list. *)
Lemma reserveHandles_with_white_list (q : Query T L)
      (requestContext : IRequestContext) (context : ISearchContext)
      (mdl : MatchDataLayout) (tree : Node T) (whiteList : Blueprint L) :
  _query_tree q = Some tree ->
  _whiteListBlueprint q = Some whiteList ->
  let reserved := MatchDataReserveVisitor_visit mdl tree in
  let limit := getDocIdLimit context in
  let built := BlueprintBuilder_build requestContext (fst reserved) context in
  reserveHandles requestContext context mdl q =
  match mergeWhiteList built whiteList, whiteListPlace built with
  | Some merged, Some place =>
      Some (snd reserved,
            mkQuery (Some (fst reserved)) (Some (setDocIdLimit limit merged))
                    (_location q) None
                    (option_map
                       (pointer_after_merge place
                          (setDocIdLimit_moves limit merged))
                       (_white_list_provider q)),
            [ReserveMatchData; BuildBlueprint; SetDocIdLimit limit])
  | _, _ => None
  end.
Proof.
  intros Htree Hwl. destruct q as [qt bp loc wl prov]. simpl in *. subst.
  unfold reserveHandles, bind, gets, nonnull, emit, modify, ret,
    set_query_tree, set_blueprint, set_whiteListBlueprint,
    blueprint_objects_destroyed, blueprint_objects_moved,
    white_list_moved_to, set_white_list_provider. simpl.
  destruct (mergeWhiteList _ whiteList); [| reflexivity].
  destruct (whiteListPlace _); [| reflexivity].
  destruct prov as [[| place' |] |]; reflexivity.
Qed.


End WhiteListMerge.

(** ** Location injection and buildTree *)

Section BuildTreeFacts.

Context {T L : Type} {C : Collaborators T L}.

Ltac run_eff :=
  unfold on_tree_and_location, on_tree, on_location, inject_into_tree,
    bind, gets, nonnull, emit, modify, ret,
    set_query_tree, set_location, set_blueprint; simpl.

Lemma find_None_iff (c : ascii) (s : string) :
  find c s = None <-> ~ In c (list_ascii_of_string s).
Proof.
  induction s as [| a s IH]; simpl.
  - split; [intros _ [] | reflexivity].
  - destruct (Ascii.eqb_spec a c) as [-> | Hne].
    + split; [discriminate | intros H; exfalso; apply H; left; reflexivity].
    + destruct (find c s); simpl.
      * split; [discriminate |].
        intros H. exfalso. apply H. right.
        destruct IH as [_ IH].
        destruct (in_dec ascii_dec c (list_ascii_of_string s)) as [Hin | Hin];
          [exact Hin | discriminate (IH Hin)].
      * split; [| reflexivity].
        intros _ [Heq | Hin]; [congruence | apply IH in Hin; auto].
Qed.

(** The injector on a rejected location string: nothing but the warning. *)
Lemma addLocationNode_rejected (location_str : string) (log : list Event)
      (query_tree : Node T) (fef_location : Location) :
  rejected location_str log ->
  addLocationNode location_str (query_tree, fef_location) =
  Some (tt, (query_tree, fef_location), log).
Proof.
  intros [-> | Hne Hno | pos error Hpos Hparse]; unfold addLocationNode.
  - reflexivity.
  - destruct location_str as [| a s]; [congruence |].
    apply find_None_iff in Hno. simpl empty. cbv iota.
    rewrite Hno. reflexivity.
  - destruct location_str as [| a s]; [discriminate |].
    simpl empty. cbv iota. rewrite Hpos, Hparse. reflexivity.
Qed.

(** The injector on a location string that parses. *)
Lemma addLocationNode_parsed (location_str : string) (pos : nat)
      (locationSpec : LocationSpec) (query_tree : Node T)
      (fef_location : Location) :
  find ":"%char location_str = Some pos ->
  Location_parse (substr_from location_str (pos + 1)) = inr locationSpec ->
  let view := getZCurveFieldName (substr location_str 0 pos) in
  let loc := substr_from location_str (pos + 1) in
  let term := ProtonLocationTerm loc view (-1) 100 in
  addLocationNode location_str (query_tree, fef_location) =
  if getRankOnDistance locationSpec then
    option_map
      (fun t => (tt, (t, mkLocation view (getX locationSpec) (getY locationSpec)
                                    (specXAspect locationSpec) true),
                 [InjectLocationTerm]))
      (inject query_tree term)
  else if getPruneOnDistance locationSpec then
    option_map (fun t => (tt, (t, fef_location), [InjectLocationTerm]))
               (inject query_tree term)
  else Some (tt, (query_tree, fef_location), []).
Proof.
  intros Hpos Hparse view loc term. unfold addLocationNode.
  destruct location_str as [| a s]; [discriminate |].
  simpl empty. cbv iota. rewrite Hpos, Hparse.
  fold view loc term.
  destruct (getRankOnDistance locationSpec).
  - run_eff. destruct (inject query_tree term); reflexivity.
  - destruct (getPruneOnDistance locationSpec); [| reflexivity].
    run_eff. destruct (inject query_tree term); reflexivity.
Qed.

(** [buildTree], run: either no tree and [false], or the passes in their
    order over the tree and [true]. *)
Lemma buildTree_run (stack location : string)
      (resolver : ViewResolver) (indexEnv : IIndexEnvironment)
      (split delay : bool) (q : Query T L) :
  buildTree stack location resolver indexEnv split delay q =
  match QueryTreeCreator_create stack with
  | None => Some (false, set_query_tree None q, [CreateQueryTree])
  | Some tree =>
      match addLocationNode location
              (SameElementModifier_visit tree, _location q) with
      | Some (_, (located, fef_location), log) =>
          let has_white_list := isSome (_whiteListBlueprint q) in
          Some (true,
                mkQuery
                  (Some (ResolveViewVisitor_visit resolver indexEnv
                           (UnpackingIteratorsOptimizer_optimize
                              located has_white_list split delay)))
                  (_blueprint q) fef_location
                  (_whiteListBlueprint q) (_white_list_provider q),
                [CreateQueryTree; SameElementModify] ++ log ++
                [UnpackingOptimize has_white_list split delay; ResolveViews])
      | None => None
      end
  end.
Proof.
  unfold buildTree. run_eff.
  destruct (QueryTreeCreator_create stack) as [tree |]; simpl; [| reflexivity].
  destruct (addLocationNode location (SameElementModifier_visit tree, _location q))
    as [[[u [located fef_location]] log] |]; simpl; reflexivity.
Qed.

End BuildTreeFacts.

Section BuildTreeClaims.

Context {T L : Type} {C : Collaborators T L}.

(** C5. The location injector on a location string that is empty, has no
    [':'] or whose specification does not parse: nothing fails, nothing is
    done but logging the warning (none for the empty string), the query tree
    and the location descriptor are what they were, so a descriptor that was
    not valid is still not valid; [buildTree] goes on with the remaining
    passes over the tree without any location term and returns [true]. *)
Theorem location_injector_rejects (location_str : string) (log : list Event) :
  rejected location_str log ->
  (forall query_tree fef_location,
     addLocationNode location_str (query_tree, fef_location) =
     Some (tt, (query_tree, fef_location), log)) /\
  Forall (fun e => exists message, e = LogWarning message) log /\
  (forall (q : Query T L) tree,
     _query_tree q = Some tree ->
     on_tree_and_location (addLocationNode location_str) q = Some (tt, q, log)) /\
  (forall (q : Query T L) stack resolver indexEnv split delay tree,
     QueryTreeCreator_create stack = Some tree ->
     buildTree stack location_str resolver indexEnv split delay q =
     Some (true,
           mkQuery
             (Some (ResolveViewVisitor_visit resolver indexEnv
                      (UnpackingIteratorsOptimizer_optimize
                         (SameElementModifier_visit tree)
                         (isSome (_whiteListBlueprint q)) split delay)))
             (_blueprint q) (_location q)
             (_whiteListBlueprint q) (_white_list_provider q),
           [CreateQueryTree; SameElementModify] ++ log ++
           [UnpackingOptimize (isSome (_whiteListBlueprint q)) split delay;
            ResolveViews])).
Proof.
  intros Hrej. split; [| split; [| split]].
  - intros query_tree fef_location. apply addLocationNode_rejected, Hrej.
  - destruct Hrej; repeat constructor; eexists; reflexivity.
  - intros q tree Htree. unfold on_tree_and_location.
    rewrite Htree, (addLocationNode_rejected _ _ Hrej).
    destruct q; simpl in *; subst; reflexivity.
  - intros q stack resolver indexEnv split delay tree Hcreate.
    rewrite buildTree_run, Hcreate, (addLocationNode_rejected _ _ Hrej).
    reflexivity.
Qed.

(** C4. The location injector on a location string that parses. When the
    specification asks for ranking on distance, a location term with the
    specification text, the z-curve view name of the field, id -1 and weight
    100 is injected into the tree and the descriptor gets the view name, x,
    y and the x aspect and is marked valid. When it asks for pruning on
    distance only, the same term is injected and the descriptor is left as
    it was. For ["view1:2,100,10,0"], parsed as ranking on distance at
    (100, 10), the descriptor ends valid with x = 100 and y = 10. *)
Theorem location_injection (location_str : string) (pos : nat)
        (locationSpec : LocationSpec) (query_tree : Node T)
        (fef_location : Location) :
  find ":"%char location_str = Some pos ->
  Location_parse (substr_from location_str (pos + 1)) = inr locationSpec ->
  let view := getZCurveFieldName (substr location_str 0 pos) in
  let loc := substr_from location_str (pos + 1) in
  let term := ProtonLocationTerm loc view (-1) 100 in
  (getRankOnDistance locationSpec = true ->
   addLocationNode location_str (query_tree, fef_location) =
   option_map
     (fun t => (tt, (t, mkLocation view (getX locationSpec) (getY locationSpec)
                                   (specXAspect locationSpec) true),
                [InjectLocationTerm]))
     (inject query_tree term)) /\
  (getRankOnDistance locationSpec = false ->
   getPruneOnDistance locationSpec = true ->
   addLocationNode location_str (query_tree, fef_location) =
   option_map (fun t => (tt, (t, fef_location), [InjectLocationTerm]))
              (inject query_tree term)) /\
  (location_str = "view1:2,100,10,0"%string ->
   getRankOnDistance locationSpec = true ->
   getX locationSpec = 100%Z -> getY locationSpec = 10%Z ->
   injectable query_tree = true ->
   exists t l,
     addLocationNode location_str (query_tree, fef_location) =
     Some (tt, (t, l), [InjectLocationTerm]) /\
     inject query_tree
       (ProtonLocationTerm "2,100,10,0" (getZCurveFieldName "view1") (-1) 100)
     = Some t /\
     getAttribute l = getZCurveFieldName "view1" /\
     isValid l = true /\ getXPosition l = 100%Z /\ getYPosition l = 10%Z).
Proof.
  intros Hpos Hparse view loc term.
  pose proof (addLocationNode_parsed location_str query_tree fef_location
                Hpos Hparse) as Hrun.
  cbv zeta in Hrun. fold view loc term in Hrun.
  split; [| split].
  - intros Hrank. rewrite Hrun, Hrank. reflexivity.
  - intros Hrank Hprune. rewrite Hrun, Hrank, Hprune. reflexivity.
  - intros -> Hrank Hx Hy Hinj.
    rewrite Hrun, Hrank.
    simpl in Hpos. inversion Hpos; subst pos.
    apply (inject_defined_iff query_tree term) in Hinj.
    destruct Hinj as [t Ht].
    exists t, (mkLocation view (getX locationSpec) (getY locationSpec)
                          (specXAspect locationSpec) true).
    rewrite Ht. simpl. repeat split; assumption.
Qed.

(** C6. [buildTree] when the tree creator makes no tree of the stack: it
    returns [false], the only thing that ran is the tree creator (none of
    the same-element rewrite, the location injection, the unpacking
    optimization and the view resolution), the query holds no tree and its
    other members are untouched. When the creator makes a tree, [buildTree]
    returns [true] and the query holds a tree: it never returns anything
    else, and it does return on every tree the location term can be
    injected into. *)
Theorem buildTree_failure_signalling (stack location : string)
        (resolver : ViewResolver) (indexEnv : IIndexEnvironment)
        (split delay : bool) (q : Query T L) :
  (QueryTreeCreator_create stack = None ->
   buildTree stack location resolver indexEnv split delay q =
   Some (false, set_query_tree None q, [CreateQueryTree])) /\
  (forall tree,
     QueryTreeCreator_create stack = Some tree ->
     (forall result q' tr,
        buildTree stack location resolver indexEnv split delay q =
        Some (result, q', tr) ->
        result = true /\ isSome (_query_tree q') = true) /\
     (injectable (SameElementModifier_visit tree) = true ->
      exists q' tr,
        buildTree stack location resolver indexEnv split delay q =
        Some (true, q', tr))).
Proof.
  rewrite buildTree_run. split.
  - intros ->. reflexivity.
  - intros tree ->. split.
    + intros result q' tr.
      destruct (addLocationNode location _)
        as [[[u [located fef_location]] log] |]; [| discriminate].
      intros H. inversion H; subst. split; reflexivity.
    + intros Hinj.
      assert (Hdef : exists r,
                 addLocationNode location
                   (SameElementModifier_visit tree, _location q) = Some r).
      { unfold addLocationNode.
        destruct (empty location); [eexists; reflexivity |].
        destruct (find ":"%char location) as [pos |];
          [| eexists; reflexivity].
        destruct (Location_parse _) as [error | locationSpec];
          [eexists; reflexivity |].
        match goal with
        | |- context [inject_into_tree ?t] =>
            destruct (proj1 (inject_defined_iff _ t) Hinj) as [t' Ht']
        end.
        destruct (getRankOnDistance locationSpec);
          [| destruct (getPruneOnDistance locationSpec)];
          unfold bind, inject_into_tree, on_location, modify, ret; simpl;
          try rewrite Ht'; eexists; reflexivity. }
      destruct Hdef as [[[u [located fef_location]] log] Hdef].
      rewrite Hdef. eexists. eexists. reflexivity.
Qed.

(** C10. [extractLocations] empties the vector it is given and puts one
    pointer in it, the address of the query's own descriptor, whatever the
    query has been through. When [buildTree] made no tree or turned the
    location string down, the descriptor that pointer reads is the one the
    query had before, so on a query whose descriptor was not valid, as that
    of a fresh query, it reads a descriptor that is not valid. *)
Theorem extractLocations_single (q : Query T L) (locations : list LocationPtr) :
  extractLocations locations q = Some ([addr_location], q, []) /\
  deref_location q addr_location = Some (_location q) /\
  isValid (_location (@Query_new T L)) = false /\
  (forall stack location log resolver indexEnv split delay,
     QueryTreeCreator_create stack = None \/ rejected location log ->
     exists result q' tr,
       buildTree stack location resolver indexEnv split delay q =
       Some (result, q', tr) /\
       extractLocations locations q' = Some ([addr_location], q', []) /\
       deref_location q' addr_location = Some (_location q) /\
       (isValid (_location q) = false ->
        option_map isValid (deref_location q' addr_location) = Some false)).
Proof.
  split; [reflexivity | split; [reflexivity | split; [reflexivity |]]].
  intros stack location log resolver indexEnv split delay Hcase.
  rewrite buildTree_run.
  destruct (QueryTreeCreator_create stack) as [tree |] eqn:Hcreate.
  - destruct Hcase as [Hnone | Hrej]; [discriminate |].
    rewrite (addLocationNode_rejected _ _ Hrej).
    do 3 eexists. split; [reflexivity |].
    split; [reflexivity |]. split; [reflexivity |].
    simpl. intros H. rewrite H. reflexivity.
  - do 3 eexists. split; [reflexivity |].
    split; [reflexivity |]. split; [reflexivity |].
    simpl. intros H. rewrite H. reflexivity.
Qed.

End BuildTreeClaims.

(** ** The optimizer protocol *)

Section OptimizeClaims.

Context {T L : Type} {C : Collaborators T L}.

(** [optimize], run. *)
Lemma optimize_run (q : Query T L) :
  optimize q =
  match _blueprint q with
  | None => None
  | Some blueprint =>
      let optimized := Blueprint_optimize blueprint in
      let q1 :=
        blueprint_objects_moved (Blueprint_optimize_moves blueprint)
          (set_blueprint (Some optimized) q) in
      if want_global_filter optimized then
        match
          match _white_list_provider q1 with
          | Some ptr => option_map get_white_list_filter (pointee q1 ptr)
          | None => Some None
          end
        with
        | Some white_list =>
            let global_filter := GlobalFilter_create white_list in
            let filtered := set_global_filter global_filter optimized in
            Some (tt,
                  blueprint_objects_moved (Blueprint_optimize_moves filtered)
                    (set_blueprint (Some (Blueprint_optimize filtered))
                       (blueprint_objects_moved
                          (set_global_filter_moves global_filter optimized) q1)),
                  [OptimizeBlueprint;
                   SetGlobalFilter (isSome (_white_list_provider q));
                   OptimizeBlueprint])
        | None => None
        end
      else Some (tt, q1, [OptimizeBlueprint])
  end.
Proof.
  destruct q as [qt [bp |] loc wl prov]; [| reflexivity].
  unfold optimize, white_list_of_provider, bind, gets, nonnull, emit, modify,
    ret, set_blueprint, blueprint_objects_moved, set_white_list_provider.
  simpl.
  destruct (want_global_filter (Blueprint_optimize bp)); [| reflexivity].
  destruct prov as [ptr |]; simpl; [| reflexivity].
  destruct (pointee _ (moved_by (Blueprint_optimize_moves bp) ptr));
    reflexivity.
Qed.

(** C3. One call of [optimize] on a query holding a blueprint: the
    optimization runs once; when the state of the optimized root wants a
    global filter, a global filter is made of the filter of the white-list
    provider, asked of the object the provider pointer points at after the
    first run (of nothing when the pointer is null), it is set on the tree
    and the optimization runs once more on that tree; otherwise nothing more
    happens. So a call that returns has run the optimization twice exactly
    when the root wants a global filter after the first run, and no call
    runs it a third time. The call does not return only when a filter is
    wanted and the object the provider pointer pointed at is no more. *)
Theorem optimize_protocol (q : Query T L) (blueprint : Blueprint L) :
  _blueprint q = Some blueprint ->
  let optimized := Blueprint_optimize blueprint in
  let q1 :=
    blueprint_objects_moved (Blueprint_optimize_moves blueprint)
      (set_blueprint (Some optimized) q) in
  let second_run white_list :=
    let global_filter := GlobalFilter_create white_list in
    let filtered := set_global_filter global_filter optimized in
    Some (tt,
          blueprint_objects_moved (Blueprint_optimize_moves filtered)
            (set_blueprint (Some (Blueprint_optimize filtered))
               (blueprint_objects_moved
                  (set_global_filter_moves global_filter optimized) q1)),
          [OptimizeBlueprint;
           SetGlobalFilter (isSome (_white_list_provider q));
           OptimizeBlueprint]) in
  (want_global_filter optimized = false ->
   optimize q = Some (tt, q1, [OptimizeBlueprint])) /\
  (want_global_filter optimized = true ->
   (_white_list_provider q = None -> optimize q = second_run None) /\
   (forall ptr object,
      _white_list_provider q1 = Some ptr ->
      pointee q1 ptr = Some object ->
      optimize q = second_run (get_white_list_filter object)) /\
   (forall ptr,
      _white_list_provider q1 = Some ptr ->
      pointee q1 ptr = None ->
      optimize q = None)) /\
  (optimize q = None <->
   want_global_filter optimized = true /\
   exists ptr, _white_list_provider q1 = Some ptr /\ pointee q1 ptr = None) /\
  optimize_runs (trace_of (optimize q)) <= 2 /\
  (optimize q <> None ->
   1 <= optimize_runs (trace_of (optimize q)) /\
   (optimize_runs (trace_of (optimize q)) = 2 <->
    want_global_filter optimized = true)).
Proof.
  intros Hbp optimized q1 second_run.
  rewrite optimize_run, Hbp. cbv zeta. fold optimized. fold q1.
  destruct (want_global_filter optimized).
  - split; [discriminate |].
    split.
    { intros _. split; [| split].
      - intros Hnull.
        assert (Hq1 : _white_list_provider q1 = None).
        { unfold q1, blueprint_objects_moved. simpl. rewrite Hnull.
          reflexivity. }
        rewrite Hq1. reflexivity.
      - intros ptr object Hptr Hobject. rewrite Hptr, Hobject. reflexivity.
      - intros ptr Hptr Hobject. rewrite Hptr, Hobject. reflexivity. }
    destruct (_white_list_provider q1) as [ptr |];
      [destruct (pointee q1 ptr) as [object |] eqn:Hobject |]; simpl.
    + split; [| split; [lia | intros _; split; [lia | tauto]]].
      split; [discriminate |].
      intros [_ [ptr' [Hptr' Hnone]]]. inversion Hptr'; subst. congruence.
    + split; [| split; [lia | intros H; exfalso; apply H; reflexivity]].
      split; [| reflexivity].
      intros _. split; [reflexivity |]. exists ptr. split; [reflexivity | exact Hobject].
    + split; [| split; [lia | intros _; split; [lia | tauto]]].
      split; [discriminate |].
      intros [_ [ptr' [Hptr' _]]]. discriminate.
  - split; [reflexivity |].
    split; [discriminate |].
    simpl.
    split; [split; [discriminate | intros [H _]; discriminate] |].
    split; [lia |]. intros _. split; [lia |]. split; discriminate.
Qed.

End OptimizeClaims.

(** ** Term count and the time the white list is supplied *)

Section NodeInduction.

Context {T : Type}.

(** Induction over a query tree and all its children. *)
Lemma Node_children_ind (P : Node T -> Prop) :
  (forall d, P (Term d)) ->
  (forall loc view id weight, P (ProtonLocationTerm loc view id weight)) ->
  (forall k cs, Forall P cs -> P (Intermediate k cs)) ->
  forall n, P n.
Proof.
  intros Hterm Hloc Hint.
  fix IH 1.
  intros [d | loc view id weight | k cs].
  - apply Hterm.
  - apply Hloc.
  - apply Hint.
    induction cs as [| c cs IHcs]; constructor; [apply IH | exact IHcs].
Qed.

End NodeInduction.

Lemma termCount_annotate (m : UnpackMode) (n : Node UnpackMode) :
  termCount (annotate m n) = termCount n.
Proof.
  induction n as [d | loc view id weight | k cs IH] using Node_children_ind;
    simpl; try reflexivity.
  f_equal. rewrite map_map.
  induction IH as [| c cs Hc _ IHcs]; simpl; [reflexivity |].
  rewrite Hc, IHcs. reflexivity.
Qed.

Lemma demo_keeps_terms : passes_keep_terms (C := demo).
Proof.
  repeat split; intros; simpl; try reflexivity.
  apply termCount_annotate.
Qed.

Section LateClaims.

Context {T L : Type} {C : Collaborators T L}.

(** C7, as amended. [buildTree] on a stack the creator makes a tree of,
    with passes that keep the number of term leaves: it returns [true] and
    the tree it leaves has the term leaves of the expression, and one more
    exactly when the location string parses and asks for ranking on distance
    or for pruning on distance, the two cases in which the injector adds its
    location term. *)
Theorem term_count_with_location (stack location : string)
        (resolver : ViewResolver) (indexEnv : IIndexEnvironment)
        (split delay : bool) (q : Query T L) :
  passes_keep_terms ->
  term_count_postcondition injects_location_term
    stack location resolver indexEnv split delay q.
Proof.
  intros (Hsame & Hunpack & Hresolve) tree Hcreate Hinj.
  rewrite buildTree_run, Hcreate.
  unfold injects_location_term, location_request.
  assert (Hkeep : forall log,
             rejected location log ->
             exists q' tr built,
               match addLocationNode location
                       (SameElementModifier_visit tree, _location q) with
               | Some (_, (located, fef_location), log) =>
                   Some (true,
                         mkQuery
                           (Some (ResolveViewVisitor_visit resolver indexEnv
                                    (UnpackingIteratorsOptimizer_optimize located
                                       (isSome (_whiteListBlueprint q)) split delay)))
                           (_blueprint q) fef_location
                           (_whiteListBlueprint q) (_white_list_provider q),
                         [CreateQueryTree; SameElementModify] ++ log ++
                         [UnpackingOptimize (isSome (_whiteListBlueprint q))
                                            split delay; ResolveViews])
               | None => None
               end = Some (true, q', tr) /\
               _query_tree q' = Some built /\
               termCount built = termCount tree + 0).
  { intros log Hrej. rewrite (addLocationNode_rejected _ _ Hrej).
    do 3 eexists. split; [reflexivity |]. split; [reflexivity |].
    rewrite Hresolve, Hunpack, Hsame. lia. }
  destruct (empty location) eqn:Hempty.
  { destruct location; [| discriminate].
    apply (Hkeep []). constructor. reflexivity. }
  destruct (find ":"%char location) as [pos |] eqn:Hpos.
  2:{ apply (Hkeep [warn_no_attribute location]). constructor.
      - intros ->. discriminate.
      - apply find_None_iff, Hpos. }
  destruct (Location_parse (substr_from location (pos + 1)))
    as [error | locationSpec] eqn:Hparse.
  { apply (Hkeep [warn_parse_error location error]).
    econstructor; eassumption. }
  rewrite (addLocationNode_parsed location _ _ Hpos Hparse).
  cbv zeta.
  match goal with
  | |- context [inject _ ?t] =>
      destruct (proj1 (inject_defined_iff _ t) Hinj) as [t' Ht'];
      pose proof (termCount_inject _ _ Ht') as Hcount
  end.
  rewrite Ht'. simpl in Hcount.
  destruct (getRankOnDistance locationSpec); simpl.
  - do 3 eexists. split; [reflexivity |]. split; [reflexivity |].
    rewrite Hresolve, Hunpack, Hcount, Hsame. reflexivity.
  - destruct (getPruneOnDistance locationSpec); simpl.
    + do 3 eexists. split; [reflexivity |]. split; [reflexivity |].
      rewrite Hresolve, Hunpack, Hcount, Hsame. reflexivity.
    + do 3 eexists. split; [reflexivity |]. split; [reflexivity |].
      rewrite Hresolve, Hunpack, Hsame. lia.
Qed.

End LateClaims.

Section SupplyTime.

Context {T L : Type} {C : Collaborators T L}.

Lemma setWhiteListBlueprint_run (whiteList : Blueprint L) (q : Query T L) :
  setWhiteListBlueprint (Some whiteList) q =
  Some (tt,
        mkQuery (_query_tree q) (_blueprint q) (_location q) (Some whiteList)
                (if isWhiteListProvider whiteList
                 then Some in_whiteListBlueprint else None),
        []).
Proof. reflexivity. Qed.

(** The merge is defined wherever the walk of
    [lastConsequtiveRankOrAndNot] is. *)
Lemma mergeWhiteList_defined (blueprint whiteList : Blueprint L) :
  lastConsequtiveRankOrAndNot blueprint <> None ->
  exists merged place,
    mergeWhiteList blueprint whiteList = Some merged /\
    whiteListPlace blueprint = Some place /\
    deref place merged = Some whiteList.
Proof.
  intros Hwalk.
  pose proof (mergeWhiteList_place whiteList blueprint) as Hplace.
  destruct (mergeWhiteList blueprint whiteList) as [merged |],
           (whiteListPlace blueprint) as [place |] eqn:Hp;
    try contradiction.
  - exists merged, place. repeat split. exact Hplace.
  - exfalso. unfold whiteListPlace in Hp.
    destruct (lastConsequtiveRankOrAndNot blueprint) as [[rankOrAndNot |] |];
      [discriminate | discriminate | apply Hwalk; reflexivity].
Qed.

(** C9, as amended. The unpacking optimization is told whether the query
    holds a white list at the time [buildTree] runs. With the white list
    supplied before [buildTree] the optimizer is called with
    [has_white_list = true]; with the white list supplied after [buildTree]
    it was called with what the query held then, [false] on a query without
    a white list, and supplying the white list afterwards leaves the query
    tree as it is. In both orders the query ends up holding the white list
    for [reserveHandles]. The two query trees are the same exactly when the
    optimizer's result does not depend on [has_white_list]. And
    [reserveHandles], called on the query the second order leaves, merges
    that white list into the blueprint it builds from the tree: wherever the
    walk of [lastConsequtiveRankOrAndNot] over the built blueprint is
    defined, the query then holds the merged blueprint under the doc id
    limit, with the white list in it, and no white list of its own. *)
Theorem supply_time_decides_has_white_list
        (whiteList : Blueprint L) (stack location : string)
        (resolver : ViewResolver) (indexEnv : IIndexEnvironment)
        (split delay : bool) (q : Query T L)
        (tree located : Node T) (fef_location : Location) (log : list Event) :
  QueryTreeCreator_create stack = Some tree ->
  addLocationNode location (SameElementModifier_visit tree, _location q) =
  Some (tt, (located, fef_location), log) ->
  let annotated has_white_list :=
    ResolveViewVisitor_visit resolver indexEnv
      (UnpackingIteratorsOptimizer_optimize located has_white_list split delay) in
  let before :=
    supplied_before whiteList stack location resolver indexEnv split delay q in
  let after :=
    supplied_after whiteList stack location resolver indexEnv split delay q in
  let held := isSome (_whiteListBlueprint q) in
  option_map (@_query_tree T L) (state_of before) = Some (Some (annotated true)) /\
  option_map (@_query_tree T L) (state_of after) = Some (Some (annotated held)) /\
  trace_of before =
  [CreateQueryTree; SameElementModify] ++ log ++
  [UnpackingOptimize true split delay; ResolveViews] /\
  trace_of after =
  [CreateQueryTree; SameElementModify] ++ log ++
  [UnpackingOptimize held split delay; ResolveViews] /\
  option_map (@_whiteListBlueprint T L) (state_of before) = Some (Some whiteList) /\
  option_map (@_whiteListBlueprint T L) (state_of after) = Some (Some whiteList) /\
  (_whiteListBlueprint q = None ->
   (unpacking_independent_of_supply_time
      whiteList stack location resolver indexEnv split delay q <->
    annotated true = annotated false)) /\
  exists q_after,
    state_of after = Some q_after /\
    forall requestContext context mdl,
      let reserved := MatchDataReserveVisitor_visit mdl (annotated held) in
      let built := BlueprintBuilder_build requestContext (fst reserved) context in
      let limit := getDocIdLimit context in
      lastConsequtiveRankOrAndNot built <> None ->
      exists merged place,
        mergeWhiteList built whiteList = Some merged /\
        whiteListPlace built = Some place /\
        deref place merged = Some whiteList /\
        reserveHandles requestContext context mdl q_after =
        Some (snd reserved,
              mkQuery (Some (fst reserved))
                      (Some (setDocIdLimit limit merged))
                      fef_location None
                      (if isWhiteListProvider whiteList
                       then Some (moved_by (setDocIdLimit_moves limit merged)
                                           (in_blueprint place))
                       else None),
              [ReserveMatchData; BuildBlueprint; SetDocIdLimit limit]).
Proof.
  intros Hcreate Hloc annotated before after held.
  assert (Hbefore :
            before =
            Some (true,
                  mkQuery (Some (annotated true)) (_blueprint q) fef_location
                          (Some whiteList)
                          (if isWhiteListProvider whiteList
                           then Some in_whiteListBlueprint else None),
                  [CreateQueryTree; SameElementModify] ++ log ++
                  [UnpackingOptimize true split delay; ResolveViews])).
  { unfold before, supplied_before, bind at 1.
    rewrite setWhiteListBlueprint_run, buildTree_run. simpl.
    rewrite Hcreate, Hloc. reflexivity. }
  assert (Hafter :
            after =
            Some (true,
                  mkQuery (Some (annotated held)) (_blueprint q) fef_location
                          (Some whiteList)
                          (if isWhiteListProvider whiteList
                           then Some in_whiteListBlueprint else None),
                  [CreateQueryTree; SameElementModify] ++ log ++
                  [UnpackingOptimize held split delay; ResolveViews])).
  { unfold after, supplied_after, bind at 1.
    rewrite buildTree_run, Hcreate, Hloc. cbv zeta.
    unfold bind. rewrite setWhiteListBlueprint_run. simpl.
    rewrite !app_nil_r. reflexivity. }
  unfold unpacking_independent_of_supply_time, tree_after.
  fold before after. rewrite Hbefore, Hafter. simpl.
  do 6 (split; [reflexivity |]).
  split.
  - intros Hnone. unfold held. rewrite Hnone. simpl.
    split; intros H; congruence.
  - eexists. split; [reflexivity |].
    intros requestContext context mdl. cbv zeta. intros Hwalk.
    destruct (mergeWhiteList_defined _ whiteList Hwalk)
      as (merged & place & Hmerge & Hplace & Hderef).
    exists merged, place.
    split; [exact Hmerge |]. split; [exact Hplace |]. split; [exact Hderef |].
    match goal with
    | |- reserveHandles _ _ _ ?q_after = _ =>
        rewrite (reserveHandles_with_white_list
                   q_after requestContext context mdl eq_refl eq_refl)
    end.
    cbv zeta. cbn [_query_tree _location _white_list_provider].
    rewrite Hmerge, Hplace.
    destruct (isWhiteListProvider whiteList); reflexivity.
Qed.

End SupplyTime.

(** ** The blueprint optimizer of the spec *)

Section Sorting.

Context {A : Type} (le : A -> A -> bool).

Hypothesis le_total : forall a b, le a b = false -> le b a = true.

Lemma insert_by_head (x y : A) (l : list A) :
  HdRel (ordered le) y l -> ordered le y x -> HdRel (ordered le) y (insert_by le x l).
Proof.
  intros Hl Hx. destruct l as [| z l]; simpl.
  - constructor. exact Hx.
  - destruct (le x z); constructor; [exact Hx |].
    inversion Hl; assumption.
Qed.

Lemma insert_by_sorted (x : A) (l : list A) :
  Sorted (ordered le) l -> Sorted (ordered le) (insert_by le x l).
Proof.
  induction 1 as [| y l Hsorted IH Hhd]; simpl.
  - repeat constructor.
  - destruct (le x y) eqn:Hxy.
    + constructor; [constructor; assumption | constructor; exact Hxy].
    + constructor; [exact IH |].
      apply insert_by_head; [exact Hhd | apply le_total, Hxy].
Qed.

Lemma sort_by_sorted (l : list A) : Sorted (ordered le) (sort_by le l).
Proof.
  induction l as [| x l IH]; simpl; [constructor | apply insert_by_sorted, IH].
Qed.

(** Sorting a list that is in order leaves it as it is. *)
Lemma sort_by_of_sorted (l : list A) : Sorted (ordered le) l -> sort_by le l = l.
Proof.
  induction 1 as [| x l Hsorted IH Hhd]; simpl; [reflexivity |].
  rewrite IH. destruct Hhd as [| y l Hxy]; simpl; [reflexivity |].
  unfold ordered in Hxy. rewrite Hxy. reflexivity.
Qed.

Lemma sort_by_idempotent (l : list A) :
  sort_by le (sort_by le l) = sort_by le l.
Proof. apply sort_by_of_sorted, sort_by_sorted. Qed.

Lemma insert_by_Forall (P : A -> Prop) (x : A) (l : list A) :
  P x -> Forall P l -> Forall P (insert_by le x l).
Proof.
  intros Hx. induction 1 as [| y l Hy Hl IH]; simpl.
  - repeat constructor. exact Hx.
  - destruct (le x y); repeat constructor; assumption.
Qed.

Lemma sort_by_Forall (P : A -> Prop) (l : list A) :
  Forall P l -> Forall P (sort_by le l).
Proof.
  induction 1 as [| x l Hx Hl IH]; simpl;
    [constructor | apply insert_by_Forall; assumption].
Qed.

Lemma existsb_insert_by (f : A -> bool) (x : A) (l : list A) :
  existsb f (insert_by le x l) = f x || existsb f l.
Proof.
  induction l as [| y l IH]; simpl; [reflexivity |].
  destruct (le x y); simpl; [reflexivity |].
  rewrite IH. destruct (f x), (f y); reflexivity.
Qed.

Lemma existsb_sort_by (f : A -> bool) (l : list A) :
  existsb f (sort_by le l) = existsb f l.
Proof.
  induction l as [| x l IH]; simpl; [reflexivity |].
  rewrite existsb_insert_by, IH. reflexivity.
Qed.

End Sorting.

Section SortingNumbered.

Context {A : Type} (le : A -> A -> bool).

(** Sorting the numbered elements sorts the elements. *)
Lemma map_snd_insert_by (x : nat * A) (l : list (nat * A)) :
  map snd (insert_by (by_element le) x l) = insert_by le (snd x) (map snd l).
Proof.
  induction l as [| y l IH]; simpl; [reflexivity |].
  unfold by_element at 1.
  destruct (le (snd x) (snd y)); simpl; [reflexivity |].
  rewrite IH. reflexivity.
Qed.

Lemma map_snd_sort_by (l : list (nat * A)) :
  map snd (sort_by (by_element le) l) = sort_by le (map snd l).
Proof.
  induction l as [| x l IH]; simpl; [reflexivity |].
  rewrite map_snd_insert_by, IH. reflexivity.
Qed.

Lemma map_snd_combine_seq (l : list A) :
  forall s, map snd (combine (seq s (List.length l)) l) = l.
Proof.
  induction l as [| x l IH]; intros s; simpl; [reflexivity |].
  rewrite IH. reflexivity.
Qed.

Lemma map_fst_combine_seq (l : list A) :
  forall s, map fst (combine (seq s (List.length l)) l) = seq s (List.length l).
Proof.
  induction l as [| x l IH]; intros s; simpl; [reflexivity |].
  rewrite IH. reflexivity.
Qed.

Lemma in_combine_seq (l : list A) :
  forall s i x,
    In (i, x) (combine (seq s (List.length l)) l) ->
    s <= i /\ nth_error l (i - s) = Some x.
Proof.
  induction l as [| y l IH]; intros s i x Hin; simpl in Hin; [contradiction |].
  destruct Hin as [Heq | Hin].
  - inversion Heq; subst. rewrite Nat.sub_diag. split; [lia | reflexivity].
  - destruct (IH _ _ _ Hin) as [Hle Hnth].
    split; [lia |].
    replace (i - s) with (S (i - S s)) by lia. exact Hnth.
Qed.

Lemma position_of_nth_error (i : nat) (l : list nat) :
  forall j, position_of i l = Some j -> nth_error l j = Some i.
Proof.
  induction l as [| k l IH]; intros j H; simpl in H; [discriminate |].
  destruct (k =? i) eqn:Hk.
  - inversion H; subst. apply Nat.eqb_eq in Hk. subst. reflexivity.
  - destruct (position_of i l) as [j' |]; [| discriminate].
    inversion H; subst. simpl. apply IH. reflexivity.
Qed.

Lemma position_of_seq (n : nat) :
  forall s i, s <= i < s + n -> position_of i (seq s n) = Some (i - s).
Proof.
  induction n as [| n IH]; intros s i Hi; [lia |]. simpl.
  destruct (s =? i) eqn:Hs.
  - apply Nat.eqb_eq in Hs. subst. rewrite Nat.sub_diag. reflexivity.
  - apply Nat.eqb_neq in Hs.
    rewrite (IH (S s) i) by lia. simpl. f_equal. lia.
Qed.

Lemma combine_seq_sorted (l : list A) :
  Sorted (ordered le) l ->
  forall s, Sorted (ordered (by_element le)) (combine (seq s (List.length l)) l).
Proof.
  induction 1 as [| x l Hsorted IH Hhd]; intros s; simpl; constructor.
  - apply IH.
  - destruct Hhd as [| y l Hxy]; simpl; constructor. exact Hxy.
Qed.

(** The element [sort_by] puts at the position [sorted_position] gives is
    the element that was at [i]. *)
Lemma sorted_position_nth_error (l : list A) (i j : nat) :
  sorted_position le l i = Some j ->
  exists x, nth_error l i = Some x /\ nth_error (sort_by le l) j = Some x.
Proof.
  unfold sorted_position, numbered. intros H.
  apply position_of_nth_error in H.
  rewrite nth_error_map in H.
  destruct (nth_error (sort_by (by_element le) _) j) as [[i' x] |] eqn:Hj;
    [| discriminate].
  simpl in H. inversion H; subst i'; clear H.
  exists x. split.
  - assert (Hin : In (i, x) (combine (seq 0 (List.length l)) l)).
    { assert (Hall : Forall (fun e => In e (combine (seq 0 (List.length l)) l))
                            (sort_by (by_element le)
                                     (combine (seq 0 (List.length l)) l))).
      { apply sort_by_Forall, Forall_forall. auto. }
      rewrite Forall_forall in Hall.
      exact (Hall (i, x) (nth_error_In _ _ Hj)). }
    apply in_combine_seq in Hin. rewrite Nat.sub_0_r in Hin. apply Hin.
  - rewrite <- (map_snd_combine_seq l 0) at 1.
    rewrite <- map_snd_sort_by, nth_error_map, Hj. reflexivity.
Qed.

Lemma in_insert_by (x y : nat * A) (l : list (nat * A)) :
  In y (x :: l) -> In y (insert_by (by_element le) x l).
Proof.
  induction l as [| z l IH]; simpl; [tauto |].
  destruct (by_element le x z); simpl; [tauto |].
  intros [Hx | [Hz | Hl]]; [right; apply IH; left; exact Hx | tauto |].
  right. apply IH. right. exact Hl.
Qed.

Lemma in_sort_by (y : nat * A) (l : list (nat * A)) :
  In y l -> In y (sort_by (by_element le) l).
Proof.
  induction l as [| x l IH]; simpl; [tauto |].
  intros [Hx | Hl]; apply in_insert_by; [left; exact Hx | right; apply IH, Hl].
Qed.

Lemma position_of_defined (i : nat) (l : list nat) :
  In i l -> exists j, position_of i l = Some j.
Proof.
  induction l as [| k l IH]; simpl; [tauto |].
  destruct (k =? i) eqn:Hk; [eauto |].
  intros [Heq | Hin]; [apply Nat.eqb_neq in Hk; contradiction |].
  destruct (IH Hin) as [j Hj]. rewrite Hj. simpl. eauto.
Qed.

Lemma nth_error_in_combine_seq (l : list A) :
  forall s i x,
    nth_error l i = Some x -> In (s + i, x) (combine (seq s (List.length l)) l).
Proof.
  induction l as [| y l IH]; intros s [| i] x Hx; simpl in *; try discriminate.
  - inversion Hx; subst. left. f_equal. lia.
  - right. replace (s + S i) with (S s + i) by lia. apply IH, Hx.
Qed.

(** Every element has a position after the sort. *)
Lemma sorted_position_defined (l : list A) (i : nat) (x : A) :
  nth_error l i = Some x -> exists j, sorted_position le l i = Some j.
Proof.
  intros Hx. unfold sorted_position, numbered.
  apply position_of_defined.
  apply (in_map fst _ (i, x)), in_sort_by.
  exact (nth_error_in_combine_seq l 0 i Hx).
Qed.

(** In a list that is in order every element keeps its position. *)
Lemma sorted_position_of_sorted (l : list A) (i : nat) :
  Sorted (ordered le) l -> i < List.length l -> sorted_position le l i = Some i.
Proof.
  intros Hsorted Hi. unfold sorted_position, numbered.
  rewrite sort_by_of_sorted by (apply combine_seq_sorted, Hsorted).
  rewrite map_fst_combine_seq, position_of_seq by lia.
  rewrite Nat.sub_0_r. reflexivity.
Qed.

End SortingNumbered.

Section SpecOptimizer.

(** Induction over a blueprint tree and all its children. *)
Lemma Blueprint_children_ind {L} (P : Blueprint L -> Prop) :
  (forall l, P (LeafBlueprint l)) ->
  (forall k cs, Forall P cs -> P (IntermediateBlueprint k cs)) ->
  forall b, P b.
Proof.
  intros Hleaf Hint.
  fix IH 1.
  intros [l | k cs].
  - apply Hleaf.
  - apply Hint.
    induction cs as [| c cs IHcs]; constructor; [apply IH | exact IHcs].
Qed.

Lemma cheaper_first_total (a b : Blueprint LeafState) :
  cheaper_first a b = false -> cheaper_first b a = true.
Proof.
  unfold cheaper_first. intros H.
  apply Nat.leb_gt in H. apply Nat.leb_le. lia.
Qed.

Lemma larger_first_total (a b : Blueprint LeafState) :
  larger_first a b = false -> larger_first b a = true.
Proof.
  unfold larger_first. intros H.
  apply Nat.leb_gt in H. apply Nat.leb_le. lia.
Qed.

Lemma map_fixed {A} (f : A -> A) (l : list A) :
  Forall (fun x => f x = x) l -> map f l = l.
Proof.
  induction 1 as [| x l Hx Hl IH]; simpl; [reflexivity |].
  rewrite Hx, IH. reflexivity.
Qed.

(** The optimizer of the spec on a tree it has optimized: nothing changes. *)
Lemma spec_optimize_idempotent (b : Blueprint LeafState) :
  spec_optimize (spec_optimize b) = spec_optimize b.
Proof.
  induction b as [l | k cs IH] using Blueprint_children_ind;
    [reflexivity |].
  assert (Hfixed : Forall (fun c => spec_optimize c = c) (map spec_optimize cs)).
  { induction IH as [| c cs Hc _ IHcs]; simpl; constructor; assumption. }
  destruct k; simpl;
    try (rewrite (map_fixed _ Hfixed); reflexivity).
  - rewrite (map_fixed _ (sort_by_Forall cheaper_first Hfixed)).
    rewrite (sort_by_idempotent _ cheaper_first_total). reflexivity.
  - rewrite (map_fixed _ (sort_by_Forall larger_first Hfixed)).
    rewrite (sort_by_idempotent _ larger_first_total). reflexivity.
Qed.

(** The optimizer of the spec moves nodes and changes none: a tree wants a
    global filter after it exactly when it did before. *)
Lemma spec_optimize_want_global_filter (b : Blueprint LeafState) :
  spec_want_global_filter (spec_optimize b) = spec_want_global_filter b.
Proof.
  induction b as [l | k cs IH] using Blueprint_children_ind;
    [reflexivity |].
  assert (Hmap : existsb spec_want_global_filter (map spec_optimize cs)
                 = existsb spec_want_global_filter cs).
  { induction IH as [| c cs Hc _ IHcs]; simpl; [reflexivity |].
    rewrite Hc, IHcs. reflexivity. }
  destruct k; simpl; rewrite ?existsb_sort_by; exact Hmap.
Qed.

Lemma spec_optimize_moves_from_step (i : nat) (place : BlueprintPtr)
      (k : BlueprintKind) (cs : list (Blueprint LeafState)) :
  spec_optimize_moves_from (i :: place) (IntermediateBlueprint k cs) =
  match nth_error cs i with
  | None => None
  | Some c =>
      match spec_child_position k (map spec_optimize cs) i,
            spec_optimize_moves_from place c with
      | Some j, Some place' => Some (j :: place')
      | _, _ => None
      end
  end.
Proof. reflexivity. Qed.

(** The child at [i] after the optimizer of the spec: it is the optimized
    child, at the position it was given, among children on which the
    optimizer changes nothing any more. *)
Lemma spec_optimize_child (k : BlueprintKind) (cs : list (Blueprint LeafState))
      (i j : nat) (c : Blueprint LeafState) :
  nth_error cs i = Some c ->
  spec_child_position k (map spec_optimize cs) i = Some j ->
  exists cs',
    spec_optimize (IntermediateBlueprint k cs) = IntermediateBlueprint k cs' /\
    nth_error cs' j = Some (spec_optimize c) /\
    spec_child_position k (map spec_optimize cs') j = Some j.
Proof.
  intros Hc Hj.
  assert (Hfixed : Forall (fun c => spec_optimize c = c) (map spec_optimize cs)).
  { apply Forall_forall. intros c' Hin. apply in_map_iff in Hin.
    destruct Hin as [c0 [<- _]]. apply spec_optimize_idempotent. }
  assert (Hoptimized : nth_error (map spec_optimize cs) i = Some (spec_optimize c))
    by (rewrite nth_error_map, Hc; reflexivity).
  assert (Hsorted :
            forall le,
              (forall a b, le a b = false -> le b a = true) ->
              sorted_position le (map spec_optimize cs) i = Some j ->
              let cs' := sort_by le (map spec_optimize cs) in
              nth_error cs' j = Some (spec_optimize c) /\
              sorted_position le (map spec_optimize cs') j = Some j).
  { intros le Htotal Hpos cs'. subst cs'.
    destruct (sorted_position_nth_error _ _ _ Hpos) as [x [Hx Hsorted]].
    rewrite Hoptimized in Hx. inversion Hx; subst x; clear Hx.
    split; [exact Hsorted |].
    rewrite (map_fixed _ (sort_by_Forall le Hfixed)).
    apply sorted_position_of_sorted.
    - apply sort_by_sorted, Htotal.
    - apply nth_error_Some. congruence. }
  destruct k; simpl in Hj |- *;
    try (inversion Hj; subst j; eexists; split; [reflexivity |];
         split; [exact Hoptimized | reflexivity]).
  - eexists. split; [reflexivity |].
    exact (Hsorted _ cheaper_first_total Hj).
  - eexists. split; [reflexivity |].
    exact (Hsorted _ larger_first_total Hj).
Qed.

(** The node [spec_optimize_moves_from] follows is the node the optimizer
    of the spec was given, optimized. *)
Lemma spec_optimize_moves_follows (place : BlueprintPtr) :
  forall b place1,
    spec_optimize_moves_from place b = Some place1 ->
    exists node,
      deref place b = Some node /\
      deref place1 (spec_optimize b) = Some (spec_optimize node).
Proof.
  induction place as [| i place IH]; intros b place1 H.
  - inversion H; subst. exists b. split; reflexivity.
  - destruct b as [l | k cs]; [discriminate |].
    rewrite spec_optimize_moves_from_step in H.
    destruct (nth_error cs i) as [c |] eqn:Hc; [| discriminate].
    destruct (spec_child_position k (map spec_optimize cs) i) as [j |] eqn:Hj;
      [| discriminate].
    destruct (spec_optimize_moves_from place c) as [place' |] eqn:Hplace;
      [| discriminate].
    inversion H; subst place1; clear H.
    destruct (IH _ _ Hplace) as [node [Hnode Hfollows]].
    destruct (spec_optimize_child _ _ _ Hc Hj) as (cs' & Hcs' & Hchild & _).
    exists node. split.
    + simpl. rewrite Hc. exact Hnode.
    + rewrite Hcs'. simpl. rewrite Hchild. exact Hfollows.
Qed.

(** The optimizer of the spec loses no node of the tree. *)
Lemma spec_optimize_moves_defined (place : BlueprintPtr) :
  forall b node,
    deref place b = Some node ->
    exists place1, spec_optimize_moves_from place b = Some place1.
Proof.
  induction place as [| i place IH]; intros b node H.
  - exists []. reflexivity.
  - destruct b as [l | k cs]; [discriminate |].
    rewrite spec_optimize_moves_from_step. simpl in H.
    destruct (nth_error cs i) as [c |] eqn:Hc; [| discriminate].
    destruct (IH _ _ H) as [place1 Hplace1]. rewrite Hplace1.
    assert (Hposition :
              exists j, spec_child_position k (map spec_optimize cs) i = Some j).
    { assert (Hoptimized :
                nth_error (map spec_optimize cs) i = Some (spec_optimize c))
        by (rewrite nth_error_map, Hc; reflexivity).
      destruct k; simpl; eauto;
        exact (sorted_position_defined _ _ _ Hoptimized). }
    destruct Hposition as [j Hj]. rewrite Hj. eauto.
Qed.

(** On a tree the optimizer of the spec has optimized, it moves nothing. *)
Lemma spec_optimize_moves_settled (place : BlueprintPtr) :
  forall b place1,
    spec_optimize_moves_from place b = Some place1 ->
    spec_optimize_moves_from place1 (spec_optimize b) = Some place1.
Proof.
  induction place as [| i place IH]; intros b place1 H.
  - inversion H; subst. reflexivity.
  - destruct b as [l | k cs]; [discriminate |].
    rewrite spec_optimize_moves_from_step in H.
    destruct (nth_error cs i) as [c |] eqn:Hc; [| discriminate].
    destruct (spec_child_position k (map spec_optimize cs) i) as [j |] eqn:Hj;
      [| discriminate].
    destruct (spec_optimize_moves_from place c) as [place' |] eqn:Hplace;
      [| discriminate].
    inversion H; subst place1; clear H.
    destruct (spec_optimize_child _ _ _ Hc Hj) as (cs' & Hcs' & Hchild & Hstays).
    rewrite Hcs', spec_optimize_moves_from_step, Hchild, Hstays.
    rewrite (IH _ _ Hplace). reflexivity.
Qed.

(** A pointer the optimizer of the spec has moved stays where it is when
    the optimizer runs again. *)
Lemma moved_by_spec_optimize_settled (b : Blueprint LeafState)
      (ptr : WhiteListProviderPtr) :
  moved_by (spec_optimize_moves (spec_optimize b))
           (moved_by (spec_optimize_moves b) ptr) =
  moved_by (spec_optimize_moves b) ptr.
Proof.
  destruct ptr as [| place |]; simpl; try reflexivity.
  unfold spec_optimize_moves.
  destruct (spec_optimize_moves_from place b) as [place1 |] eqn:Hplace;
    simpl; [| reflexivity].
  rewrite (spec_optimize_moves_settled _ _ Hplace). reflexivity.
Qed.

End SpecOptimizer.

(** C8. With the optimizer and the estimates of the spec: on a blueprint in
    which no node wants a global filter, [optimize] runs the optimization
    once and attaches no filter, and a second [optimize] after it leaves the
    query exactly as the first one left it: the same blueprint tree, hence
    the same hit-count estimate, and the provider pointer at the same
    object. *)
Theorem optimize_idempotent {T} (C : Collaborators T LeafState)
        (q : Query T LeafState) (blueprint : Blueprint LeafState) :
  _blueprint q = Some blueprint ->
  spec_want_global_filter blueprint = false ->
  let once :=
    blueprint_objects_moved (spec_optimize_moves blueprint)
      (set_blueprint (Some (spec_optimize blueprint)) q) in
  optimize (C := with_spec_blueprints C) q =
  Some (tt, once, [OptimizeBlueprint]) /\
  exists twice,
    optimize (C := with_spec_blueprints C) once =
    Some (tt, twice, [OptimizeBlueprint]) /\
    twice = once /\
    _blueprint twice = _blueprint once /\
    estimate (C := with_spec_blueprints C) twice =
    estimate (C := with_spec_blueprints C) once.
Proof.
  intros Hbp Hwants once.
  split.
  - rewrite optimize_run, Hbp. simpl.
    rewrite spec_optimize_want_global_filter, Hwants. reflexivity.
  - exists once. split; [| repeat split].
    rewrite optimize_run. unfold once at 1. simpl.
    rewrite spec_optimize_idempotent.
    rewrite spec_optimize_want_global_filter, Hwants.
    unfold once, blueprint_objects_moved, set_white_list_provider,
      set_blueprint. simpl.
    destruct (_white_list_provider q) as [ptr |]; simpl; [| reflexivity].
    rewrite moved_by_spec_optimize_settled. reflexivity.
Qed.


(** * The statements on concrete queries *)


(** Injecting a location term into [Rank(eager, lazy)]. *)
Lemma inject_algorithm_witness :
  let location := ProtonLocationTerm "2,100,10,0" "view1_zcurve" (-1) 100 in
  inject (Intermediate Rank [Term Eager; Term Lazy]) location =
  Some (Intermediate Rank
          [Intermediate And [Term Eager; location]; Term Lazy]).
Proof.
  intros location.
  exact (proj1 (proj2 (inject_algorithm
                         (Intermediate Rank [Term Eager; Term Lazy]) location))
               Rank (Term Eager) [Term Lazy] (or_introl eq_refl) eq_refl).
Defined.

(** The white list, merged in as the second child, is the cheaper child:
    the first run moves it to the front, and the filter is asked of it
    there. With a provider pointer whose object is destroyed, the same call
    is undefined. *)
Lemma optimize_protocol_witness :
  _blueprint filter_wanting_query =
  Some (IntermediateBlueprint AndBlueprint
          [LeafBlueprint (mkLeafState 5 true);
           LeafBlueprint (mkLeafState 3 false)]) /\
  optimize (C := with_spec_blueprints demo) filter_wanting_query =
  Some (tt,
        mkQuery None
                (Some (IntermediateBlueprint AndBlueprint
                         [LeafBlueprint (mkLeafState 3 false);
                          LeafBlueprint (mkLeafState 5 true)]))
                Location_default None (Some (in_blueprint [0])),
        [OptimizeBlueprint; SetGlobalFilter true; OptimizeBlueprint]) /\
  optimize (C := with_spec_blueprints demo)
           (set_white_list_provider (Some destroyed) filter_wanting_query) =
  None.
Proof.
  split; [reflexivity |].
  split.
  - exact (proj1 (proj2 (proj1 (proj2 (optimize_protocol
                                         (C := with_spec_blueprints demo)
                                         filter_wanting_query eq_refl))
                               eq_refl))
                 (in_blueprint [0]) (LeafBlueprint (mkLeafState 3 false))
                 eq_refl eq_refl).
  - exact (proj2 (proj2 (proj1 (proj2 (optimize_protocol
                                         (C := with_spec_blueprints demo)
                                         (set_white_list_provider
                                            (Some destroyed)
                                            filter_wanting_query)
                                         eq_refl))
                               eq_refl))
                 destroyed eq_refl eq_refl).
Defined.

(** The location string of the spec, on a single term. *)
Lemma location_injection_witness :
  find ":"%char "view1:2,100,10,0" = Some 5 /\
  addLocationNode (C := demo) "view1:2,100,10,0" (Term Eager, Location_default) =
  Some (tt,
        (Intermediate And
           [Term Eager;
            ProtonLocationTerm "2,100,10,0" "view1_zcurve" (-1) 100],
         mkLocation "view1_zcurve" 100 10 0 true),
        [InjectLocationTerm]).
Proof.
  split; [reflexivity |].
  exact (proj1 (location_injection (C := demo) "view1:2,100,10,0"
                                   (Term Eager) Location_default
                                   eq_refl eq_refl)
               eq_refl).
Defined.

Lemma view1_is_rejected :
  rejected (C := demo) "view1" [warn_no_attribute "view1"].
Proof.
  apply rejected_no_separator.
  - discriminate.
  - simpl. intros H.
    repeat (destruct H as [H | H]; [discriminate H |]). exact H.
Defined.

(** A location string without [':'], on a single term. *)
Lemma location_injector_rejects_witness :
  addLocationNode (C := demo) "view1" (Term Eager, Location_default) =
  Some (tt, (Term Eager, Location_default), [warn_no_attribute "view1"]).
Proof.
  exact (proj1 (location_injector_rejects (C := demo) view1_is_rejected)
               (Term Eager) Location_default).
Defined.

(** A stack nothing can be made of, and the stack of a single term. *)
Lemma buildTree_failure_signalling_witness :
  demo_create "X" = None /\
  buildTree (C := demo) "X" "view1:2,100,10,0" tt tt false false Query_new =
  Some (false, Query_new, [CreateQueryTree]) /\
  demo_create "T" = Some (Term Eager) /\
  exists q' tr,
    buildTree (C := demo) "T" "view1:2,100,10,0" tt tt false false Query_new =
    Some (true, q', tr).
Proof.
  split; [reflexivity |].
  split.
  - exact (proj1 (buildTree_failure_signalling
                    (C := demo) "X" "view1:2,100,10,0" tt tt false false
                    Query_new)
                 eq_refl).
  - split; [reflexivity |].
    exact (proj2 (proj2 (buildTree_failure_signalling
                           (C := demo) "T" "view1:2,100,10,0" tt tt false false
                           Query_new)
                        (Term Eager) eq_refl)
                 eq_refl).
Defined.

(** C7, the claim as it stands, fails: a location that asks for pruning on
    distance only is no ranking-distance location, and the tree of the
    one-term stack ["T"] still ends with two term leaves. *)
Lemma term_count_counterexample :
  passes_keep_terms (C := demo) /\
  ranks_on_distance (C := demo) "view1:2,100,10,1" = false /\
  ~ term_count_postcondition (C := demo) (ranks_on_distance (C := demo))
      "T" "view1:2,100,10,1" tt tt false false Query_new.
Proof.
  split; [exact demo_keeps_terms |]. split; [reflexivity |].
  intros H.
  destruct (H (Term Eager) eq_refl eq_refl)
    as (q' & tr & built & Hrun & Htree & Hcount).
  vm_compute in Hrun. inversion Hrun; subst q' tr; clear Hrun.
  simpl in Htree. inversion Htree; subst built; clear Htree.
  vm_compute in Hcount. discriminate Hcount.
Qed.

(** The same input under the amended count: two term leaves, one of the
    expression and one for the location. *)
Lemma term_count_with_location_witness :
  passes_keep_terms (C := demo) /\
  exists q' tr built,
    buildTree (C := demo) "T" "view1:2,100,10,1" tt tt false false Query_new =
    Some (true, q', tr) /\
    _query_tree q' = Some built /\
    termCount built = 1 + 1.
Proof.
  split; [exact demo_keeps_terms |].
  exact (term_count_with_location (C := demo)
           "T" "view1:2,100,10,1" tt tt false false Query_new demo_keeps_terms
           (tree := Term Eager) eq_refl eq_refl).
Defined.

(** C9, the claim as it stands, fails: with split unpacking asked for, the
    term of the stack ["T"] is annotated [Split] when the white list is
    supplied before [buildTree] and [Lazy] when it is supplied after. *)
Lemma supply_time_counterexample :
  ~ unpacking_independent_of_supply_time (C := demo)
      (LeafBlueprint (mkLeafState 8 false)) "T" "" tt tt true false Query_new.
Proof.
  unfold unpacking_independent_of_supply_time. vm_compute. discriminate.
Qed.

(** The same input under the amended claim: the two annotations, and the
    white list supplied after [buildTree] merged by [reserveHandles] into the
    blueprint of the one term. *)
Lemma supply_time_decides_has_white_list_witness :
  let whiteList := LeafBlueprint (mkLeafState 8 false) in
  option_map (@_query_tree UnpackMode LeafState)
    (state_of (supplied_before (C := demo) whiteList "T" "" tt tt true false
                               Query_new)) = Some (Some (Term Split)) /\
  option_map (@_query_tree UnpackMode LeafState)
    (state_of (supplied_after (C := demo) whiteList "T" "" tt tt true false
                              Query_new)) = Some (Some (Term Lazy)) /\
  exists q_after,
    state_of (supplied_after (C := demo) whiteList "T" "" tt tt true false
                             Query_new) = Some q_after /\
    reserveHandles (C := demo) tt 100 0 q_after =
    Some (1,
          mkQuery (Some (Term Lazy))
                  (Some (IntermediateBlueprint AndBlueprint
                           [LeafBlueprint (mkLeafState 1 false); whiteList]))
                  Location_default None (Some (in_blueprint [1])),
          [ReserveMatchData; BuildBlueprint; SetDocIdLimit 100]).
Proof.
  intros whiteList.
  pose proof (supply_time_decides_has_white_list
                (C := demo) whiteList "T" "" tt tt true false Query_new
                (tree := Term Eager) (located := Term Eager)
                (fef_location := Location_default) (log := [])
                eq_refl eq_refl) as H.
  split; [exact (proj1 H) |]. split; [exact (proj1 (proj2 H)) |].
  destruct H as (_ & _ & _ & _ & _ & _ & _ & q_after & Hafter & Hreserve).
  exists q_after. split; [exact Hafter |].
  assert (Hwalk : lastConsequtiveRankOrAndNot
                    (LeafBlueprint (mkLeafState 1 false)) <> None)
    by discriminate.
  destruct (Hreserve tt 100 0 Hwalk)
    as (merged & place & Hmerge & Hplace & _ & Hrun).
  inversion Hmerge; subst merged. inversion Hplace; subst place.
  exact Hrun.
Defined.

(** A fresh query, a stack nothing can be made of, a vector that held two
    pointers to other descriptors: one pointer, to a descriptor that is not
    valid. *)
Lemma extractLocations_single_witness :
  exists result q' tr,
    buildTree (C := demo) "X" "view1" tt tt false false Query_new =
    Some (result, q', tr) /\
    extractLocations [addr_elsewhere 1; addr_elsewhere 2] q' =
    Some ([addr_location], q', []) /\
    option_map isValid (deref_location q' addr_location) = Some false.
Proof.
  destruct (proj2 (proj2 (proj2 (extractLocations_single
                                   (C := demo) Query_new
                                   [addr_elsewhere 1; addr_elsewhere 2])))
                  "X"%string "view1"%string [] tt tt false false
                  (or_introl eq_refl))
    as (result & q' & tr & Hrun & Hextract & _ & Hvalid).
  exists result, q', tr.
  split; [exact Hrun |]. split; [exact Hextract | exact (Hvalid eq_refl)].
Defined.

Lemma optimize_idempotent_witness :
  let optimized :=
    IntermediateBlueprint OrBlueprint
      [LeafBlueprint (mkLeafState 9 false);
       IntermediateBlueprint AndBlueprint
         [LeafBlueprint (mkLeafState 4 false);
          LeafBlueprint (mkLeafState 7 false)];
       LeafBlueprint (mkLeafState 2 false)] in
  optimize (C := with_spec_blueprints demo) plain_query =
  Some (tt, set_blueprint (Some optimized) plain_query, [OptimizeBlueprint]) /\
  optimize (C := with_spec_blueprints demo)
           (set_blueprint (Some optimized) plain_query) =
  Some (tt, set_blueprint (Some optimized) plain_query, [OptimizeBlueprint]).
Proof.
  intros optimized.
  destruct (optimize_idempotent demo plain_query eq_refl eq_refl)
    as [Hfirst (twice & Hsecond & Hsame & _)].
  split; [exact Hfirst |].
  rewrite Hsame in Hsecond. exact Hsecond.
Defined.

(** * More properties of query.cpp *)

(** ** Injection *)

Section InjectMore.

Context {T : Type}.

(** X1. An injection that is defined keeps every term leaf of the tree and
    adds the term leaves of the injected node, nothing else. *)
Theorem inject_keeps_terms (query to_inject result : Node T) :
  inject query to_inject = Some result ->
  termCount result = termCount query + termCount to_inject.
Proof. apply termCount_inject. Qed.

(** X2. Where the injected node ends up: after a defined injection the node
    on the matching side of the tree is an [And] whose last child is the
    injected node; its other children are those of the [And] that was on
    the matching side before, or the one node, no [And], that was there. *)
Theorem inject_lands_in_conjunction (query to_inject result : Node T) :
  inject query to_inject = Some result ->
  exists before,
    matching_side result = Some (Intermediate And (before ++ [to_inject])) /\
    (matching_side query = Some (Intermediate And before) \/
     exists m, matching_side query = Some m /\ isAnd m = false /\ before = [m]).
Proof.
  revert result.
  induction query as [d | loc view id weight | k | k first rest IH]
    using Node_first_child_ind; intros result H.
  - inversion H; subst. exists [Term d]. split; [reflexivity |].
    right. eexists. repeat split.
  - inversion H; subst. exists [ProtonLocationTerm loc view id weight].
    split; [reflexivity |]. right. eexists. repeat split.
  - destruct k; simpl in H; inversion H; subst;
      first [ solve [exists []; split; [reflexivity | left; reflexivity]]
            | solve [eexists [_]; split;
                     [reflexivity | right; eexists; repeat split]] ].
  - destruct k; simpl in H;
      try (inversion H; subst; eexists [_]; split;
           [reflexivity | right; eexists; repeat split]; fail).
    + inversion H; subst. exists (first :: rest).
      split; [reflexivity | left; reflexivity].
    + destruct (inject first to_inject) as [injected |]; [| discriminate].
      inversion H; subst. simpl.
      destruct (IH injected eq_refl) as [before [Hr Hq]].
      exists before. split; assumption.
    + destruct (inject first to_inject) as [injected |]; [| discriminate].
      inversion H; subst. simpl.
      destruct (IH injected eq_refl) as [before [Hr Hq]].
      exists before. split; assumption.
Qed.

(** X3. Injections compose: after a defined injection a second one is
    always defined; it makes no new [And] but appends to the one the first
    injection left on the matching side, and the tree then has the term
    leaves of the original tree and of both injected nodes. *)
Theorem inject_twice (query first_injected second_injected once : Node T) :
  inject query first_injected = Some once ->
  exists before twice,
    matching_side once =
    Some (Intermediate And (before ++ [first_injected])) /\
    inject once second_injected = Some twice /\
    matching_side twice =
    Some (Intermediate And (before ++ [first_injected; second_injected])) /\
    termCount twice =
    termCount query + termCount first_injected + termCount second_injected.
Proof.
  intros H.
  assert (Hshape : exists before twice,
             matching_side once =
             Some (Intermediate And (before ++ [first_injected])) /\
             inject once second_injected = Some twice /\
             matching_side twice =
             Some (Intermediate And
                     (before ++ [first_injected; second_injected]))).
  { revert once H.
    induction query as [d | loc view id weight | k | k first rest IH]
      using Node_first_child_ind; intros once H.
    - inversion H; subst. exists [Term d]. eexists. repeat split.
    - inversion H; subst. exists [ProtonLocationTerm loc view id weight].
      eexists. repeat split.
    - destruct k; simpl in H; inversion H; subst;
        first [ solve [exists []; eexists; repeat split]
              | solve [eexists [_]; eexists; repeat split] ].
    - destruct k; simpl in H;
        try (inversion H; subst; eexists [_]; eexists; repeat split; fail).
      + inversion H; subst. exists (first :: rest). eexists.
        split; [reflexivity |]. split; [reflexivity |].
        simpl. rewrite <- app_assoc. reflexivity.
      + destruct (inject first first_injected) as [injected |];
          [| discriminate].
        inversion H; subst. simpl.
        destruct (IH injected eq_refl) as (before & twice & H1 & H2 & H3).
        exists before. eexists. rewrite H2.
        split; [exact H1 |]. split; [reflexivity | exact H3].
      + destruct (inject first first_injected) as [injected |];
          [| discriminate].
        inversion H; subst. simpl.
        destruct (IH injected eq_refl) as (before & twice & H1 & H2 & H3).
        exists before. eexists. rewrite H2.
        split; [exact H1 |]. split; [reflexivity | exact H3]. }
  destruct Hshape as (before & twice & H1 & H2 & H3).
  exists before, twice.
  split; [exact H1 |]. split; [exact H2 |]. split; [exact H3 |].
  rewrite (termCount_inject _ _ H2), (termCount_inject _ _ H). reflexivity.
Qed.

End InjectMore.

Lemma inject_keeps_terms_witness :
  let location := @ProtonLocationTerm UnpackMode "2,100,10,0" "view1_zcurve" (-1) 100 in
  termCount (Intermediate Rank
               [Intermediate And [Term Eager; location]; Term Lazy]) = 2 + 1.
Proof.
  intros location.
  exact (inject_keeps_terms
           (Intermediate Rank [Term Eager; Term Lazy]) location eq_refl).
Defined.

Lemma inject_lands_in_conjunction_witness :
  let location := @ProtonLocationTerm UnpackMode "2,100,10,0" "view1_zcurve" (-1) 100 in
  exists before,
    matching_side (Intermediate Rank
                     [Intermediate And [Term Eager; location]; Term Lazy]) =
    Some (Intermediate And (before ++ [location])) /\
    (matching_side (Intermediate Rank [Term Eager; Term Lazy]) =
     Some (Intermediate And before) \/
     exists m, matching_side (Intermediate Rank [Term Eager; Term Lazy]) = Some m /\
               isAnd m = false /\ before = [m]).
Proof.
  intros location.
  exact (inject_lands_in_conjunction
           (Intermediate Rank [Term Eager; Term Lazy]) location eq_refl).
Defined.

Lemma inject_twice_witness :
  let a := @ProtonLocationTerm UnpackMode "2,100,10,0" "view1_zcurve" (-1) 100 in
  let b := @ProtonLocationTerm UnpackMode "2,7,8,1" "view2_zcurve" (-1) 100 in
  exists before twice,
    matching_side (Intermediate AndNot [Intermediate And [Term Eager; a]; Term Lazy]) =
    Some (Intermediate And (before ++ [a])) /\
    inject (Intermediate AndNot [Intermediate And [Term Eager; a]; Term Lazy]) b =
    Some twice /\
    matching_side twice = Some (Intermediate And (before ++ [a; b])) /\
    termCount twice = 2 + 1 + 1.
Proof.
  intros a b.
  exact (inject_twice (Intermediate AndNot [Term Eager; Term Lazy]) a b eq_refl).
Defined.

(** ** The location string and the descriptor *)

Lemma substring_whole (s : string) : substring 0 (String.length s) s = s.
Proof. induction s as [| a s IH]; simpl; [| rewrite IH]; reflexivity. Qed.

(** X4. How [addLocationNode] cuts the location string at the first [':']:
    the field name in front of it has the length [find] reports and no
    [':'] in it, and field name, [':'] and specification text put together
    are the location string again, so any further [':'] is part of the
    specification text. *)
Theorem location_string_split (location_str : string) (pos : nat) :
  find ":"%char location_str = Some pos ->
  (substr location_str 0 pos
     ++ String ":"%char (substr_from location_str (pos + 1)))%string
  = location_str /\
  find ":"%char (substr location_str 0 pos) = None /\
  String.length (substr location_str 0 pos) = pos.
Proof.
  unfold substr, substr_from. revert pos.
  induction location_str as [| a s IH]; intros pos H; simpl in H.
  - discriminate.
  - destruct (Ascii.eqb_spec a ":"%char) as [-> | Hne].
    + inversion H; subst pos. simpl.
      rewrite Nat.sub_0_r, substring_whole. repeat split.
    + destruct (find ":"%char s) as [p |]; [| discriminate].
      simpl in H. inversion H; subst pos.
      destruct (IH p eq_refl) as (Hcat & Hnone & Hlen).
      simpl. rewrite Hcat, Hnone, Hlen.
      destruct (Ascii.eqb_spec a ":"%char) as [Heq | _]; [contradiction |].
      repeat split.
Qed.

Lemma location_string_split_witness :
  (substr "a:b:c" 0 1 ++ String ":"%char (substr_from "a:b:c" (1 + 1)))%string
  = "a:b:c"%string /\
  substr_from "a:b:c" (1 + 1) = "b:c"%string.
Proof.
  split; [| reflexivity].
  exact (proj1 (location_string_split "a:b:c" eq_refl)).
Defined.

Section DescriptorFacts.

Context {T L : Type} {C : Collaborators T L}.

(** X5. What [addLocationNode] can do to the descriptor and to the tree when
    it returns: a valid descriptor stays valid; the descriptor is left as it
    was unless the location string asks for ranking on distance, and then it
    is valid and names the z-curve field of the text in front of the first
    [':']; the tree is left as it was unless the location string makes the
    injector add its term. *)
Theorem descriptor_only_gains_validity
        (location_str : string) (query_tree located : Node T)
        (fef_location updated : Location) (log : list Event) :
  addLocationNode location_str (query_tree, fef_location) =
  Some (tt, (located, updated), log) ->
  (isValid fef_location = true -> isValid updated = true) /\
  (updated = fef_location \/
   ranks_on_distance location_str = true /\ isValid updated = true /\
   exists pos, find ":"%char location_str = Some pos /\
               getAttribute updated =
               getZCurveFieldName (substr location_str 0 pos)) /\
  (located = query_tree \/ injects_location_term location_str = true).
Proof.
  intros H.
  assert (Hsame : updated = fef_location /\ located = query_tree ->
                  (isValid fef_location = true -> isValid updated = true) /\
                  (updated = fef_location \/
                   ranks_on_distance location_str = true /\
                   isValid updated = true /\
                   exists pos, find ":"%char location_str = Some pos /\
                               getAttribute updated =
                               getZCurveFieldName (substr location_str 0 pos)) /\
                  (located = query_tree \/
                   injects_location_term location_str = true)).
  { intros [-> ->]. split; [auto |]. split; left; reflexivity. }
  unfold ranks_on_distance, injects_location_term, location_request in *.
  destruct (empty location_str) eqn:Hempty.
  { unfold addLocationNode in H. rewrite Hempty in H.
    inversion H; subst. apply Hsame. split; reflexivity. }
  destruct (find ":"%char location_str) as [pos |] eqn:Hpos.
  2:{ unfold addLocationNode in H. rewrite Hempty, Hpos in H.
      inversion H; subst. apply Hsame. split; reflexivity. }
  destruct (Location_parse (substr_from location_str (pos + 1)))
    as [error | locationSpec] eqn:Hparse.
  { unfold addLocationNode in H. rewrite Hempty, Hpos, Hparse in H.
    inversion H; subst. apply Hsame. split; reflexivity. }
  rewrite (addLocationNode_parsed location_str _ _ Hpos Hparse) in H.
  cbv zeta in H.
  destruct (getRankOnDistance locationSpec).
  - destruct (inject query_tree _) as [t |]; [| discriminate].
    simpl in H. inversion H; subst; clear H. simpl.
    split; [reflexivity |].
    split; [| right; reflexivity].
    right. split; [reflexivity |]. split; [reflexivity |].
    exists pos. split; reflexivity.
  - destruct (getPruneOnDistance locationSpec).
    + destruct (inject query_tree _) as [t |]; [| discriminate].
      simpl in H. inversion H; subst; clear H. simpl.
      split; [auto |]. split; [left; reflexivity | right; reflexivity].
    + inversion H; subst. apply Hsame. split; reflexivity.
Qed.

(** [reserveHandles], run. *)
Lemma reserveHandles_run (q : Query T L)
      (requestContext : IRequestContext) (context : ISearchContext)
      (mdl : MatchDataLayout) :
  reserveHandles requestContext context mdl q =
  match _query_tree q with
  | None => None
  | Some tree =>
      let reserved := MatchDataReserveVisitor_visit mdl tree in
      let built := BlueprintBuilder_build requestContext (fst reserved) context in
      let limit := getDocIdLimit context in
      match _whiteListBlueprint q with
      | None =>
          Some (snd reserved,
                mkQuery (Some (fst reserved)) (Some built) (_location q) None
                        (option_map (moved_by (fun _ => None))
                                    (_white_list_provider q)),
                [ReserveMatchData; BuildBlueprint])
      | Some whiteList =>
          match mergeWhiteList built whiteList, whiteListPlace built with
          | Some merged, Some place =>
              Some (snd reserved,
                    mkQuery (Some (fst reserved))
                            (Some (setDocIdLimit limit merged))
                            (_location q) None
                            (option_map
                               (pointer_after_merge place
                                  (setDocIdLimit_moves limit merged))
                               (_white_list_provider q)),
                    [ReserveMatchData; BuildBlueprint; SetDocIdLimit limit])
          | _, _ => None
          end
      end
  end.
Proof.
  destruct q as [[tree |] bp loc [whiteList |] prov];
    unfold reserveHandles, bind, gets, nonnull, emit, modify, ret,
      set_query_tree, set_blueprint, set_whiteListBlueprint,
      blueprint_objects_destroyed, blueprint_objects_moved,
      white_list_moved_to, set_white_list_provider; simpl;
    try reflexivity.
  destruct (mergeWhiteList _ whiteList); [| reflexivity].
  destruct (whiteListPlace _); [| reflexivity].
  destruct prov as [[| place' |] |]; reflexivity.
Qed.

(** X6. [buildTree] starts afresh: what it does and returns does not depend
    on the tree the query held before, and a failed [buildTree] leaves the
    query without a tree even when it held one. It never touches the
    blueprint nor the white-list members, and on failure not the
    descriptor either. *)
Theorem buildTree_starts_afresh (stack location : string)
        (resolver : ViewResolver) (indexEnv : IIndexEnvironment)
        (split delay : bool) (q : Query T L) (previous : option (Node T)) :
  buildTree stack location resolver indexEnv split delay
            (set_query_tree previous q) =
  buildTree stack location resolver indexEnv split delay
            (set_query_tree None q) /\
  (forall result q' tr,
     buildTree stack location resolver indexEnv split delay
               (set_query_tree previous q) = Some (result, q', tr) ->
     _blueprint q' = _blueprint q /\
     _whiteListBlueprint q' = _whiteListBlueprint q /\
     _white_list_provider q' = _white_list_provider q /\
     (result = false -> _query_tree q' = None /\ _location q' = _location q)).
Proof.
  rewrite !buildTree_run. split; [reflexivity |].
  intros result q' tr. simpl.
  destruct (QueryTreeCreator_create stack) as [tree |].
  - destruct (addLocationNode location _)
      as [[[u [located fef_location]] log] |]; [| discriminate].
    intros H. inversion H; subst. simpl.
    repeat split; discriminate.
  - intros H. inversion H; subst. simpl. repeat split.
Qed.

(** X7. [reserveHandles] uses the white list up: after a [reserveHandles]
    that returned, the query holds no white-list blueprint any more. The
    provider pointer is null exactly when it was before; when the query held
    a white list, a pointer that pointed at it now points at it in the
    merged blueprint, where the setting of the doc id limit left it, and a
    pointer that pointed into the blueprint the query held before points at
    nothing, in either case. A second [reserveHandles] then builds the
    blueprint anew and merges nothing into it, whatever was merged the first
    time, and destroys the blueprint of the first call with all that was
    merged into it. *)
Theorem reserveHandles_consumes_white_list (q q1 : Query T L)
        (requestContext requestContext' : IRequestContext)
        (context context' : ISearchContext)
        (mdl mdl1 mdl' : MatchDataLayout) (tr1 : list Event) :
  reserveHandles requestContext context mdl q = Some (mdl1, q1, tr1) ->
  _whiteListBlueprint q1 = None /\
  isSome (_white_list_provider q1) = isSome (_white_list_provider q) /\
  (exists tree,
     _query_tree q = Some tree /\
     let reserved := MatchDataReserveVisitor_visit mdl tree in
     let built := BlueprintBuilder_build requestContext (fst reserved) context in
     let limit := getDocIdLimit context in
     match _whiteListBlueprint q with
     | Some whiteList =>
         exists merged place,
           mergeWhiteList built whiteList = Some merged /\
           whiteListPlace built = Some place /\
           deref place merged = Some whiteList /\
           _white_list_provider q1 =
           option_map (pointer_after_merge place
                         (setDocIdLimit_moves limit merged))
                      (_white_list_provider q)
     | None =>
         _white_list_provider q1 =
         option_map (moved_by (fun _ => None)) (_white_list_provider q)
     end) /\
  exists tree1,
    _query_tree q1 = Some tree1 /\
    let reserved := MatchDataReserveVisitor_visit mdl' tree1 in
    reserveHandles requestContext' context' mdl' q1 =
    Some (snd reserved,
          blueprint_objects_destroyed
            (set_blueprint
               (Some (BlueprintBuilder_build requestContext' (fst reserved)
                                             context'))
               (set_query_tree (Some (fst reserved)) q1)),
          [ReserveMatchData; BuildBlueprint]).
Proof.
  rewrite reserveHandles_run.
  destruct (_query_tree q) as [tree |]; [| discriminate].
  cbv zeta.
  assert (Hsecond : forall bp prov,
             let q1 := mkQuery (Some (fst (MatchDataReserveVisitor_visit mdl tree)))
                               bp (_location q) None prov in
             exists tree1,
               _query_tree q1 = Some tree1 /\
               let reserved := MatchDataReserveVisitor_visit mdl' tree1 in
               reserveHandles requestContext' context' mdl' q1 =
               Some (snd reserved,
                     blueprint_objects_destroyed
                       (set_blueprint
                          (Some (BlueprintBuilder_build requestContext'
                                   (fst reserved) context'))
                          (set_query_tree (Some (fst reserved)) q1)),
                     [ReserveMatchData; BuildBlueprint])).
  { intros bp prov q1'.
    eexists. split; [reflexivity |].
    cbv zeta. rewrite reserveHandles_run. reflexivity. }
  destruct (_whiteListBlueprint q) as [whiteList |].
  - pose proof (mergeWhiteList_place whiteList
                  (BlueprintBuilder_build requestContext
                     (fst (MatchDataReserveVisitor_visit mdl tree)) context))
      as Hderef.
    destruct (mergeWhiteList _ whiteList) as [merged |] eqn:Hmerge;
      [| discriminate].
    destruct (whiteListPlace _) as [place |] eqn:Hplace; [| discriminate].
    intros H. inversion H; subst; clear H.
    split; [reflexivity |].
    split; [destruct (_white_list_provider q); reflexivity |].
    split; [| apply Hsecond].
    exists tree. split; [reflexivity |].
    exists merged, place.
    split; [exact Hmerge |]. split; [exact Hplace |].
    split; [exact Hderef | reflexivity].
  - intros H. inversion H; subst; clear H.
    split; [reflexivity |].
    split; [destruct (_white_list_provider q); reflexivity |].
    split; [| apply Hsecond].
    exists tree. split; reflexivity.
Qed.

End DescriptorFacts.

Lemma descriptor_only_gains_validity_witness :
  ranks_on_distance (C := demo) "view1:2,100,10,0" = true /\
  isValid (mkLocation "view1_zcurve" 100 10 0 true) = true.
Proof.
  destruct (descriptor_only_gains_validity
              (C := demo) "view1:2,100,10,0" (Term Eager) Location_default
              (located := Intermediate And
                            [Term Eager;
                             ProtonLocationTerm "2,100,10,0" "view1_zcurve" (-1) 100])
              (updated := mkLocation "view1_zcurve" 100 10 0 true)
              (log := [InjectLocationTerm]) eq_refl)
    as (_ & [Hsame | (Hranks & Hvalid & _)] & _).
  - discriminate Hsame.
  - exact (conj Hranks Hvalid).
Defined.

(** A query that holds a tree and a white list. *)
Lemma buildTree_starts_afresh_witness :
  buildTree (C := demo) "X" "" tt tt false false
            (set_query_tree (Some (Term Lazy)) Query_new) =
  Some (false, Query_new, [CreateQueryTree]) /\
  _query_tree (@Query_new UnpackMode LeafState) = None.
Proof.
  destruct (buildTree_starts_afresh
              (C := demo) "X" "" tt tt false false Query_new (Some (Term Lazy)))
    as [Hsame Hframe].
  split; [rewrite Hsame; reflexivity |].
  exact (proj1 (proj2 (proj2 (proj2 (Hframe false Query_new [CreateQueryTree]
                                            eq_refl))) eq_refl)).
Defined.

(** A query that holds a term and a white list its provider pointer points
    at: the first call leaves the pointer at the second child of the merged
    blueprint, the second call leaves it pointing at nothing. *)
Lemma reserveHandles_consumes_white_list_witness :
  let q := mkQuery (Some (Term Eager)) None Location_default
                   (Some (LeafBlueprint (mkLeafState 8 false)))
                   (Some in_whiteListBlueprint) in
  exists q1 tree1,
    reserveHandles (C := demo) tt 100 0 q =
    Some (1, q1, [ReserveMatchData; BuildBlueprint; SetDocIdLimit 100]) /\
    _whiteListBlueprint q1 = None /\
    _white_list_provider q1 = Some (in_blueprint [1]) /\
    pointee q1 (in_blueprint [1]) = Some (LeafBlueprint (mkLeafState 8 false)) /\
    _query_tree q1 = Some tree1 /\
    state_of (reserveHandles (C := demo) tt 100 1 q1) =
    Some (mkQuery (Some (Term Eager))
                  (Some (LeafBlueprint (mkLeafState 1 false)))
                  Location_default None (Some destroyed)).
Proof.
  intros q.
  pose (q1 := mkQuery (Some (Term Eager))
                (Some (IntermediateBlueprint AndBlueprint
                         [LeafBlueprint (mkLeafState 1 false);
                          LeafBlueprint (mkLeafState 8 false)]))
                Location_default None
                (Some (in_blueprint [1]))).
  destruct (reserveHandles_consumes_white_list
              (C := demo) q (q1 := q1) tt tt 100 100 0 (mdl1 := 1) 1
              (tr1 := [ReserveMatchData; BuildBlueprint; SetDocIdLimit 100])
              eq_refl)
    as (Hnone & _ & _ & tree1 & Htree & Hsecond).
  exists q1, tree1.
  split; [reflexivity |]. split; [exact Hnone |].
  split; [reflexivity |]. split; [reflexivity |].
  split; [exact Htree |].
  cbv zeta in Hsecond. rewrite Hsecond.
  unfold q1 in Htree. simpl in Htree. inversion Htree; subst tree1.
  reflexivity.
Defined.

(** ** More on the white-list merge *)

Section MergeMore.

Context {L : Type}.

Lemma mergeWhiteList_chain (blueprint : Blueprint L) :
  forall whiteList merged,
    mergeWhiteList blueprint whiteList = Some merged ->
    exists n target post,
      chain_length blueprint = Some n /\
      deref (repeat 0 n) blueprint = Some target /\
      deref (repeat 0 n) merged =
      Some (IntermediateBlueprint AndBlueprint [target; whiteList]) /\
      leaves blueprint = leaves target ++ post /\
      leaves merged = leaves target ++ leaves whiteList ++ post /\
      (asRankOrAndNot blueprint = true ->
       chain_length merged = chain_length blueprint).
Proof.
  induction blueprint as [l | k | k first rest IH]
    using Blueprint_first_child_ind; intros whiteList merged H;
    rewrite mergeWhiteList_step in H.
  - simpl in H. inversion H; subst.
    exists 0, (LeafBlueprint l), []. simpl. repeat split; discriminate.
  - simpl in H. destruct (isRankOrAndNotKind k) eqn:Hk; [discriminate |].
    inversion H; subst.
    exists 0, (IntermediateBlueprint k []), []. simpl. rewrite Hk.
    repeat split; discriminate.
  - simpl in H. simpl chain_length.
    destruct (isRankOrAndNotKind k) eqn:Hk.
    + destruct (asRankOrAndNot first) eqn:Hfirst.
      * destruct (mergeWhiteList first whiteList) as [merged' |] eqn:Hm;
          [| discriminate].
        simpl in H. inversion H; subst; clear H.
        destruct (IH whiteList merged' Hm)
          as (n & target & post & Hn & Hd & Hd' & Hl & Hl' & Hc).
        exists (S n), target, (post ++ flat_map leaves rest).
        rewrite Hn. simpl. rewrite Hk, (Hc eq_refl), Hn, Hl, Hl'.
        repeat split; try assumption.
        -- rewrite <- app_assoc. reflexivity.
        -- rewrite <- !app_assoc. reflexivity.
      * inversion H; subst; clear H.
        apply chain_length_zero in Hfirst.
        exists 1, first, (flat_map leaves rest).
        rewrite Hfirst. simpl. rewrite Hk. simpl.
        repeat split. rewrite app_nil_r, <- app_assoc. reflexivity.
    + inversion H; subst; clear H.
      exists 0, (IntermediateBlueprint k (first :: rest)), [].
      simpl. rewrite Hk. rewrite !app_nil_r.
      repeat split; discriminate.
Qed.

(** X8. The merge loses nothing and moves nothing: the leaves of the merged
    tree, left to right, are those of the tree before with the leaves of
    the white list put in right behind the leaves of the matching side,
    the node under the chain of [Rank]/[AndNot] nodes. *)
Theorem merge_keeps_leaves (blueprint whiteList merged : Blueprint L) :
  mergeWhiteList blueprint whiteList = Some merged ->
  exists n target post,
    chain_length blueprint = Some n /\
    deref (repeat 0 n) blueprint = Some target /\
    leaves blueprint = leaves target ++ post /\
    leaves merged = leaves target ++ leaves whiteList ++ post.
Proof.
  intros H.
  destruct (mergeWhiteList_chain _ _ H)
    as (n & target & post & Hn & Hd & _ & Hl & Hl' & _).
  exists n, target, post. repeat split; assumption.
Qed.

(** X9. The merge leaves the chain as it is: on a [Rank]/[AndNot] root,
    [lastConsequtiveRankOrAndNot] finds in the merged tree the node it found
    before, and the first child of that node is now the [And] of its old
    first child and the white list. A further merge would therefore go to
    the same place. *)
Theorem merge_keeps_chain (blueprint whiteList merged : Blueprint L)
        (p : BlueprintPtr) :
  lastConsequtiveRankOrAndNot blueprint = Some (Some p) ->
  mergeWhiteList blueprint whiteList = Some merged ->
  lastConsequtiveRankOrAndNot merged = Some (Some p) /\
  exists first,
    deref (p ++ [0]) blueprint = Some first /\
    deref (p ++ [0]) merged =
    Some (IntermediateBlueprint AndBlueprint [first; whiteList]).
Proof.
  intros Hlast H.
  rewrite lastConsequtiveRankOrAndNot_spec in Hlast.
  destruct (mergeWhiteList_chain _ _ H)
    as (n & target & post & Hn & Hd & Hd' & _ & _ & Hc).
  rewrite Hn in Hlast. destruct n as [| n]; [discriminate |].
  inversion Hlast; subst p; clear Hlast.
  assert (Hroot : asRankOrAndNot blueprint = true).
  { destruct (asRankOrAndNot blueprint) eqn:E; [reflexivity |].
    apply chain_length_zero in E. congruence. }
  split.
  - rewrite lastConsequtiveRankOrAndNot_spec, (Hc Hroot), Hn. reflexivity.
  - exists target.
    assert (Hsplit : repeat 0 n ++ [0] = repeat 0 (S n))
      by (rewrite <- repeat_cons; reflexivity).
    rewrite Hsplit. split; assumption.
Qed.

End MergeMore.

Lemma merge_keeps_leaves_witness :
  let leaf n := LeafBlueprint n in
  leaves (IntermediateBlueprint RankBlueprint
            [IntermediateBlueprint AndNotBlueprint
               [IntermediateBlueprint AndBlueprint [leaf 1; leaf 9; leaf 8];
                leaf 2];
             leaf 3]) = [1; 9; 8; 2; 3] /\
  exists n target post,
    chain_length (IntermediateBlueprint RankBlueprint
                    [IntermediateBlueprint AndNotBlueprint [leaf 1; leaf 2];
                     leaf 3]) = Some n /\
    deref (repeat 0 n)
          (IntermediateBlueprint RankBlueprint
             [IntermediateBlueprint AndNotBlueprint [leaf 1; leaf 2]; leaf 3])
    = Some target /\
    [1; 2; 3] = leaves target ++ post /\
    [1; 9; 8; 2; 3] = leaves target ++ [9; 8] ++ post.
Proof.
  intros leaf. split; [reflexivity |].
  exact (merge_keeps_leaves
           (IntermediateBlueprint RankBlueprint
              [IntermediateBlueprint AndNotBlueprint [leaf 1; leaf 2]; leaf 3])
           (IntermediateBlueprint OrBlueprint [leaf 9; leaf 8])
           eq_refl).
Defined.

Lemma merge_keeps_chain_witness :
  let leaf n := LeafBlueprint n in
  let merged :=
    IntermediateBlueprint RankBlueprint
      [IntermediateBlueprint AndNotBlueprint
         [IntermediateBlueprint AndBlueprint [leaf 1; leaf 9]; leaf 2];
       leaf 3] in
  lastConsequtiveRankOrAndNot merged = Some (Some [0]) /\
  exists first,
    deref ([0] ++ [0])
          (IntermediateBlueprint RankBlueprint
             [IntermediateBlueprint AndNotBlueprint [leaf 1; leaf 2]; leaf 3])
    = Some first /\
    deref ([0] ++ [0]) merged =
    Some (IntermediateBlueprint AndBlueprint [first; leaf 9]).
Proof.
  intros leaf merged.
  exact (merge_keeps_chain
           (IntermediateBlueprint RankBlueprint
              [IntermediateBlueprint AndNotBlueprint [leaf 1; leaf 2]; leaf 3])
           (leaf 9) (merged := merged) (p := [0]) eq_refl eq_refl).
Defined.

(** ** Sequences of calls *)

Lemma precedes_app (a b : Event) (tr t : list Event) :
  precedes a b tr -> In a tr \/ ~ In b t -> precedes a b (tr ++ t).
Proof.
  intros Htr Hside pre post Heq.
  apply app_eq_app in Heq.
  destruct Heq as [l [[Htr' Hrest] | [Hpre Ht]]].
  - destruct l as [| e l].
    + rewrite app_nil_r in Htr'. subst pre. simpl in Hrest.
      destruct Hside as [Hin | Hno]; [exact Hin |].
      exfalso. apply Hno. rewrite <- Hrest. left. reflexivity.
    + simpl in Hrest. inversion Hrest; subst e.
      apply (Htr pre l). exact Htr'.
  - subst pre. destruct Hside as [Hin | Hno].
    + apply in_or_app. left. exact Hin.
    + exfalso. apply Hno. rewrite Ht. apply in_or_app. right. left.
      reflexivity.
Qed.

Section CallSequences.

Context {T L : Type} {C : Collaborators T L}.

(** What [addLocationNode] can put in the trace. *)
Lemma addLocationNode_log (location_str : string)
      (s s' : Node T * Location) (log : list Event) :
  addLocationNode location_str s = Some (tt, s', log) ->
  Forall (fun e => e = InjectLocationTerm \/ exists message, e = LogWarning message)
         log.
Proof.
  destruct s as [query_tree fef_location]. intros H.
  destruct (empty location_str) eqn:Hempty.
  { unfold addLocationNode in H. rewrite Hempty in H.
    unfold emit, ret in *; simpl in H; inversion H; subst;
      repeat (apply Forall_cons;
              [first [left; reflexivity | right; eexists; reflexivity] |]);
      apply Forall_nil. }
  destruct (find ":"%char location_str) as [pos |] eqn:Hpos.
  2:{ unfold addLocationNode in H. rewrite Hempty, Hpos in H.
      unfold emit, ret in *; simpl in H; inversion H; subst;
      repeat (apply Forall_cons;
              [first [left; reflexivity | right; eexists; reflexivity] |]);
      apply Forall_nil. }
  destruct (Location_parse (substr_from location_str (pos + 1)))
    as [error | locationSpec] eqn:Hparse.
  { unfold addLocationNode in H. rewrite Hempty, Hpos, Hparse in H.
    unfold emit, ret in *; simpl in H; inversion H; subst;
      repeat (apply Forall_cons;
              [first [left; reflexivity | right; eexists; reflexivity] |]);
      apply Forall_nil. }
  rewrite (addLocationNode_parsed location_str _ _ Hpos Hparse) in H.
  cbv zeta in H.
  destruct (getRankOnDistance locationSpec);
    [| destruct (getPruneOnDistance locationSpec)];
    try (destruct (inject query_tree _) as [t |]; [| discriminate]);
    unfold emit, ret in *; simpl in H; inversion H; subst;
    repeat (apply Forall_cons;
            [first [left; reflexivity | right; eexists; reflexivity] |]);
    apply Forall_nil.
Qed.

(** Moving the objects of the tree twice is moving them once. *)
Lemma moved_by_moved_by (first second : BlueprintPtr -> option BlueprintPtr)
      (ptr : WhiteListProviderPtr) :
  moved_by second (moved_by first ptr) =
  moved_by (fun place => match first place with
                         | Some place' => second place'
                         | None => None
                         end) ptr.
Proof.
  destruct ptr as [| place |]; simpl; try reflexivity.
  destruct (first place); reflexivity.
Qed.

(** A pointer at what [_whiteListBlueprint] owns is none of the tree's. *)
Lemma moved_by_in_whiteListBlueprint (moves : BlueprintPtr -> option BlueprintPtr)
      (ptr : WhiteListProviderPtr) :
  moved_by moves ptr = in_whiteListBlueprint -> ptr = in_whiteListBlueprint.
Proof.
  destruct ptr as [| place |]; simpl; try congruence.
  destruct (moves place); discriminate.
Qed.

(** One call, run: what it needs, what it leaves and what it logs. *)
Lemma run_call_effect (c : Call) (q q' : Query T L) (tr : list Event) :
  run_call c q = Some (tt, q', tr) ->
  match c with
  | call_buildTree _ _ _ _ _ _ =>
      _blueprint q' = _blueprint q /\
      _whiteListBlueprint q' = _whiteListBlueprint q /\
      _white_list_provider q' = _white_list_provider q /\
      In CreateQueryTree tr /\
      ~ In BuildBlueprint tr /\ ~ In OptimizeBlueprint tr
  | call_extractLocations _ => q' = q /\ tr = []
  | call_setWhiteListBlueprint w =>
      _query_tree q' = _query_tree q /\ _blueprint q' = _blueprint q /\
      _whiteListBlueprint q' = w /\
      _white_list_provider q' =
      match w with
      | Some b =>
          if isWhiteListProvider b then Some in_whiteListBlueprint else None
      | None => None
      end /\
      tr = []
  | call_reserveHandles _ _ _ =>
      isSome (_query_tree q) = true /\
      isSome (_query_tree q') = true /\ isSome (_blueprint q') = true /\
      _whiteListBlueprint q' = None /\
      (_white_list_provider q' = Some in_whiteListBlueprint ->
       _whiteListBlueprint q = None /\
       _white_list_provider q = Some in_whiteListBlueprint) /\
      In BuildBlueprint tr /\ ~ In OptimizeBlueprint tr
  | call_optimize =>
      isSome (_blueprint q) = true /\ isSome (_blueprint q') = true /\
      _query_tree q' = _query_tree q /\
      _whiteListBlueprint q' = _whiteListBlueprint q /\
      (exists moves,
         _white_list_provider q' =
         option_map (moved_by moves) (_white_list_provider q)) /\
      ~ In BuildBlueprint tr
  end.
Proof.
  destruct c as [stack location resolver indexEnv split delay
                | locations | w | requestContext context mdl |];
    unfold run_call.
  - unfold bind. rewrite buildTree_run.
    destruct (QueryTreeCreator_create stack) as [tree |].
    + destruct (addLocationNode location _)
        as [[[[] [located fef_location]] log] |] eqn:Hloc; [| discriminate].
      apply addLocationNode_log in Hloc.
      simpl. intros H. inversion H; subst; clear H. simpl.
      rewrite app_nil_r.
      repeat split; try (left; reflexivity).
      * intros [Hin | [Hin | Hin]]; try discriminate.
        apply in_app_or in Hin. destruct Hin as [Hin | Hin].
        -- rewrite Forall_forall in Hloc.
           destruct (Hloc _ Hin) as [Hbad | [m Hbad]]; discriminate.
        -- destruct Hin as [Hin | [Hin | []]]; discriminate.
      * intros [Hin | [Hin | Hin]]; try discriminate.
        apply in_app_or in Hin. destruct Hin as [Hin | Hin].
        -- rewrite Forall_forall in Hloc.
           destruct (Hloc _ Hin) as [Hbad | [m Hbad]]; discriminate.
        -- destruct Hin as [Hin | [Hin | []]]; discriminate.
    + simpl. intros H. inversion H; subst; clear H. simpl.
      repeat split; try (left; reflexivity);
        intros [Hin | []]; discriminate.
  - intros H. inversion H; subst. split; reflexivity.
  - destruct w as [b |]; intros H;
      unfold setWhiteListBlueprint, bind, modify, gets in H; simpl in H;
      inversion H; subst; simpl; repeat split.
  - unfold bind. rewrite reserveHandles_run.
    destruct (_query_tree q) as [tree |]; [| discriminate].
    cbv zeta.
    destruct (_whiteListBlueprint q) as [whiteList |].
    + destruct (mergeWhiteList _ whiteList) as [merged |]; [| discriminate].
      destruct (whiteListPlace _) as [place |]; [| discriminate].
      simpl. intros H. inversion H; subst; clear H. simpl.
      split; [reflexivity |]. split; [reflexivity |].
      split; [reflexivity |]. split; [reflexivity |].
      split.
      { destruct (_white_list_provider q) as [[| place' |] |]; simpl;
          try discriminate.
        destruct (setDocIdLimit_moves _ merged place); discriminate. }
      split; [right; left; reflexivity |].
      intros [Hin | [Hin | [Hin | []]]]; discriminate.
    + simpl. intros H. inversion H; subst; clear H. simpl.
      split; [reflexivity |]. split; [reflexivity |].
      split; [reflexivity |]. split; [reflexivity |].
      split.
      { destruct (_white_list_provider q) as [[| place' |] |]; simpl;
          try discriminate.
        intros _. split; reflexivity. }
      split; [right; left; reflexivity |].
      intros [Hin | [Hin | []]]; discriminate.
  - rewrite optimize_run.
    destruct (_blueprint q) as [blueprint |]; [| discriminate].
    cbv zeta.
    destruct (want_global_filter (Blueprint_optimize blueprint)).
    + match goal with
      | |- match ?read with _ => _ end = _ -> _ =>
          destruct read as [white_list |]; [| discriminate]
      end.
      intros H. inversion H; subst; clear H. simpl.
      split; [reflexivity |]. split; [reflexivity |].
      split; [reflexivity |]. split; [reflexivity |].
      split.
      { eexists.
        destruct (_white_list_provider q) as [ptr |]; simpl; [| reflexivity].
        rewrite !moved_by_moved_by. reflexivity. }
      intros [Hin | [Hin | [Hin | []]]]; discriminate.
    + intros H. inversion H; subst; clear H. simpl.
      split; [reflexivity |]. split; [reflexivity |].
      split; [reflexivity |]. split; [reflexivity |].
      split; [eexists; reflexivity |].
      intros [Hin | []]; discriminate.
Qed.

Lemma run_calls_cons (c : Call) (cs : list Call) (q q' : Query T L)
      (tr : list Event) :
  run_calls (c :: cs) q = Some (tt, q', tr) ->
  exists q1 tr1 tr2,
    run_call c q = Some (tt, q1, tr1) /\
    run_calls cs q1 = Some (tt, q', tr2) /\
    tr = tr1 ++ tr2.
Proof.
  simpl. unfold bind.
  destruct (run_call c q) as [[[[] q1] tr1] |] eqn:Hcall; [| discriminate].
  destruct (run_calls cs q1) as [[[[] q2] tr2] |] eqn:Hrest; [| discriminate].
  intros H. inversion H; subst.
  exists q1, tr1, tr2. split; [reflexivity | split; [exact Hrest | reflexivity]].
Qed.

(** X10. The white-list members through every sequence of calls. They stay
    in agreement: whenever the query holds a white list the provider pointer
    points at that very blueprint, or is null when it is no provider, and
    the pointer points at what [_whiteListBlueprint] owns only while there
    is such a blueprint, so that a read through such a pointer finds a
    provider. But the provider pointer is not kept alive: once it points
    into the blueprint tree, one more [reserveHandles] destroys that tree,
    the pointer points at nothing, and an [optimize] whose blueprint wants a
    global filter then reads through it, which is undefined behaviour. *)
Theorem white_list_members_stay_agreed (calls : list Call)
        (q q' : Query T L) (tr : list Event) :
  white_list_members_agree q ->
  run_calls calls q = Some (tt, q', tr) ->
  white_list_members_agree q' /\
  (_white_list_provider q' = Some in_whiteListBlueprint ->
   exists w, pointee q' in_whiteListBlueprint = Some w /\
             isWhiteListProvider w = true) /\
  (forall place requestContext context mdl mdl1 q1 tr1,
     _white_list_provider q' = Some (in_blueprint place) ->
     reserveHandles requestContext context mdl q' = Some (mdl1, q1, tr1) ->
     _white_list_provider q1 = Some destroyed /\
     (forall blueprint,
        _blueprint q1 = Some blueprint ->
        want_global_filter (Blueprint_optimize blueprint) = true ->
        optimize q1 = None)).
Proof.
  intros Hinv Hrun.
  assert (Hagree : white_list_members_agree q').
  { revert q tr Hinv Hrun.
    induction calls as [| c cs IH]; intros q tr Hinv Hrun.
    - inversion Hrun; subst. exact Hinv.
    - apply run_calls_cons in Hrun.
      destruct Hrun as (q1 & tr1 & tr2 & Hcall & Hrest & _).
      apply (IH q1 tr2); [| exact Hrest].
      pose proof (run_call_effect c q Hcall) as He.
      destruct Hinv as [Hheld Hnone]. unfold white_list_members_agree.
      destruct c.
      + destruct He as (_ & Hw & Hp & _). rewrite Hw, Hp. split; assumption.
      + destruct He as [-> _]. split; assumption.
      + destruct He as (_ & _ & Hw & Hp & _).
        split.
        * intros w Heq. rewrite Hp. rewrite Hw in Heq. rewrite Heq.
          reflexivity.
        * intros Heq. rewrite Hp. rewrite Hw in Heq. rewrite Heq.
          discriminate.
      + destruct He as (_ & _ & _ & Hw & Hp & _). rewrite Hw.
        split; [discriminate |].
        intros _ Hptr. destruct (Hp Hptr) as [Hw0 Hp0].
        exact (Hnone Hw0 Hp0).
      + destruct He as (_ & _ & _ & Hw & [moves Hp] & _). rewrite Hw, Hp.
        split.
        * intros w Heq. rewrite (Hheld w Heq).
          destruct (isWhiteListProvider w); reflexivity.
        * intros Heq Hptr. apply (Hnone Heq).
          destruct (_white_list_provider q) as [ptr |]; [| discriminate].
          simpl in Hptr. inversion Hptr as [Hmoved].
          apply moved_by_in_whiteListBlueprint in Hmoved. subst ptr.
          reflexivity. }
  split; [exact Hagree |].
  split.
  - intros Hptr. destruct Hagree as [Hheld Hnone]. simpl.
    destruct (_whiteListBlueprint q') as [w |] eqn:Hw.
    + exists w. split; [reflexivity |].
      rewrite (Hheld w eq_refl) in Hptr.
      destruct (isWhiteListProvider w); [reflexivity | discriminate].
    + exfalso. exact (Hnone eq_refl Hptr).
  - intros place requestContext context mdl mdl1 q1 tr1 Hptr Hreserve.
    rewrite reserveHandles_run in Hreserve.
    destruct (_query_tree q') as [tree |]; [| discriminate].
    cbv zeta in Hreserve. rewrite Hptr in Hreserve.
    assert (Hdestroyed : _white_list_provider q1 = Some destroyed).
    { destruct (_whiteListBlueprint q') as [whiteList |].
      - destruct (mergeWhiteList _ whiteList) as [merged |]; [| discriminate].
        destruct (whiteListPlace _) as [place' |]; [| discriminate].
        inversion Hreserve; subst. reflexivity.
      - inversion Hreserve; subst. reflexivity. }
    split; [exact Hdestroyed |].
    intros blueprint Hbp Hwant.
    rewrite optimize_run, Hbp. cbv zeta. rewrite Hwant.
    unfold blueprint_objects_moved at 1 2. simpl.
    rewrite Hdestroyed. reflexivity.
Qed.

Lemma run_calls_order (calls : list Call) :
  forall (q q' : Query T L) (tr0 tr : list Event),
    (isSome (_blueprint q) = true -> In BuildBlueprint tr0) ->
    (isSome (_query_tree q) = true -> In CreateQueryTree tr0) ->
    precedes BuildBlueprint OptimizeBlueprint tr0 ->
    precedes CreateQueryTree BuildBlueprint tr0 ->
    run_calls calls q = Some (tt, q', tr) ->
    precedes BuildBlueprint OptimizeBlueprint (tr0 ++ tr) /\
    precedes CreateQueryTree BuildBlueprint (tr0 ++ tr).
Proof.
  induction calls as [| c cs IH]; intros q q' tr0 tr Hbp Htree Hbo Hcb Hrun.
  - inversion Hrun; subst. rewrite app_nil_r. split; assumption.
  - apply run_calls_cons in Hrun.
    destruct Hrun as (q1 & tr1 & tr2 & Hcall & Hrest & ->).
    rewrite app_assoc.
    pose proof (run_call_effect c q Hcall) as He.
    apply (IH q1 q' (tr0 ++ tr1) tr2); try exact Hrest; destruct c.
    + destruct He as (Hb & _ & _ & _ & _ & _). rewrite Hb.
      intros H. apply in_or_app. left. exact (Hbp H).
    + destruct He as [-> ->]. rewrite app_nil_r. exact Hbp.
    + destruct He as (_ & Hb & _ & _ & ->). rewrite Hb, app_nil_r. exact Hbp.
    + destruct He as (_ & _ & _ & _ & _ & Hin & _).
      intros _. apply in_or_app. right. exact Hin.
    + destruct He as (Hb & _). intros _. apply in_or_app. left. exact (Hbp Hb).
    + destruct He as (_ & _ & _ & Hin & _).
      intros _. apply in_or_app. right. exact Hin.
    + destruct He as [-> ->]. rewrite app_nil_r. exact Htree.
    + destruct He as (Ht & _ & _ & _ & ->). rewrite Ht, app_nil_r. exact Htree.
    + destruct He as (Ht & _). intros _. apply in_or_app. left. exact (Htree Ht).
    + destruct He as (_ & _ & Ht & _). rewrite Ht.
      intros H. apply in_or_app. left. exact (Htree H).
    + destruct He as (_ & _ & _ & _ & _ & Hno). apply precedes_app; auto.
    + destruct He as [-> ->]. rewrite app_nil_r. exact Hbo.
    + destruct He as (_ & _ & _ & _ & ->). rewrite app_nil_r. exact Hbo.
    + destruct He as (_ & _ & _ & _ & _ & _ & Hno). apply precedes_app; auto.
    + destruct He as (Hb & _). apply precedes_app; auto.
    + destruct He as (_ & _ & _ & _ & Hno & _). apply precedes_app; auto.
    + destruct He as [-> ->]. rewrite app_nil_r. exact Hcb.
    + destruct He as (_ & _ & _ & _ & ->). rewrite app_nil_r. exact Hcb.
    + destruct He as (Ht & _). apply precedes_app; auto.
    + destruct He as (_ & _ & _ & _ & _ & Hno). apply precedes_app; auto.
Qed.

(** X11. The order the calls must come in, read off the traces of the runs
    that stay within defined behaviour: starting from a fresh query, whatever
    the sequence of calls, the blueprint optimization never runs before a
    blueprint was built, and a blueprint is never built before the tree
    creator ran. *)
Theorem calls_come_in_order (calls : list Call) (q : Query T L)
        (tr : list Event) :
  run_calls calls (@Query_new T L) = Some (tt, q, tr) ->
  precedes BuildBlueprint OptimizeBlueprint tr /\
  precedes CreateQueryTree BuildBlueprint tr.
Proof.
  intros Hrun.
  apply (run_calls_order calls Query_new (tr0 := [])) in Hrun;
    try (simpl; discriminate); [exact Hrun | |];
    intros [| e pre] post Heq; discriminate.
Qed.

End CallSequences.

Lemma fresh_query_members_agree {T L} {C : Collaborators T L} :
  white_list_members_agree (C := C) Query_new.
Proof. split; [intros b H | intros _ H]; discriminate H. Defined.

(** A request up to the reserving of the handles: the provider pointer
    points at the white list in the merged blueprint. One more
    [reserveHandles] leaves it pointing at nothing, and the [optimize]
    after it, on a blueprint that wants a global filter, is undefined. *)
Lemma white_list_members_stay_agreed_witness :
  exists q tr q1,
    run_calls demo_filtering_calls Query_new = Some (tt, q, tr) /\
    _whiteListBlueprint q = None /\
    _white_list_provider q = Some (in_blueprint [1]) /\
    pointee q (in_blueprint [1]) = Some (LeafBlueprint (mkLeafState 0 false)) /\
    white_list_members_agree (C := demo_filtering) q /\
    state_of (reserveHandles (C := demo_filtering) tt 100 1 q) = Some q1 /\
    _white_list_provider q1 = Some destroyed /\
    optimize (C := demo_filtering) q1 = None.
Proof.
  pose (q := mkQuery (T := UnpackMode) (L := LeafState)
               (Some (Term Eager))
               (Some (IntermediateBlueprint AndBlueprint
                        [LeafBlueprint (mkLeafState 1 true);
                         LeafBlueprint (mkLeafState 0 false)]))
               Location_default None (Some (in_blueprint [1]))).
  pose (q1 := mkQuery (T := UnpackMode) (L := LeafState)
                (Some (Term Eager))
                (Some (LeafBlueprint (mkLeafState 1 true)))
                Location_default None (Some destroyed)).
  destruct (white_list_members_stay_agreed
              (C := demo_filtering) demo_filtering_calls (q := Query_new)
              (q' := q)
              (tr := [CreateQueryTree; SameElementModify;
                      UnpackingOptimize true false false; ResolveViews;
                      ReserveMatchData; BuildBlueprint; SetDocIdLimit 100])
              fresh_query_members_agree eq_refl)
    as (Hagree & _ & Hhazard).
  destruct (Hhazard [1] tt 100 1 2 q1
                    [ReserveMatchData; BuildBlueprint] eq_refl eq_refl)
    as [Hdestroyed Hundefined].
  exists q, [CreateQueryTree; SameElementModify;
             UnpackingOptimize true false false; ResolveViews;
             ReserveMatchData; BuildBlueprint; SetDocIdLimit 100], q1.
  split; [reflexivity |]. split; [reflexivity |].
  split; [reflexivity |]. split; [reflexivity |].
  split; [exact Hagree |]. split; [reflexivity |].
  split; [exact Hdestroyed |].
  exact (Hundefined (LeafBlueprint (mkLeafState 1 true)) eq_refl eq_refl).
Defined.

Lemma calls_come_in_order_witness :
  exists q tr,
    run_calls demo_calls Query_new = Some (tt, q, tr) /\
    tr = [CreateQueryTree; SameElementModify; InjectLocationTerm;
          UnpackingOptimize true true false; ResolveViews;
          ReserveMatchData; BuildBlueprint; SetDocIdLimit 100;
          OptimizeBlueprint] /\
    precedes BuildBlueprint OptimizeBlueprint tr /\
    precedes CreateQueryTree BuildBlueprint tr.
Proof.
  eexists. eexists.
  split; [vm_compute; reflexivity |].
  split; [reflexivity |].
  refine (calls_come_in_order (C := demo) demo_calls _).
  vm_compute. reflexivity.
Defined.

(** ** One request, from the white list to the optimized blueprint *)

Section Planning.

Context {T L : Type} {C : Collaborators T L}.

(** X12. The whole planning of a request on a fresh query. When the tree
    creator makes nothing of the stack, no plan is made: the result is
    [false], nothing ran but the tree creator, and the query has no tree and
    no blueprint. When it makes a tree, the unpacking optimization is told
    that there is a white list, the white list is merged once into the
    blueprint built from the rewritten tree, the doc id limit is set, and
    the blueprint is optimized once, or twice with a global filter in
    between. That filter is made of nothing when the white list is no
    provider; when it is one, the filter is asked of the white-list object
    where it is in the tree by then, as the setting of the doc id limit and
    the first optimization left it, and the planning is undefined when they
    left no such object. *)
Theorem plan_of_a_request
        (whiteList : Blueprint L) (stack location : string)
        (resolver : ViewResolver) (indexEnv : IIndexEnvironment)
        (split delay : bool)
        (requestContext : IRequestContext) (context : ISearchContext)
        (mdl : MatchDataLayout) :
  let run :=
    plan whiteList stack location resolver indexEnv split delay
         requestContext context mdl Query_new in
  (QueryTreeCreator_create stack = None ->
   run = Some (false,
               mkQuery None None Location_default (Some whiteList)
                       (if isWhiteListProvider whiteList
                        then Some in_whiteListBlueprint else None),
               [CreateQueryTree])) /\
  (forall tree located fef_location log merged,
     QueryTreeCreator_create stack = Some tree ->
     addLocationNode location (SameElementModifier_visit tree, Location_default) =
     Some (tt, (located, fef_location), log) ->
     let rewritten :=
       ResolveViewVisitor_visit resolver indexEnv
         (UnpackingIteratorsOptimizer_optimize located true split delay) in
     let reserved := MatchDataReserveVisitor_visit mdl rewritten in
     let built := BlueprintBuilder_build requestContext (fst reserved) context in
     mergeWhiteList built whiteList = Some merged ->
     let limit := getDocIdLimit context in
     let limited := setDocIdLimit limit merged in
     let optimized := Blueprint_optimize limited in
     let reserving :=
       [CreateQueryTree; SameElementModify] ++ log ++
       [UnpackingOptimize true split delay; ResolveViews;
        ReserveMatchData; BuildBlueprint; SetDocIdLimit limit] in
     exists place,
       whiteListPlace built = Some place /\
       deref place merged = Some whiteList /\
       let ptr :=
         moved_by (Blueprint_optimize_moves limited)
                  (moved_by (setDocIdLimit_moves limit merged)
                            (in_blueprint place)) in
       let q1 :=
         mkQuery (Some (fst reserved)) (Some optimized) fef_location None
                 (if isWhiteListProvider whiteList then Some ptr else None) in
       let second_run white_list :=
         let global_filter := GlobalFilter_create white_list in
         let filtered := set_global_filter global_filter optimized in
         Some (true,
               blueprint_objects_moved (Blueprint_optimize_moves filtered)
                 (set_blueprint (Some (Blueprint_optimize filtered))
                    (blueprint_objects_moved
                       (set_global_filter_moves global_filter optimized) q1)),
               reserving ++
               [OptimizeBlueprint;
                SetGlobalFilter (isWhiteListProvider whiteList);
                OptimizeBlueprint]) in
       (want_global_filter optimized = false ->
        run = Some (true, q1, reserving ++ [OptimizeBlueprint])) /\
       (want_global_filter optimized = true ->
        (isWhiteListProvider whiteList = false -> run = second_run None) /\
        (isWhiteListProvider whiteList = true ->
         forall object,
           pointee q1 ptr = Some object ->
           run = second_run (get_white_list_filter object)) /\
        (isWhiteListProvider whiteList = true ->
         pointee q1 ptr = None ->
         run = None))).
Proof.
  intros run. subst run.
  assert (Hset : setWhiteListBlueprint (Some whiteList) (@Query_new T L) =
                 Some (tt, mkQuery None None Location_default (Some whiteList)
                                   (if isWhiteListProvider whiteList
                                    then Some in_whiteListBlueprint else None),
                       []))
    by reflexivity.
  split.
  - intros Hcreate. unfold plan, bind. rewrite Hset.
    rewrite buildTree_run, Hcreate. reflexivity.
  - intros tree located fef_location log merged Hcreate Hloc rewritten reserved
           built Hmerge limit limited optimized reserving.
    pose proof (mergeWhiteList_place whiteList built) as Hderef.
    rewrite Hmerge in Hderef.
    destruct (whiteListPlace built) as [place |] eqn:Hplace; [| contradiction].
    exists place. split; [reflexivity |]. split; [exact Hderef |].
    intros ptr q1 second_run.
    assert (Hrun :
              plan whiteList stack location resolver indexEnv split delay
                   requestContext context mdl Query_new =
              match optimize
                      (mkQuery (Some (fst reserved)) (Some limited)
                               fef_location None
                               (if isWhiteListProvider whiteList
                                then Some (moved_by
                                             (setDocIdLimit_moves limit merged)
                                             (in_blueprint place))
                                else None)) with
              | Some (_, q', tr) => Some (true, q', reserving ++ tr)
              | None => None
              end).
    { unfold plan, bind. rewrite Hset.
      rewrite buildTree_run, Hcreate.
      cbn [_location _query_tree _blueprint _whiteListBlueprint
           _white_list_provider isSome].
      rewrite Hloc. cbv beta iota zeta.
      rewrite reserveHandles_run.
      cbn [_location _query_tree _blueprint _whiteListBlueprint
           _white_list_provider isSome].
      fold rewritten. fold reserved. fold built. rewrite Hmerge, Hplace.
      fold limit. fold limited.
      replace (option_map
                 (pointer_after_merge place (setDocIdLimit_moves limit merged))
                 (if isWhiteListProvider whiteList
                  then Some in_whiteListBlueprint else None))
        with (if isWhiteListProvider whiteList
              then Some (moved_by (setDocIdLimit_moves limit merged)
                                  (in_blueprint place))
              else None)
        by (destruct (isWhiteListProvider whiteList); reflexivity).
      destruct (optimize _) as [[[[] q'] tr] |]; [| reflexivity].
      unfold ret, reserving. cbn [app].
      rewrite app_nil_r, <- !app_assoc. reflexivity. }
    rewrite Hrun, optimize_run.
    cbn [_blueprint]. cbv zeta. fold optimized.
    assert (Hq1 :
              blueprint_objects_moved (Blueprint_optimize_moves limited)
                (set_blueprint (Some optimized)
                   (mkQuery (Some (fst reserved)) (Some limited)
                            fef_location None
                            (if isWhiteListProvider whiteList
                             then Some (moved_by
                                          (setDocIdLimit_moves limit merged)
                                          (in_blueprint place))
                             else None))) = q1).
    { unfold q1, ptr, blueprint_objects_moved, set_blueprint,
        set_white_list_provider. simpl.
      destruct (isWhiteListProvider whiteList); reflexivity. }
    rewrite Hq1.
    assert (Hprov : _white_list_provider q1 =
                    if isWhiteListProvider whiteList then Some ptr else None)
      by reflexivity.
    destruct (want_global_filter optimized).
    + split; [discriminate |]. intros _.
      rewrite Hprov.
      destruct (isWhiteListProvider whiteList).
      * split; [discriminate |].
        split.
        -- intros _ object Hobject. rewrite Hobject. reflexivity.
        -- intros _ Hobject. rewrite Hobject. reflexivity.
      * split; [intros _; reflexivity |].
        split; discriminate.
    + split; [intros _; reflexivity | discriminate].
Qed.

End Planning.

(** A stack nothing is made of; a request on the small implementation,
    whose blueprints want no filter; and a request whose blueprint wants a
    filter, with a white list cheaper than the term: the first optimization
    moves the white list to the front, and the filter is asked of it
    there. *)
Lemma plan_of_a_request_witness :
  demo_create "X" = None /\
  plan (C := demo) (LeafBlueprint (mkLeafState 8 false))
       "X" "view1:2,100,10,0" tt tt true false tt 100 0 Query_new =
  Some (false,
        mkQuery None None Location_default
                (Some (LeafBlueprint (mkLeafState 8 false)))
                (Some in_whiteListBlueprint),
        [CreateQueryTree]) /\
  plan (C := demo) (LeafBlueprint (mkLeafState 8 false))
       "R" "view1:2,100,10,0" tt tt true false tt 100 0 Query_new =
  Some (true,
        mkQuery
          (Some (Intermediate Rank
                   [Intermediate And
                      [Term Split;
                       ProtonLocationTerm "2,100,10,0" "view1_zcurve" (-1) 100];
                    Term Split]))
          (Some (IntermediateBlueprint AndBlueprint
                   [LeafBlueprint (mkLeafState 3 false);
                    LeafBlueprint (mkLeafState 8 false)]))
          (mkLocation "view1_zcurve" 100 10 0 true) None
          (Some (in_blueprint [1])),
        [CreateQueryTree; SameElementModify; InjectLocationTerm;
         UnpackingOptimize true true false; ResolveViews;
         ReserveMatchData; BuildBlueprint; SetDocIdLimit 100;
         OptimizeBlueprint]) /\
  plan (C := demo_filtering) (LeafBlueprint (mkLeafState 0 false))
       "T" "" tt tt false false tt 100 0 Query_new =
  Some (true,
        mkQuery
          (Some (Term Eager))
          (Some (IntermediateBlueprint AndBlueprint
                   [LeafBlueprint (mkLeafState 0 false);
                    LeafBlueprint (mkLeafState 1 true)]))
          Location_default None
          (Some (in_blueprint [0])),
        [CreateQueryTree; SameElementModify;
         UnpackingOptimize true false false; ResolveViews;
         ReserveMatchData; BuildBlueprint; SetDocIdLimit 100;
         OptimizeBlueprint; SetGlobalFilter true; OptimizeBlueprint]).
Proof.
  split; [reflexivity |].
  split; [| split].
  - exact (proj1 (plan_of_a_request
                    (C := demo) (LeafBlueprint (mkLeafState 8 false))
                    "X" "view1:2,100,10,0" tt tt true false tt 100 0)
                 eq_refl).
  - destruct (proj2 (plan_of_a_request
                       (C := demo) (LeafBlueprint (mkLeafState 8 false))
                       "R" "view1:2,100,10,0" tt tt true false tt 100 0)
                    (Intermediate Rank [Term Eager; Term Eager])
                    (Intermediate Rank
                       [Intermediate And
                          [Term Eager;
                           ProtonLocationTerm "2,100,10,0" "view1_zcurve"
                                              (-1) 100];
                        Term Eager])
                    (mkLocation "view1_zcurve" 100 10 0 true)
                    [InjectLocationTerm]
                    (IntermediateBlueprint AndBlueprint
                       [LeafBlueprint (mkLeafState 3 false);
                        LeafBlueprint (mkLeafState 8 false)])
                    eq_refl eq_refl eq_refl)
      as (place & Hplace & _ & Hrun).
    inversion Hplace; subst place.
    exact (proj1 Hrun eq_refl).
  - destruct (proj2 (plan_of_a_request
                       (C := demo_filtering) (LeafBlueprint (mkLeafState 0 false))
                       "T" "" tt tt false false tt 100 0)
                    (Term Eager) (Term Eager) Location_default []
                    (IntermediateBlueprint AndBlueprint
                       [LeafBlueprint (mkLeafState 1 true);
                        LeafBlueprint (mkLeafState 0 false)])
                    eq_refl eq_refl eq_refl)
      as (place & Hplace & _ & Hrun).
    inversion Hplace; subst place.
    exact (proj1 (proj2 (proj2 Hrun eq_refl)) eq_refl
                 (LeafBlueprint (mkLeafState 0 false)) eq_refl).
Defined.

(** * Properties of the store-only document sub database *)

(** X13. The flushed serial numbers of a sub database that is set up: the
    oldest is the smaller and the newest the larger of the serial number of
    the summary store and that of the meta store flush target, so the oldest
    is never above the newest and the two are the same exactly when both
    stores are flushed to the same serial number; and both calls
    dereference null pointers before the set-up. *)
Theorem flushed_serials_in_order (w : World) (s : StoreOnlyDocSubDB) :
  (forall summary target,
     _iSummaryMgr s = Some summary ->
     _dmsFlushTarget s = Some target ->
     let stored := lastSyncToken (summaryManager w summary) in
     let flushed := getFlushedSerialNum w target in
     exists oldest newest,
       getOldestFlushedSerial w s = Some oldest /\
       getNewestFlushedSerial w s = Some newest /\
       (oldest <= stored <= newest)%N /\
       (oldest <= flushed <= newest)%N /\
       (oldest = stored \/ oldest = flushed) /\
       (newest = stored \/ newest = flushed) /\
       (oldest = newest <-> stored = flushed)) /\
  (_iSummaryMgr s = None \/ _dmsFlushTarget s = None ->
   getOldestFlushedSerial w s = None /\ getNewestFlushedSerial w s = None).
Proof.
  unfold getOldestFlushedSerial, getNewestFlushedSerial. split.
  - intros summary target Hsummary Htarget. rewrite Hsummary, Htarget.
    cbv zeta.
    exists (N.min (lastSyncToken (summaryManager w summary))
                  (getFlushedSerialNum w target)),
           (N.max (lastSyncToken (summaryManager w summary))
                  (getFlushedSerialNum w target)).
    repeat split; lia.
  - intros [-> | ->]; [split; reflexivity |].
    destruct (_iSummaryMgr s); split; reflexivity.
Qed.

Lemma flushed_serials_in_order_witness :
  let s := mkStoreOnlyDocSubDB "0.ready" "base" [] (Some 0) 17%N 12%N (Some 0)
             (Some 1) (Some 1) (Some 1)
             (Some (DocumentMetaStoreFlushTarget 0 "base/documentmetastore"))
             None (mkCommitTimeTracker 0 None) in
  exists oldest newest,
    getOldestFlushedSerial demo_world s = Some oldest /\
    getNewestFlushedSerial demo_world s = Some newest /\
    (oldest <= 12 <= newest)%N /\ (oldest <= 17 <= newest)%N.
Proof.
  intros s.
  destruct (proj1 (flushed_serials_in_order demo_world s) 1
                  (DocumentMetaStoreFlushTarget 0 "base/documentmetastore")
                  eq_refl eq_refl)
    as (oldest & newest & Hold & Hnew & H1 & H2 & _).
  exists oldest, newest. repeat split; first [assumption | apply H1 | apply H2].
Defined.

Lemma fold_left_wrap {A B} (f : A -> B) (l : list A) :
  forall acc,
    fold_left (fun ret a => ret ++ [f a]) l acc = acc ++ map f l.
Proof.
  induction l as [| a l IH]; intros acc; simpl.
  - rewrite app_nil_r. reflexivity.
  - rewrite IH, <- app_assoc. reflexivity.
Qed.

(** X14. The flush targets a sub database hands out: one threaded wrapper,
    carrying the name of the sub database, around each internal target, in
    the order of the internal targets, which are those of the summary manager
    followed by the flush target of the meta store; so there is one target
    more than the summary manager has and the last one wraps the meta
    store's. Without a summary manager the call dereferences a null
    pointer. *)
Theorem flush_targets_are_wrapped (w : World) (s : StoreOnlyDocSubDB) :
  (forall summary,
     _rSummaryMgr s = Some summary ->
     let wrap target := Some (ThreadedFlushTarget target (_subName s)) in
     let summaryTargets := summaryFlushTargets (summaryManager w summary) in
     getFlushTargetsInternal w s = Some (summaryTargets ++ [_dmsFlushTarget s]) /\
     getFlushTargets w s =
     Some (map wrap summaryTargets ++ [wrap (_dmsFlushTarget s)]) /\
     option_map (@List.length _) (getFlushTargets w s) =
     Some (S (List.length summaryTargets))) /\
  (_rSummaryMgr s = None ->
   getFlushTargetsInternal w s = None /\ getFlushTargets w s = None).
Proof.
  unfold getFlushTargets, getFlushTargetsInternal. split.
  - intros summary Hsummary. rewrite Hsummary. cbv zeta.
    rewrite fold_left_wrap, map_app. simpl.
    repeat split. rewrite length_app, length_map. simpl. f_equal. lia.
  - intros ->. split; reflexivity.
Qed.

Lemma flush_targets_are_wrapped_witness :
  let s := mkStoreOnlyDocSubDB "0.ready" "base" [] (Some 0) 17%N 12%N (Some 0)
             (Some 1) (Some 1) (Some 1)
             (Some (DocumentMetaStoreFlushTarget 0 "base/documentmetastore"))
             None (mkCommitTimeTracker 0 None) in
  getFlushTargets demo_world s =
  Some [Some (ThreadedFlushTarget (Some (SummaryFlushTarget 0)) "0.ready");
        Some (ThreadedFlushTarget (Some (SummaryFlushTarget 1)) "0.ready");
        Some (ThreadedFlushTarget
                (Some (DocumentMetaStoreFlushTarget 0 "base/documentmetastore"))
                "0.ready")].
Proof.
  intros s.
  exact (proj1 (proj2 (proj1 (flush_targets_are_wrapped demo_world s) 1 eq_refl))).
Defined.

(** X15. A sub database from its construction through [setup]. Fresh, it
    has no documents, reports the flushed serial numbers 0 and 0, and has
    registered no meta store. [setup] with a meta store and a summary manager
    returns, and afterwards: the flushed serial number of the meta store is
    its last sync token when it was loaded and still 0 when it was not; the
    bucket database handler was told that same serial number for that meta
    store, once; the flushed serial number of the document store is the
    summary store's; the number of documents is what the meta store says at
    the time of asking; and the lid reuse delayer commits immediately
    exactly when the visibility delay is 0. [setup] without a meta store or
    without a summary manager dereferences a null pointer. *)
Theorem setup_then_getters (w : World) (subName baseDir : string)
        (initResult : DocumentSubDbInitializerResult) :
  let fresh := StoreOnlyDocSubDB_new subName baseDir in
  (forall w', getNumDocs w' fresh = 0%N) /\
  getFeedViewPersistentParams fresh = (0%N, 0%N) /\
  _bucketDBHandlerInitializer fresh = [] /\
  (forall dms summary,
     result_documentMetaStore initResult = Some dms ->
     result_summaryManager initResult = Some summary ->
     exists s,
       setup w initResult fresh = Some s /\
       getFeedViewPersistentParams s =
       ((if isLoaded (documentMetaStore w dms)
         then getLastSyncToken (documentMetaStore w dms) else 0%N),
        lastSyncToken (summaryManager w summary)) /\
       _bucketDBHandlerInitializer s =
       [(dms, fst (getFeedViewPersistentParams s))] /\
       (forall w', getNumDocs w' s = getNumUsedLids (documentMetaStore w' dms)) /\
       option_map immediateCommit (_lidReuseDelayer s) =
       Some (Some (result_visibilityDelay initResult =? 0)%Z) /\
       visibilityDelay (_commitTimeTracker s) = result_visibilityDelay initResult) /\
  (result_documentMetaStore initResult = None \/
   result_summaryManager initResult = None ->
   setup w initResult fresh = None).
Proof.
  intros fresh. split; [reflexivity |]. split; [reflexivity |].
  split; [reflexivity |]. split.
  - intros dms summary Hdms Hsummary.
    unfold setup, setupDocumentMetaStore, setupSummaryManager,
      updateLidReuseDelayer.
    rewrite Hdms. simpl. rewrite Hsummary. simpl.
    eexists. split; [reflexivity |]. simpl.
    repeat split.
  - intros [Hnone | Hnone]; unfold setup, setupDocumentMetaStore,
      setupSummaryManager.
    + rewrite Hnone. reflexivity.
    + destruct (result_documentMetaStore initResult); [| reflexivity].
      simpl. rewrite Hnone. reflexivity.
Qed.

Lemma setup_then_getters_witness :
  exists s,
    setup demo_world (mkInitializerResult (Some 0) (Some 1) 0)
          (StoreOnlyDocSubDB_new "0.ready" "base") = Some s /\
    getFeedViewPersistentParams s = (17%N, 12%N) /\
    getNumDocs demo_world s = 5%N /\
    option_map immediateCommit (_lidReuseDelayer s) = Some (Some true).
Proof.
  destruct (proj1 (proj2 (proj2 (proj2
              (setup_then_getters demo_world "0.ready" "base"
                 (mkInitializerResult (Some 0) (Some 1) 0)))))
             0 1 eq_refl eq_refl)
    as (s & Hsetup & Hparams & _ & Hdocs & Hcommit & _).
  exists s. split; [exact Hsetup |]. split; [exact Hparams |].
  split; [exact (Hdocs demo_world) | exact Hcommit].
Defined.


(** * Properties of the aggregators *)

Section AggregatorFacts.

Context {T : Type} {num : Numeric T}.

Lemma increment_small (cnt : N) : (increment cnt < 2 ^ 64)%N.
Proof. unfold increment. apply N.mod_lt. discriminate. Qed.

Lemma fold_increment (values : list T) :
  forall cnt,
    (cnt < 2 ^ 64)%N ->
    fold_left (fun s (_ : T) => increment s) values cnt =
    ((cnt + N.of_nat (List.length values)) mod 2 ^ 64)%N.
Proof.
  induction values as [| v values IH]; intros cnt Hcnt.
  - simpl. rewrite N.add_0_r, N.mod_small; [reflexivity | exact Hcnt].
  - cbn [fold_left List.length]. rewrite IH by apply increment_small.
    unfold increment.
    rewrite N.Div0.add_mod_idemp_l.
    f_equal. lia.
Qed.

(** X16. [Count] counts: whatever the values are and whatever the aggregator
    was used for before, the result for a group is the number of its values,
    as a [size_t] counts it (modulo 2^64), converted to the value type. *)
Theorem count_counts (used : N) (value : T) (values : list T) :
  aggregate Count used value values =
  of_count (N.of_nat (List.length (value :: values)) mod 2 ^ 64)%N.
Proof.
  unfold aggregate. simpl first. simpl next. simpl result. cbv beta.
  rewrite (fold_increment values (cnt := 1%N)) by reflexivity.
  f_equal. f_equal. simpl List.length. lia.
Qed.

Lemma fold_avg (values : list T) :
  forall sum cnt,
    fold_left (fun s v => next Avg v s) values (sum, cnt) =
    (fold_left (fun s v => next Sum v s) values sum,
     fold_left (fun s (_ : T) => increment s) values cnt).
Proof.
  induction values as [| v values IH]; intros sum cnt; simpl;
    [reflexivity | apply IH].
Qed.

(** X17. [Avg] is [Sum] over [Count]: for every group, and whatever the
    three aggregators were used for before, the result of [Avg] is the
    result of [Sum] divided by the number of values, the number whose
    conversion is the result of [Count]. *)
Theorem avg_is_sum_over_count (used_avg : T * N) (used_sum : T) (used_count : N)
        (value : T) (values : list T) :
  let n := (N.of_nat (List.length (value :: values)) mod 2 ^ 64)%N in
  aggregate Avg used_avg value values =
  div_count (aggregate Sum used_sum value values) n /\
  aggregate Count used_count value values = of_count n.
Proof.
  intros n. split.
  - unfold aggregate. simpl first. rewrite fold_avg. simpl result.
    rewrite (fold_increment values (cnt := 1%N)) by reflexivity.
    unfold n. f_equal. f_equal. simpl List.length. lia.
  - unfold aggregate. simpl first. simpl next. simpl result. cbv beta.
    rewrite (fold_increment values (cnt := 1%N)) by reflexivity.
    unfold n. f_equal. f_equal. simpl List.length. lia.
Qed.

Lemma fold_max (values : list T) :
  (forall a, less a a = false) ->
  (forall a b c, less a b = true -> less b c = true -> less a c = true) ->
  forall seen m,
    In m seen ->
    (forall v, In v seen -> less m v = false) ->
    let r := fold_left (fun s v => next Max v s) values m in
    In r (seen ++ values) /\
    forall v, In v (seen ++ values) -> less r v = false.
Proof.
  intros Hirr Htrans.
  induction values as [| x values IH]; intros seen m Hin Hmax.
  - simpl. rewrite app_nil_r. split; assumption.
  - cbn [fold_left]. simpl next. unfold std_max.
    replace (seen ++ x :: values) with ((seen ++ [x]) ++ values)
      by (rewrite <- app_assoc; reflexivity).
    destruct (less m x) eqn:Hmx; apply IH.
    + apply in_or_app. right. left. reflexivity.
    + intros v Hv. apply in_app_or in Hv. destruct Hv as [Hv | [<- | []]].
      * destruct (less x v) eqn:Hxv; [| reflexivity].
        pose proof (Htrans m x v Hmx Hxv) as Hc.
        rewrite (Hmax v Hv) in Hc. discriminate.
      * apply Hirr.
    + apply in_or_app. left. exact Hin.
    + intros v Hv. apply in_app_or in Hv. destruct Hv as [Hv | [<- | []]].
      * apply Hmax, Hv.
      * exact Hmx.
Qed.

Lemma fold_min (values : list T) :
  (forall a, less a a = false) ->
  (forall a b c, less a b = true -> less b c = true -> less a c = true) ->
  forall seen m,
    In m seen ->
    (forall v, In v seen -> less v m = false) ->
    let r := fold_left (fun s v => next Min v s) values m in
    In r (seen ++ values) /\
    forall v, In v (seen ++ values) -> less v r = false.
Proof.
  intros Hirr Htrans.
  induction values as [| x values IH]; intros seen m Hin Hmin.
  - simpl. rewrite app_nil_r. split; assumption.
  - cbn [fold_left]. simpl next. unfold std_min.
    replace (seen ++ x :: values) with ((seen ++ [x]) ++ values)
      by (rewrite <- app_assoc; reflexivity).
    destruct (less x m) eqn:Hxm; apply IH.
    + apply in_or_app. right. left. reflexivity.
    + intros v Hv. apply in_app_or in Hv. destruct Hv as [Hv | [<- | []]].
      * destruct (less v x) eqn:Hvx; [| reflexivity].
        specialize (Hmin v Hv). rewrite (Htrans v x m Hvx Hxm) in Hmin.
        discriminate.
      * apply Hirr.
    + apply in_or_app. left. exact Hin.
    + intros v Hv. apply in_app_or in Hv. destruct Hv as [Hv | [<- | []]].
      * apply Hmin, Hv.
      * exact Hxm.
Qed.

(** X18. [Max] and [Min] give extremes of the group: when [<] on the value
    type is irreflexive and transitive, the result of [Max] is one of the
    values of the group and less than none of them, and the result of [Min]
    is one of the values and none of them is less than it, whatever the
    aggregators were used for before. *)
Theorem max_min_are_extremes (used_max used_min : T)
        (value : T) (values : list T) :
  (forall a, less a a = false) ->
  (forall a b c, less a b = true -> less b c = true -> less a c = true) ->
  let highest := aggregate Max used_max value values in
  let lowest := aggregate Min used_min value values in
  In highest (value :: values) /\
  (forall v, In v (value :: values) -> less highest v = false) /\
  In lowest (value :: values) /\
  (forall v, In v (value :: values) -> less v lowest = false).
Proof.
  intros Hirr Htrans highest lowest.
  assert (Hseen : In value [value]) by (left; reflexivity).
  assert (Hself : forall v, In v [value] -> less value v = false)
    by (intros v [<- | []]; apply Hirr).
  assert (Hself' : forall v, In v [value] -> less v value = false)
    by (intros v [<- | []]; apply Hirr).
  destruct (fold_max values Hirr Htrans [value] value Hseen Hself) as [H1 H2].
  destruct (fold_min values Hirr Htrans [value] value Hseen Hself') as [H3 H4].
  repeat split; assumption.
Qed.

End AggregatorFacts.

Lemma avg_is_sum_over_count_witness :
  aggregate (@Avg Z Numeric_Z) (100%Z, 7%N) 4%Z [8; 3]%Z = 5%Z /\
  aggregate (@Sum Z Numeric_Z) 100%Z 4%Z [8; 3]%Z = 15%Z /\
  aggregate (@Count Z Numeric_Z) 7%N 4%Z [8; 3]%Z = 3%Z.
Proof.
  pose proof (avg_is_sum_over_count (num := Numeric_Z) (100%Z, 7%N) 100%Z 7%N
                                    4%Z [8; 3]%Z) as H.
  split; [exact (proj1 H) |]. split; [reflexivity | exact (proj2 H)].
Defined.

Lemma max_min_are_extremes_witness :
  aggregate (@Max Z Numeric_Z) 100%Z 4%Z [8; 3]%Z = 8%Z /\
  aggregate (@Min Z Numeric_Z) (-100)%Z 4%Z [8; 3]%Z = 3%Z /\
  (forall v, In v [4; 8; 3]%Z ->
             @less Z Numeric_Z (aggregate (@Max Z Numeric_Z) 100%Z 4%Z [8; 3]%Z) v
             = false).
Proof.
  split; [reflexivity |]. split; [reflexivity |].
  exact (proj1 (proj2 (max_min_are_extremes
                         (num := Numeric_Z) 100%Z (-100)%Z 4%Z [8; 3]%Z
                         Z.ltb_irrefl
                         (fun a b c Hab Hbc =>
                            proj2 (Z.ltb_lt a c)
                                  (Z.lt_trans a b c (proj1 (Z.ltb_lt a b) Hab)
                                              (proj1 (Z.ltb_lt b c) Hbc)))))).
Defined.
